(** * goctor: the semantic-version constraint engine (internal/semver)

    A shallow embedding of [internal/semver/semver.go] and the properties
    its specification states about it.

    - Go [int] fields are [Z]; the only integers that are ever built are
      produced by [strconv.Atoi], whose range check is written out.
    - Go strings are byte strings: [string] of [ascii] (8-bit) characters.
    - A Go result pair [(T, error)] is a Rocq pair [(T * option error)]
      where [None] is the [nil] error and an [error] is its message. *)

From Stdlib Require Import ZArith String Ascii List Bool Lia.
From Stdlib Require Import Decimal DecimalString DecimalPos DecimalZ.
From Stdlib Require Import Permutation.
Import ListNotations.

Local Open Scope string_scope.
Local Open Scope Z_scope.

(** ** Data model *)

(** [type Version struct]. An empty [Prerelease] or [Build] means that
    the part is absent. *)
Record Version : Type := mkVersion {
  Major : Z;
  Minor : Z;
  Patch : Z;
  Prerelease : string;
  Build : string
}.

(** [type Operator int] with its eight [iota] constants. *)
Inductive Operator : Type :=
| OpEqual
| OpGreater
| OpGreaterEqual
| OpLess
| OpLessEqual
| OpTilde
| OpCaret
| OpNotEqual.

(** [type Constraint struct]; the fields are prefixed because their Go
    names are those of the two types above. *)
Record Constraint : Type := mkConstraint {
  c_Operator : Operator;
  c_Version : Version
}.

(** The zero values [Version{}] and [Constraint{}]. *)
Definition zeroVersion : Version := mkVersion 0 0 0 "" "".

Definition zeroConstraint : Constraint := mkConstraint OpEqual zeroVersion.

(** ** Comparison *)

(** [func comparePrerelease(pre1, pre2 string) int]. Go's [<] and [>] on
    strings compare byte by byte, which is [String.ltb]. *)
Definition comparePrerelease (pre1 pre2 : string) : Z :=
  if (pre1 =? "")%string && (pre2 =? "")%string then 0
  else if (pre1 =? "")%string then 1
  else if (pre2 =? "")%string then -1
  else if (pre1 <? pre2)%string then -1
  else if (pre2 <? pre1)%string then 1
  else 0.

(** [func (v Version) Compare(other Version) int]. *)
Definition Compare (v other : Version) : Z :=
  if negb (Major v =? Major other) then
    (if Major v <? Major other then -1 else 1)
  else if negb (Minor v =? Minor other) then
    (if Minor v <? Minor other then -1 else 1)
  else if negb (Patch v =? Patch other) then
    (if Patch v <? Patch other then -1 else 1)
  else comparePrerelease (Prerelease v) (Prerelease other).

(** ** Satisfaction *)

(** [func (c Constraint) tildeConstraint(version Version) bool]. *)
Definition tildeConstraint (c : Constraint) (version : Version) : bool :=
  if negb (Major version =? Major (c_Version c)) then false
  else if negb (Minor version =? Minor (c_Version c)) then false
  else Patch version >=? Patch (c_Version c).

(** [func (c Constraint) caretConstraint(version Version) bool]. *)
Definition caretConstraint (c : Constraint) (version : Version) : bool :=
  if negb (Major version =? Major (c_Version c)) then false
  else if Major (c_Version c) =? 0 then
    if negb (Minor version =? Minor (c_Version c)) then false
    else if Minor (c_Version c) =? 0 then
      Patch version =? Patch (c_Version c)
    else Patch version >=? Patch (c_Version c)
  else if Minor version >? Minor (c_Version c) then true
  else if Minor version =? Minor (c_Version c) then
    Patch version >=? Patch (c_Version c)
  else false.

(** [func (c Constraint) IsSatisfiedBy(version Version) bool]. The
    [default] branch of the Go switch is not reachable from the eight
    operators. *)
Definition IsSatisfiedBy (c : Constraint) (version : Version) : bool :=
  let comparison := Compare version (c_Version c) in
  match c_Operator c with
  | OpEqual => comparison =? 0
  | OpGreater => comparison >? 0
  | OpGreaterEqual => comparison >=? 0
  | OpLess => comparison <? 0
  | OpLessEqual => comparison <=? 0
  | OpNotEqual => negb (comparison =? 0)
  | OpTilde => tildeConstraint c version
  | OpCaret => caretConstraint c version
  end.

(** [func SatisfiesAll(version Version, constraints []Constraint) bool]:
    the loop returns [false] at the first constraint that fails. *)
Fixpoint SatisfiesAll (version : Version) (constraints : list Constraint)
  : bool :=
  match constraints with
  | [] => true
  | constraint :: rest =>
      if negb (IsSatisfiedBy constraint version) then false
      else SatisfiesAll version rest
  end.

(** ** Regular expressions

    The fragment of Go's [regexp] syntax that the two patterns of the
    package use, with the leftmost-first meaning that [regexp] documents:
    the match found is the one a backtracking search finds first. *)

(** In-place update [l[i] = x]; an index past the end leaves the list
    unchanged (the code never writes one). *)
Fixpoint list_set {A : Type} (i : nat) (x : A) (l : list A) : list A :=
  match l, i with
  | [], _ => []
  | _ :: l', O => x :: l'
  | y :: l', S i' => y :: list_set i' x l'
  end.

Inductive regex : Type :=
| Bol                        (* [^] *)
| Eol                        (* [$] *)
| Lit (c : ascii)            (* one literal character *)
| Rep1 (p : ascii -> bool)   (* [[class]+], greedy *)
| Cat (r1 r2 : regex)        (* [r1 r2] *)
| Alt (r1 r2 : regex)        (* [r1|r2], [r1] preferred *)
| Opt (r : regex)            (* [r?], greedy *)
| Cap (n : nat) (r : regex). (* capturing group number [n] *)

(** What remains to be matched: position, rest of the input, groups. *)
Definition cont : Type := nat -> string -> list string -> option (list string).

(** [[class]+]: as many characters as possible, one fewer on failure. *)
Fixpoint rep1 (p : ascii -> bool) (pos : nat) (s : string)
  (caps : list string) (k : cont) : option (list string) :=
  match s with
  | EmptyString => None
  | String c s' =>
      if p c then
        match rep1 p (S pos) s' caps k with
        | Some m => Some m
        | None => k (S pos) s' caps
        end
      else None
  end.

Fixpoint rmatch (r : regex) (pos : nat) (s : string) (caps : list string)
  (k : cont) : option (list string) :=
  match r with
  | Bol => if Nat.eqb pos 0 then k pos s caps else None
  | Eol => match s with EmptyString => k pos s caps | String _ _ => None end
  | Lit c =>
      match s with
      | String c' s' => if Ascii.eqb c' c then k (S pos) s' caps else None
      | EmptyString => None
      end
  | Rep1 p => rep1 p pos s caps k
  | Cat r1 r2 =>
      rmatch r1 pos s caps (fun pos' s' caps' => rmatch r2 pos' s' caps' k)
  | Alt r1 r2 =>
      match rmatch r1 pos s caps k with
      | Some m => Some m
      | None => rmatch r2 pos s caps k
      end
  | Opt r1 =>
      match rmatch r1 pos s caps k with
      | Some m => Some m
      | None => k pos s caps
      end
  | Cap n r1 =>
      rmatch r1 pos s caps (fun pos' s' caps' =>
        k pos' s' (list_set n (substring 0 (pos' - pos) s) caps'))
  end.

(** The highest group number of a pattern. *)
Fixpoint num_groups (r : regex) : nat :=
  match r with
  | Bol | Eol | Lit _ | Rep1 _ => 0
  | Cat r1 r2 | Alt r1 r2 => Nat.max (num_groups r1) (num_groups r2)
  | Opt r1 => num_groups r1
  | Cap n r1 => Nat.max n (num_groups r1)
  end.

(** The search for the leftmost match: start positions in order. *)
Fixpoint find_from (re : regex) (pos : nat) (s : string)
  : option (list string) :=
  match
    rmatch re pos s (repeat EmptyString (S (num_groups re)))
      (fun pos' _ caps =>
         Some (list_set 0 (substring 0 (pos' - pos) s) caps))
  with
  | Some m => Some m
  | None =>
      match s with
      | EmptyString => None
      | String _ s' => find_from re (S pos) s'
      end
  end.

(** [Regexp.FindStringSubmatch]: [None] is the [nil] slice; in a match,
    element 0 is the matched text, element [n] the text of group [n], and
    a group that took no part in the match is the empty string. *)
Definition FindStringSubmatch (re : regex) (s : string)
  : option (list string) :=
  find_from re 0 s.

(** Character classes. [\d] is ASCII-only in Go. *)
Definition in_range (lo hi c : ascii) : bool :=
  (N_of_ascii lo <=? N_of_ascii c)%N && (N_of_ascii c <=? N_of_ascii hi)%N.

Definition is_digit (c : ascii) : bool := in_range "0" "9" c.

(** [[0-9A-Za-z\-\.]] *)
Definition is_ident_char (c : ascii) : bool :=
  in_range "0" "9" c || in_range "A" "Z" c || in_range "a" "z" c
  || Ascii.eqb c "-" || Ascii.eqb c ".".

(** [.] without the [s] flag: anything but a line feed. *)
Definition is_not_newline (c : ascii) : bool :=
  negb (Ascii.eqb c "010").

(** The optional group [(?:SEP(CLASS+))?] with group number [n]. *)
Definition opt_part (sep : ascii) (n : nat) (p : ascii -> bool) : regex :=
  Opt (Cat (Lit sep) (Cap n (Rep1 p))).

(** [^v?(\d+)(?:\.(\d+))?(?:\.(\d+))?(?:-([0-9A-Za-z\-\.]+))?(?:\+([0-9A-Za-z\-\.]+))?$] *)
Definition versionRegex : regex :=
  Cat Bol
  (Cat (Opt (Lit "v"))
  (Cat (Cap 1 (Rep1 is_digit))
  (Cat (opt_part "." 2 is_digit)
  (Cat (opt_part "." 3 is_digit)
  (Cat (opt_part "-" 4 is_ident_char)
  (Cat (opt_part "+" 5 is_ident_char)
       Eol)))))).

(** [>=|<=|>|<|~|\^|!=] *)
Definition operator_alternatives : regex :=
  Alt (Cat (Lit ">") (Lit "="))
  (Alt (Cat (Lit "<") (Lit "="))
  (Alt (Lit ">")
  (Alt (Lit "<")
  (Alt (Lit "~")
  (Alt (Lit "^")
       (Cat (Lit "!") (Lit "="))))))).

(** [^(>=|<=|>|<|~|\^|!=)?(.+)$] *)
Definition constraintRegex : regex :=
  Cat Bol
  (Cat (Opt (Cap 1 operator_alternatives))
  (Cat (Cap 2 (Rep1 is_not_newline))
       Eol)).

(** ** Numbers and text *)

Definition error : Type := string.

(** [strconv.IntSize] on the 64-bit platforms the tool is built for. *)
Definition intSize : Z := 64.

Definition maxInt : Z := 2 ^ (intSize - 1) - 1.

Definition minInt : Z := - 2 ^ (intSize - 1).

(** The digits of [strconv.Atoi]: not empty, decimal, in the range of
    [int] once signed. *)
Definition atoi_digits (neg : bool) (digits : string) : option Z :=
  match NilZero.uint_of_string digits with
  | Some d =>
      let n := if neg then - Z.of_uint d else Z.of_uint d in
      if (minInt <=? n) && (n <=? maxInt) then Some n else None
  | None => None
  end.

(** [strconv.Atoi]: an optional sign and decimal digits; [None] is a
    syntax or range error. *)
Definition Atoi (s : string) : option Z :=
  match s with
  | EmptyString => atoi_digits false s
  | String c s' =>
      if Ascii.eqb c "+" then atoi_digits false s'
      else if Ascii.eqb c "-" then atoi_digits true s'
      else atoi_digits false s
  end.

(** The verb [%d] of [fmt.Sprintf]. *)
Definition itoa (n : Z) : string := NilZero.string_of_int (Z.to_int n).

(** ** Parsing *)

(** [func ParseVersion(versionStr string) (Version, error)]. *)
Definition ParseVersion (versionStr : string) : Version * option error :=
  if (versionStr =? "")%string then
    (zeroVersion, Some "version string cannot be empty")
  else
    match FindStringSubmatch versionRegex versionStr with
    | None =>
        (zeroVersion, Some ("invalid version format: " ++ versionStr)%string)
    | Some matches =>
        let m i := nth i matches EmptyString in
        match Atoi (m 1%nat) with
        | None =>
            (zeroVersion, Some ("invalid major version: " ++ m 1%nat)%string)
        | Some major =>
            match
              if negb (m 2%nat =? "")%string then Atoi (m 2%nat) else Some 0
            with
            | None =>
                (zeroVersion,
                 Some ("invalid minor version: " ++ m 2%nat)%string)
            | Some minor =>
                match
                  if negb (m 3%nat =? "")%string then Atoi (m 3%nat)
                  else Some 0
                with
                | None =>
                    (zeroVersion,
                     Some ("invalid patch version: " ++ m 3%nat)%string)
                | Some patch =>
                    (mkVersion major minor patch
                       (if negb (m 4%nat =? "")%string then m 4%nat else "")
                       (if negb (m 5%nat =? "")%string then m 5%nat else ""),
                     None)
                end
            end
        end
    end.

(** The [switch operatorStr] of [ParseConstraint]; [None] is its
    [default] branch. *)
Definition operator_of (operatorStr : string) : option Operator :=
  if (operatorStr =? ">=")%string then Some OpGreaterEqual
  else if (operatorStr =? ">")%string then Some OpGreater
  else if (operatorStr =? "<=")%string then Some OpLessEqual
  else if (operatorStr =? "<")%string then Some OpLess
  else if (operatorStr =? "~")%string then Some OpTilde
  else if (operatorStr =? "^")%string then Some OpCaret
  else if (operatorStr =? "!=")%string then Some OpNotEqual
  else if (operatorStr =? "")%string || (operatorStr =? "=")%string
  then Some OpEqual
  else None.

(** [func ParseConstraint(constraintStr string) (Constraint, error)]. *)
Definition ParseConstraint (constraintStr : string)
  : Constraint * option error :=
  if (constraintStr =? "")%string then
    (zeroConstraint, Some "constraint string cannot be empty")
  else
    match FindStringSubmatch constraintRegex constraintStr with
    | None =>
        (zeroConstraint,
         Some ("invalid constraint format: " ++ constraintStr)%string)
    | Some matches =>
        let operatorStr := nth 1 matches EmptyString in
        let versionStr := nth 2 matches EmptyString in
        match operator_of operatorStr with
        | None =>
            (zeroConstraint,
             Some ("unknown operator: " ++ operatorStr)%string)
        | Some operator =>
            let '(version, err) := ParseVersion versionStr in
            match err with
            | Some e =>
                (zeroConstraint,
                 Some ("invalid version in constraint: " ++ e)%string)
            | None => (mkConstraint operator version, None)
            end
        end
    end.

(** ** Rendering *)

(** [func (v Version) String() string]. *)
Definition Version_String (v : Version) : string :=
  let result :=
    (itoa (Major v) ++ "." ++ itoa (Minor v) ++ "." ++ itoa (Patch v))%string
  in
  let result :=
    if negb (Prerelease v =? "")%string
    then (result ++ "-" ++ Prerelease v)%string else result in
  let result :=
    if negb (Build v =? "")%string
    then (result ++ "+" ++ Build v)%string else result in
  result.

(** ** Lists of constraints *)

(** The width in bytes of the white-space rune ([unicode.IsSpace]) that
    starts [s], and 0 when [s] starts with anything else: the six ASCII
    spaces, U+0085 and U+00A0, U+1680, U+2000 to U+200A, U+2028, U+2029,
    U+202F, U+205F and U+3000 in UTF-8. *)
Definition space_width (s : string) : nat :=
  match s with
  | EmptyString => 0
  | String c0 s1 =>
      let b0 := N_of_ascii c0 in
      if ((9 <=? b0) && (b0 <=? 13) || (b0 =? 32))%N then 1
      else
        match s1 with
        | EmptyString => 0
        | String c1 s2 =>
            let b1 := N_of_ascii c1 in
            if (b0 =? 194)%N then
              if ((b1 =? 133) || (b1 =? 160))%N then 2 else 0
            else
              match s2 with
              | EmptyString => 0
              | String c2 _ =>
                  let b2 := N_of_ascii c2 in
                  if ((b0 =? 225) && (b1 =? 154) && (b2 =? 128))%N then 3
                  else if ((b0 =? 226) && (b1 =? 128)
                           && ((128 <=? b2) && (b2 <=? 138)
                               || (b2 =? 168) || (b2 =? 169) || (b2 =? 175)))%N
                  then 3
                  else if ((b0 =? 226) && (b1 =? 129) && (b2 =? 159))%N then 3
                  else if ((b0 =? 227) && (b1 =? 128) && (b2 =? 128))%N then 3
                  else 0
              end
        end
  end%nat.

(** The field collected so far, if there is one. *)
Definition flush (cur : string) : list string :=
  if (cur =? "")%string then [] else [cur].

(** The scan of [strings.Fields]: [skip] counts the bytes that are left
    of the white-space rune being passed, [cur] is the field being
    collected. A byte that starts no white-space rune belongs to a field:
    no byte inside another rune, well-formed or not, starts one. *)
Fixpoint fields_from (skip : nat) (cur : string) (s : string)
  : list string :=
  match s with
  | EmptyString => flush cur
  | String c s' =>
      match skip with
      | S n => fields_from n cur s'
      | O =>
          match space_width s with
          | O => fields_from 0 (cur ++ String c "")%string s'
          | S n => (flush cur ++ fields_from n "" s')%list
          end
      end
  end.

(** [strings.Fields]. *)
Definition Fields (s : string) : list string := fields_from 0 "" s.

(** The loop of [ParseConstraints] from index [i] on; [constraints] is the
    slice made before the loop. *)
Fixpoint parse_parts (parts : list string) (i : nat)
  (constraints : list Constraint) : list Constraint * option error :=
  match parts with
  | [] => (constraints, None)
  | part :: rest =>
      let '(constraint, err) := ParseConstraint part in
      match err with
      | Some e =>
          ([], Some ("failed to parse constraint '" ++ part ++ "': " ++ e)
                %string)
      | None => parse_parts rest (S i) (list_set i constraint constraints)
      end
  end.

(** [func ParseConstraints(constraintStr string) ([]Constraint, error)];
    the [nil] slice is the empty list. *)
Definition ParseConstraints (constraintStr : string)
  : list Constraint * option error :=
  if (constraintStr =? "")%string then
    ([], Some "constraint string cannot be empty")
  else
    let parts := Fields constraintStr in
    let constraints := repeat zeroConstraint (length parts) in
    parse_parts parts 0 constraints.

(** * The specification's rules, as it words them *)

(** ** The comparison rule *)

Definition sign_of (c : comparison) : Z :=
  match c with
  | Lt => -1
  | Eq => 0
  | Gt => 1
  end.

(** "first unequal field decides" *)
Fixpoint first_unequal (cs : list comparison) : comparison :=
  match cs with
  | [] => Eq
  | Eq :: cs' => first_unequal cs'
  | c :: _ => c
  end.

Definition bytes_of (s : string) : list N :=
  map N_of_ascii (list_ascii_of_string s).

(** "plain lexicographic string ordering (byte order)" *)
Fixpoint lex_bytes (x y : list N) : comparison :=
  match x, y with
  | [], [] => Eq
  | [], _ :: _ => Lt
  | _ :: _, [] => Gt
  | a :: x', b :: y' =>
      match (a ?= b)%N with
      | Eq => lex_bytes x' y'
      | c => c
      end
  end.

(** The order of two prerelease parts; the empty string is "no
    prerelease". *)
Definition prerelease_rule (p q : string) : comparison :=
  match p, q with
  | EmptyString, EmptyString => Eq
  | EmptyString, String _ _ => Gt
  | String _ _, EmptyString => Lt
  | String _ _, String _ _ => lex_bytes (bytes_of p) (bytes_of q)
  end.

Definition compare_rule (a b : Version) : Z :=
  sign_of (first_unequal
    [Major a ?= Major b; Minor a ?= Minor b; Patch a ?= Patch b;
     prerelease_rule (Prerelease a) (Prerelease b)]).

(** ** The caret rule *)

(** The rule of the satisfaction table for [^], read as the conditions
    under which the answer [sat] is [true]. *)
Definition caret_rule_as_stated (b v : Version) (sat : bool) : Prop :=
  (Major v <> Major b -> sat = false) /\
  (Major v = Major b -> Major b = 0 -> Minor b = 0 ->
     (sat = true <-> Patch v = Patch b)) /\
  (Major v = Major b -> Major b = 0 -> Minor b <> 0 ->
     (sat = true <-> Minor v = Minor b /\ Patch v >= Patch b)) /\
  (Major v = Major b -> Major b > 0 ->
     (sat = true <->
      Minor v > Minor b \/ (Minor v = Minor b /\ Patch v >= Patch b))).

(** The same rule with the requirement on the minor number also made in
    the [0.0.x] case. *)
Definition caret_rule (b v : Version) (sat : bool) : Prop :=
  (Major v <> Major b -> sat = false) /\
  (Major v = Major b -> Major b = 0 -> Minor b = 0 ->
     (sat = true <-> Minor v = Minor b /\ Patch v = Patch b)) /\
  (Major v = Major b -> Major b = 0 -> Minor b <> 0 ->
     (sat = true <-> Minor v = Minor b /\ Patch v >= Patch b)) /\
  (Major v = Major b -> Major b > 0 ->
     (sat = true <->
      Minor v > Minor b \/ (Minor v = Minor b /\ Patch v >= Patch b))).

(** ** The grammar of version strings

    [["v"] MAJOR ["." MINOR ["." PATCH]] ["-" PRERELEASE] ["+" BUILD]] *)

(** The parts of a version string. *)
Record version_text : Type := mkText {
  t_v : bool;
  t_major : string;
  t_minor : option string;
  t_patch : option string;
  t_prerelease : option string;
  t_build : option string
}.

Definition opt_text (sep : string) (part : option string) : string :=
  match part with
  | Some w => (sep ++ w)%string
  | None => ""
  end.

Definition text_of (t : version_text) : string :=
  ((if t_v t then "v" else "")
   ++ t_major t
   ++ opt_text "." (t_minor t)
   ++ opt_text "." (t_patch t)
   ++ opt_text "-" (t_prerelease t)
   ++ opt_text "+" (t_build t))%string.

Fixpoint all_chars (p : ascii -> bool) (w : string) : bool :=
  match w with
  | EmptyString => true
  | String c w' => p c && all_chars p w'
  end.

(** "one or more" characters of a class *)
Definition some_chars (p : ascii -> bool) (w : string) : Prop :=
  w <> "" /\ all_chars p w = true.

(** "one or more ASCII digits" *)
Definition numeral (w : string) : Prop := some_chars is_digit w.

(** [[0-9A-Za-z-]] *)
Definition is_segment_char (c : ascii) : bool :=
  in_range "0" "9" c || in_range "A" "Z" c || in_range "a" "z" c
  || Ascii.eqb c "-".

(** "one or more dot-separated segments of [[0-9A-Za-z-]+]" *)
Definition dot_segments (w : string) : Prop :=
  exists segs : list string,
    segs <> [] /\ Forall (some_chars is_segment_char) segs /\
    w = String.concat "." segs.

(** One or more characters of the class of the pattern,
    [[0-9A-Za-z\-\.]+]. *)
Definition identifier (w : string) : Prop := some_chars is_ident_char w.

Definition opt_holds (P : string -> Prop) (part : option string) : Prop :=
  match part with
  | Some w => P w
  | None => True
  end.

(** The parts are those of the grammar; [P] is what it asks of the
    prerelease part. BUILD has "the same charset as PRERELEASE". *)
Definition in_grammar (P : string -> Prop) (t : version_text) : Prop :=
  numeral (t_major t) /\
  opt_holds numeral (t_minor t) /\
  opt_holds numeral (t_patch t) /\
  (t_minor t = None -> t_patch t = None) /\
  opt_holds P (t_prerelease t) /\
  opt_holds identifier (t_build t).

(** The number a numeral stands for. *)
Definition numeral_value (w : string) : Z :=
  match NilEmpty.uint_of_string w with
  | Some d => Z.of_uint d
  | None => 0
  end.

Definition opt_value (part : option string) : Z :=
  match part with
  | Some w => numeral_value w
  | None => 0
  end.

(** The three numbers are in the range of [int]. *)
Definition fits_int (t : version_text) : Prop :=
  numeral_value (t_major t) <= maxInt /\
  opt_value (t_minor t) <= maxInt /\
  opt_value (t_patch t) <= maxInt.

(** The Version that the parts stand for: an absent MINOR or PATCH is 0,
    an absent PRERELEASE or BUILD the empty string. *)
Definition version_of (t : version_text) : Version :=
  mkVersion (numeral_value (t_major t)) (opt_value (t_minor t))
    (opt_value (t_patch t)) (opt_text "" (t_prerelease t))
    (opt_text "" (t_build t)).

(** The input without the optional leading "v". *)
Definition after_v (s : string) : string :=
  match s with
  | EmptyString => s
  | String c s' => if Ascii.eqb c "v" then s' else s
  end.

Definition starts_with_digit (s : string) : bool :=
  match s with
  | EmptyString => false
  | String c _ => is_digit c
  end.

(** ** White space *)

(** The string is made of white-space runes only. *)
Fixpoint only_space_from (skip : nat) (s : string) : bool :=
  match s with
  | EmptyString => true
  | String _ s' =>
      match skip with
      | S n => only_space_from n s'
      | O =>
          match space_width s with
          | O => false
          | S n => only_space_from n s'
          end
      end
  end.

Definition only_space (s : string) : bool := only_space_from 0 s.

(** A byte that starts the encoding of a white-space rune. *)
Definition space_lead (c : ascii) : bool :=
  let b := N_of_ascii c in
  ((9 <=? b) && (b <=? 13) || (b =? 32) || (b =? 194) || (b =? 225)
   || (b =? 226) || (b =? 227))%N.

(** No white-space rune starts inside the string. *)
Definition space_free (part : string) : Prop :=
  forall a c b, part = (a ++ String c b)%string ->
                space_width (String c b) = 0%nat.

(** [part] is parsed into [c]. *)
Definition parses_to (part : string) (c : Constraint) : Prop :=
  ParseConstraint part = (c, None).

(** * The deterministic reading of [constraintRegex] *)

Definition or_else {A : Type} (x y : option A) : option A :=
  match x with
  | Some a => Some a
  | None => y
  end.

(** [s] starts with the character [a]; [f] reads the rest. *)
Definition lit1 {A : Type} (a : ascii) (s : string)
  (f : string -> option A) : option A :=
  match s with
  | String c0 s1 => if Ascii.eqb c0 a then f s1 else None
  | EmptyString => None
  end.

(** [s] starts with the characters [a] and [b]; [f] reads the rest. *)
Definition lit2 {A : Type} (a b : ascii) (s : string)
  (f : string -> option A) : option A :=
  lit1 a s (fun s1 => lit1 b s1 f).

(** What [(.+)$] accepts: one or more characters, none a line feed. *)
Definition rest_ok (s : string) : bool :=
  negb (s =? "")%string && all_chars is_not_newline s.

Definition with_operator (op : string) (s : string)
  : option (string * string) :=
  if rest_ok s then Some (op, s) else None.

(** The operator and the version text that [constraintRegex] finds: the
    first alternative in the order of the pattern that leaves an
    acceptable rest, and no operator when there is none. *)
Definition split_operator (s : string) : option (string * string) :=
  or_else (lit2 ">" "=" s (with_operator ">="))
  (or_else (lit2 "<" "=" s (with_operator "<="))
  (or_else (lit1 ">" s (with_operator ">"))
  (or_else (lit1 "<" s (with_operator "<"))
  (or_else (lit1 "~" s (with_operator "~"))
  (or_else (lit1 "^" s (with_operator "^"))
  (or_else (lit2 "!" "=" s (with_operator "!="))
           (with_operator "" s))))))).

(** The rest of [constraintRegex] after the operator. *)
Definition constraint_tail : regex :=
  Cat (Cap 2 (Rep1 is_not_newline)) Eol.

(** * The deterministic reading of [versionRegex]

    The pattern never needs to backtrack over a choice it made: these
    functions read the groups from left to right, and are proved below to
    compute what the search computes. *)

(** The longest prefix of characters of a class, and the rest. *)
Fixpoint span (p : ascii -> bool) (s : string) : string * string :=
  match s with
  | EmptyString => (EmptyString, EmptyString)
  | String c s' =>
      if p c then let (w, rest) := span p s' in (String c w, rest)
      else (EmptyString, s)
  end.

(** [SEP CLASS+] at the start of [s]: the text of the class and the
    rest. *)
Definition scan_part (sep : ascii) (p : ascii -> bool) (s : string)
  : option (string * string) :=
  match s with
  | EmptyString => None
  | String c s' =>
      if Ascii.eqb c sep then
        match span p s' with
        | (EmptyString, _) => None
        | (w, rest) => Some (w, rest)
        end
      else None
  end.

Definition scanner : Type := string -> list string -> option (list string).

Definition scan_end : scanner :=
  fun s caps => match s with EmptyString => Some caps | String _ _ => None end.

Definition scan_opt (sep : ascii) (n : nat) (p : ascii -> bool)
  (next : scanner) : scanner :=
  fun s caps =>
    match scan_part sep p s with
    | Some (w, rest) => next rest (list_set n w caps)
    | None => next s caps
    end.

Definition scan_build : scanner := scan_opt "+" 5 is_ident_char scan_end.
Definition scan_prerelease : scanner := scan_opt "-" 4 is_ident_char scan_build.
Definition scan_patch : scanner := scan_opt "." 3 is_digit scan_prerelease.
Definition scan_minor : scanner := scan_opt "." 2 is_digit scan_patch.

Definition scan_major : scanner :=
  fun s caps =>
    match span is_digit s with
    | (EmptyString, _) => None
    | (w, rest) => scan_minor rest (list_set 1 w caps)
    end.

Definition scan_version : scanner :=
  fun s caps =>
    match s with
    | EmptyString => scan_major s caps
    | String c s' =>
        if Ascii.eqb c "v" then scan_major s' caps else scan_major s caps
    end.

(** What [scan_part] reads, and what it leaves. *)
Definition part_read (sep : ascii) (p : ascii -> bool) (s : string)
  : option string :=
  match scan_part sep p s with
  | Some (w, _) => Some w
  | None => None
  end.

Definition rest_read (sep : ascii) (p : ascii -> bool) (s : string)
  : string :=
  match scan_part sep p s with
  | Some (_, rest) => rest
  | None => s
  end.

(** [passes r]: [r] may match without taking a character while there is
    one to take. *)
Fixpoint passes (r : regex) : bool :=
  match r with
  | Bol => true
  | Eol | Lit _ | Rep1 _ => false
  | Cat r1 r2 => passes r1 && passes r2
  | Alt r1 r2 => passes r1 || passes r2
  | Opt _ => true
  | Cap _ r1 => passes r1
  end.

(** [first r c]: [r] may take [c] as the first character of its match. *)
Fixpoint first (r : regex) (c : ascii) : bool :=
  match r with
  | Bol | Eol => false
  | Lit c' => Ascii.eqb c c'
  | Rep1 p => p c
  | Cat r1 r2 => first r1 c || (passes r1 && first r2 c)
  | Alt r1 r2 => first r1 c || first r2 c
  | Opt r1 | Cap _ r1 => first r1 c
  end.

(** [blocks r c]: [r] fails on every input that starts with [c], whatever
    follows the pattern. *)
Definition blocks (r : regex) (c : ascii) : bool :=
  negb (first r c) && negb (passes r).

(** What [rest] starts with is not in the class [p]. *)
Definition stops (p : ascii -> bool) (rest : string) : Prop :=
  match rest with
  | EmptyString => True
  | String c _ => p c = false
  end.

(** A continuation that fails on every input that starts with [c]. *)
Definition fails_on (c : ascii) (k : cont) : Prop :=
  forall pos s caps, k pos (String c s) caps = None.

(** The scanner [scan] computes the groups that the search finds for the
    pattern [r] when [r] has to match up to the end of the input. *)
Definition reads (r : regex) (scan : scanner) : Prop :=
  forall kf : cont,
    (forall pos s caps, kf pos s caps <> None) ->
    forall pos s caps,
      rmatch r pos s caps kf =
      match scan s caps with
      | Some caps' => kf (pos + String.length s)%nat EmptyString caps'
      | None => None
      end.

(** Whether a scanner fails does not depend on the groups read so far. *)
Definition blind (scan : scanner) : Prop :=
  forall s caps caps', scan s caps = None -> scan s caps' = None.

(** The tails of [versionRegex]. *)
Definition build_tail : regex := Cat (opt_part "+" 5 is_ident_char) Eol.
Definition prerelease_tail : regex :=
  Cat (opt_part "-" 4 is_ident_char) build_tail.
Definition patch_tail : regex := Cat (opt_part "." 3 is_digit) prerelease_tail.
Definition minor_tail : regex := Cat (opt_part "." 2 is_digit) patch_tail.
Definition major_tail : regex := Cat (Cap 1 (Rep1 is_digit)) minor_tail.
Definition version_tail : regex := Cat (Opt (Lit "v")) major_tail.

(** * The rest of the package *)

(** [func (op Operator) String() string]; its [default] branch is not
    reachable from the eight operators. *)
Definition Operator_String (op : Operator) : string :=
  match op with
  | OpEqual => "="
  | OpGreater => ">"
  | OpGreaterEqual => ">="
  | OpLess => "<"
  | OpLessEqual => "<="
  | OpTilde => "~"
  | OpCaret => "^"
  | OpNotEqual => "!="
  end.

(** [func (c Constraint) String() string]. *)
Definition Constraint_String (c : Constraint) : string :=
  match c_Operator c with
  | OpEqual => Version_String (c_Version c)
  | _ => (Operator_String (c_Operator c) ++ Version_String (c_Version c))
         %string
  end.

(** The text that stands for an operator in front of a version: none for
    [OpEqual]. *)
Definition operator_token (op : Operator) : string :=
  match op with
  | OpEqual => ""
  | _ => Operator_String op
  end.

(** The version with another prerelease part. *)
Definition with_prerelease (v : Version) (prerelease : string) : Version :=
  mkVersion (Major v) (Minor v) (Patch v) prerelease (Build v).

(** The release [major.minor.patch]. *)
Definition release (major minor patch : Z) : Version :=
  mkVersion major minor patch "" "".

(** The bound that the comment of [tildeConstraint] names:
    [~1.2.3 := >=1.2.3 <1.3.0]. *)
Definition tilde_upper (b : Version) : Version :=
  release (Major b) (Minor b + 1) 0.

(** The bounds that the comment of [caretConstraint] names:
    [^1.2.3 := >=1.2.3 <2.0.0], [^0.2.3 := >=0.2.3 <0.3.0] and
    [^0.0.3 := >=0.0.3 <0.0.4]. *)
Definition caret_upper (b : Version) : Version :=
  if negb (Major b =? 0) then release (Major b + 1) 0 0
  else if negb (Minor b =? 0) then release 0 (Minor b + 1) 0
  else release 0 0 (Patch b + 1).

(** * The checker (internal/checker)

    The caller of the package: the version of a tool is read from the
    output of its command and validated against its requirement. *)

(** ** The tool definition (internal/manifest) *)

Record CheckConfig : Type := mkCheckConfig {
  cc_Command : list string;
  cc_Regex : string
}.

(** [Links] is a [map[string]string]; only its length is read. *)
Record ToolDefinition : Type := mkToolDefinition {
  td_ID : string;
  td_Name : string;
  td_Rationale : string;
  td_RequiredVersion : string;
  td_Check : CheckConfig;
  td_Links : list (string * string);
  td_TimeoutSeconds : Z
}.

(** [func (td *ToolDefinition) CheckCommand() []string]. *)
Definition CheckCommand (td : ToolDefinition) : list string :=
  cc_Command (td_Check td).

(** [func (td *ToolDefinition) VersionRegex() string]. *)
Definition VersionRegex (td : ToolDefinition) : string :=
  cc_Regex (td_Check td).

(** ** The platform (internal/platform) *)

Record PlatformInfo : Type := mkPlatformInfo {
  pi_OS : string;
  pi_Architecture : string;
  pi_Hostname : string
}.

(** [func (pi *PlatformInfo) String() string]. *)
Definition PlatformInfo_String (pi : PlatformInfo) : string :=
  if negb (pi_Hostname pi =? "")%string then
    (pi_OS pi ++ "/" ++ pi_Architecture pi ++ " (" ++ pi_Hostname pi ++ ")")
      %string
  else (pi_OS pi ++ "/" ++ pi_Architecture pi)%string.

(** ** The types of the checker *)

Inductive CheckStatus : Type :=
| StatusUnknown
| StatusOK
| StatusMissing
| StatusOutdated
| StatusError
| StatusNotFound.

Inductive ErrorType : Type :=
| ErrorTypeConfiguration
| ErrorTypeExecution
| ErrorTypeParsing
| ErrorTypeTimeout
| ErrorTypeVersionMismatch.

Record CheckError : Type := mkCheckError {
  ce_Message : string;
  ce_Type : ErrorType
}.

(** [func (ce CheckError) Error() string]. *)
Definition CheckError_Error (ce : CheckError) : string := ce_Message ce.

(** [func NewCheckError(message string, errorType ErrorType) CheckError]. *)
Definition NewCheckError (message : string) (errorType : ErrorType)
  : CheckError :=
  mkCheckError message errorType.

(** The result of a check, with the field [CommandPath] that [CheckTool]
    fills. *)
Record CheckResult : Type := mkCheckResult {
  cr_ToolID : string;
  cr_ToolName : string;
  cr_Status : CheckStatus;
  cr_RequiredVersion : string;
  cr_ActualVersion : string;
  cr_CommandPath : string;
  cr_ErrorMessage : string;
  cr_Platform : string;
  cr_Links : list (string * string);
  cr_CheckDuration : Z
}.

Definition zeroCheckResult : CheckResult :=
  mkCheckResult "" "" StatusUnknown "" "" "" "" "" [] 0.

(** The assignments to the fields of a result. *)
Definition set_Status (cr : CheckResult) (status : CheckStatus)
  : CheckResult :=
  mkCheckResult (cr_ToolID cr) (cr_ToolName cr) status
    (cr_RequiredVersion cr) (cr_ActualVersion cr) (cr_CommandPath cr)
    (cr_ErrorMessage cr) (cr_Platform cr) (cr_Links cr)
    (cr_CheckDuration cr).

Definition set_ActualVersion (cr : CheckResult) (version : string)
  : CheckResult :=
  mkCheckResult (cr_ToolID cr) (cr_ToolName cr) (cr_Status cr)
    (cr_RequiredVersion cr) version (cr_CommandPath cr)
    (cr_ErrorMessage cr) (cr_Platform cr) (cr_Links cr)
    (cr_CheckDuration cr).

Definition set_CommandPath (cr : CheckResult) (path : string)
  : CheckResult :=
  mkCheckResult (cr_ToolID cr) (cr_ToolName cr) (cr_Status cr)
    (cr_RequiredVersion cr) (cr_ActualVersion cr) path
    (cr_ErrorMessage cr) (cr_Platform cr) (cr_Links cr)
    (cr_CheckDuration cr).

Definition set_ErrorMessage (cr : CheckResult) (message : string)
  : CheckResult :=
  mkCheckResult (cr_ToolID cr) (cr_ToolName cr) (cr_Status cr)
    (cr_RequiredVersion cr) (cr_ActualVersion cr) (cr_CommandPath cr)
    message (cr_Platform cr) (cr_Links cr) (cr_CheckDuration cr).

(** [func (cr *CheckResult) Validate() error]. *)
Definition CheckResult_Validate (cr : CheckResult) : option error :=
  if (cr_ToolID cr =? "")%string || (cr_ToolName cr =? "")%string
     || (cr_RequiredVersion cr =? "")%string
  then Some "required fields cannot be empty"%string
  else if (length (cr_Links cr) =? 0)%nat
  then Some "links cannot be empty"%string
  else
    match cr_Status cr with
    | StatusOK =>
        if (cr_ActualVersion cr =? "")%string
        then Some "OK status must have actual version"%string
        else None
    | StatusNotFound | StatusMissing =>
        if negb (cr_ActualVersion cr =? "")%string
        then Some "Missing/NotFound status should not have actual version"
               %string
        else None
    | StatusOutdated =>
        if (cr_ActualVersion cr =? "")%string
        then Some "Outdated status must have actual version"%string
        else None
    | StatusError =>
        if (cr_ErrorMessage cr =? "")%string
        then Some "Error status must have error message"%string
        else None
    | StatusUnknown => None
    end.

(** [func (cr *CheckResult) DetermineStatus()]. *)
Definition DetermineStatus (cr : CheckResult) : CheckResult :=
  if negb (cr_ErrorMessage cr =? "")%string then set_Status cr StatusError
  else if (cr_ActualVersion cr =? "")%string
  then set_Status cr StatusNotFound
  else set_Status cr StatusOK.

(** [func (cr *CheckResult) AddError(errMsg string)]. *)
Definition AddError (cr : CheckResult) (errMsg : string) : CheckResult :=
  set_Status (set_ErrorMessage cr errMsg) StatusError.

(** [func (cr *CheckResult) HasErrors() bool]. *)
Definition HasErrors (cr : CheckResult) : bool :=
  negb (cr_ErrorMessage cr =? "")%string.

(** ** The validation of a version *)

(** [func (c *Checker) validateVersion(actualVersion, requiredVersion
    string) error]; the receiver is not read. *)
Definition validateVersion (actualVersion requiredVersion : string)
  : option CheckError :=
  if (actualVersion =? "")%string then
    Some (NewCheckError "no actual version to validate" ErrorTypeParsing)
  else if (requiredVersion =? "")%string then
    Some (NewCheckError "no required version specified"
            ErrorTypeConfiguration)
  else
    match ParseVersion actualVersion with
    | (_, Some err) =>
        Some (NewCheckError ("invalid actual version format: " ++ err)
                ErrorTypeParsing)
    | (actual, None) =>
        match ParseConstraint requiredVersion with
        | (_, Some err) =>
            Some (NewCheckError
                    ("invalid required version constraint: " ++ err)
                    ErrorTypeConfiguration)
        | (constraint, None) =>
            if negb (IsSatisfiedBy constraint actual) then
              Some (NewCheckError "version does not satisfy constraint"
                      ErrorTypeVersionMismatch)
            else None
        end
    end.

(** ** The check of a tool *)

(** The checker with the three methods that run commands and compile the
    pattern of the tool, [getToolPath], [runCommand] and
    [parseVersionFromOutput]: what they return is what the operating
    system and the tool give, and the check is stated for any. *)
Record Checker : Type := mkChecker {
  getToolPath : string -> string * bool * option error;
  runCommand : list string -> Z -> string * option CheckError;
  parseVersionFromOutput : string -> string -> string * option CheckError
}.

(** [func (c *Checker) extractVersion(tool manifest.ToolDefinition)
    (string, error)]. *)
Definition extractVersion (c : Checker) (tool : ToolDefinition)
  : string * option CheckError :=
  if (length (CheckCommand tool) =? 0)%nat then
    ("", Some (NewCheckError "no check command specified"
                 ErrorTypeConfiguration))
  else
    match runCommand c (CheckCommand tool) (td_TimeoutSeconds tool) with
    | (_, Some err) =>
        ("", Some (NewCheckError
                     ("failed to run version command: "
                      ++ CheckError_Error err)
                     ErrorTypeExecution))
    | (output, None) =>
        match parseVersionFromOutput c output (VersionRegex tool) with
        | (_, Some err) =>
            ("", Some (NewCheckError
                         ("failed to parse version: "
                          ++ CheckError_Error err)
                         ErrorTypeParsing))
        | (version, None) => (version, None)
        end
    end.

(** [func (c *Checker) CheckTool(tool manifest.ToolDefinition,
    platformInfo platform.PlatformInfo) CheckResult]. [None] is the panic
    of [tool.CheckCommand()[0]] on a tool without command. *)
Definition CheckTool (c : Checker) (tool : ToolDefinition)
  (platformInfo : PlatformInfo) : option CheckResult :=
  let result :=
    {| cr_ToolID := td_ID tool;
       cr_ToolName := td_Name tool;
       cr_RequiredVersion := td_RequiredVersion tool;
       cr_ActualVersion := "";
       cr_CommandPath := "";
       cr_Status := StatusNotFound;
       cr_ErrorMessage := "";
       cr_Links := td_Links tool;
       cr_Platform := PlatformInfo_String platformInfo;
       cr_CheckDuration := 0 |} in
  match CheckCommand tool with
  | [] => None
  | command :: _ =>
      let '(commandPath, available, err) := getToolPath c command in
      match err, available with
      | Some e, _ =>
          Some (set_ErrorMessage (set_Status result StatusNotFound) e)
      | None, false =>
          Some (set_ErrorMessage (set_Status result StatusNotFound)
                  "Command not found")
      | None, true =>
          let result := set_CommandPath result commandPath in
          match extractVersion c tool with
          | (_, Some err) =>
              Some (set_ErrorMessage (set_Status result StatusError)
                      (CheckError_Error err))
          | (version, None) =>
              let result := set_ActualVersion result version in
              let result :=
                match validateVersion version (td_RequiredVersion tool) with
                | Some err =>
                    set_ErrorMessage (set_Status result StatusOutdated)
                      (CheckError_Error err)
                | None => set_Status result StatusOK
                end in
              Some (DetermineStatus result)
          end
      end
  end.

(** The loop of [CheckMultipleTools] from index [i] on; [results] is the
    slice made before the loop. *)
Fixpoint check_tools (c : Checker) (tools : list ToolDefinition)
  (platformInfo : PlatformInfo) (i : nat) (results : list CheckResult)
  : option (list CheckResult) :=
  match tools with
  | [] => Some results
  | tool :: rest =>
      match CheckTool c tool platformInfo with
      | None => None
      | Some result =>
          check_tools c rest platformInfo (S i) (list_set i result results)
      end
  end.

(** [func (c *Checker) CheckMultipleTools(tools []manifest.ToolDefinition,
    platformInfo platform.PlatformInfo) []CheckResult]. *)
Definition CheckMultipleTools (c : Checker) (tools : list ToolDefinition)
  (platformInfo : PlatformInfo) : option (list CheckResult) :=
  check_tools c tools platformInfo 0
    (repeat zeroCheckResult (length tools)).

(** ** The report *)

Record CheckSummary : Type := mkCheckSummary {
  cs_Total : Z;
  cs_OK : Z;
  cs_Missing : Z;
  cs_Outdated : Z;
  cs_Errors : Z
}.

(** The arithmetic of [int]: the result is wrapped into its range. *)
Definition wrap_int (x : Z) : Z := (x - minInt) mod 2 ^ intSize + minInt.

(** The body of the loop of [CalculateCheckSummary]. *)
Definition count_item (summary : CheckSummary) (item : CheckResult)
  : CheckSummary :=
  match cr_Status item with
  | StatusOK =>
      mkCheckSummary (cs_Total summary) (wrap_int (cs_OK summary + 1))
        (cs_Missing summary) (cs_Outdated summary) (cs_Errors summary)
  | StatusMissing =>
      mkCheckSummary (cs_Total summary) (cs_OK summary)
        (wrap_int (cs_Missing summary + 1)) (cs_Outdated summary)
        (cs_Errors summary)
  | StatusOutdated =>
      mkCheckSummary (cs_Total summary) (cs_OK summary)
        (cs_Missing summary) (wrap_int (cs_Outdated summary + 1))
        (cs_Errors summary)
  | StatusError =>
      mkCheckSummary (cs_Total summary) (cs_OK summary)
        (cs_Missing summary) (cs_Outdated summary)
        (wrap_int (cs_Errors summary + 1))
  | StatusUnknown | StatusNotFound => summary
  end.

(** [func CalculateCheckSummary(items []CheckResult) CheckSummary]. *)
Definition CalculateCheckSummary (items : list CheckResult) : CheckSummary :=
  fold_left count_item items
    (mkCheckSummary (Z.of_nat (length items)) 0 0 0 0).

(** The report; [Platform] holds the [PlatformInfo] that the command
    passes, [GeneratedAt] the instant that the clock gives. *)
Record EnvironmentReport : Type := mkEnvironmentReport {
  er_SchemaVersion : Z;
  er_Platform : PlatformInfo;
  er_Summary : CheckSummary;
  er_ManifestSource : string;
  er_Items : list CheckResult;
  er_GeneratedAt : Z
}.

(** [func NewEnvironmentReport(platform interface{}, manifestSource
    string, items []CheckResult) *EnvironmentReport]; [now] is the result
    of [time.Now()]. *)
Definition NewEnvironmentReport (now : Z) (platform : PlatformInfo)
  (manifestSource : string) (items : list CheckResult)
  : EnvironmentReport :=
  let summary := CalculateCheckSummary items in
  {| er_SchemaVersion := 1;
     er_Platform := platform;
     er_Summary := summary;
     er_ManifestSource := manifestSource;
     er_Items := items;
     er_GeneratedAt := now |}.

(** [func (er *EnvironmentReport) IsSuccessful() bool]. *)
Definition IsSuccessful (er : EnvironmentReport) : bool :=
  (cs_Missing (er_Summary er) =? 0) && (cs_Outdated (er_Summary er) =? 0)
  && (cs_Errors (er_Summary er) =? 0).

(** [func (er *EnvironmentReport) GetExitCode() int]. *)
Definition GetExitCode (er : EnvironmentReport) : Z :=
  if IsSuccessful er then 0 else 1.

(** ** Helpers to state the properties of the checker *)

(** A character of a constraint that is parsed: one of an operator, of
    the class of the version pattern, or "+". *)
Definition is_constraint_char (c : ascii) : bool :=
  is_ident_char c || Ascii.eqb c "+" || Ascii.eqb c ">" || Ascii.eqb c "<"
  || Ascii.eqb c "=" || Ascii.eqb c "~" || Ascii.eqb c "^"
  || Ascii.eqb c "!".

Definition has_status (status : CheckStatus) (item : CheckResult) : bool :=
  match status, cr_Status item with
  | StatusUnknown, StatusUnknown | StatusOK, StatusOK
  | StatusMissing, StatusMissing | StatusOutdated, StatusOutdated
  | StatusError, StatusError | StatusNotFound, StatusNotFound => true
  | _, _ => false
  end.

(** The number of the items with a status. *)
Definition count_status (status : CheckStatus) (items : list CheckResult)
  : Z :=
  Z.of_nat (length (filter (has_status status) items)).

(** The tool is found, its version is read and satisfies the
    requirement. *)
Definition tool_passes (c : Checker) (tool : ToolDefinition) : Prop :=
  exists command rest path version,
    CheckCommand tool = command :: rest /\
    getToolPath c command = (path, true, None) /\
    extractVersion c tool = (version, None) /\
    validateVersion version (td_RequiredVersion tool) = None.

(** The tool is not found: the look-up of its command fails or finds
    nothing. *)
Definition tool_absent (c : Checker) (tool : ToolDefinition) : Prop :=
  exists command rest,
    CheckCommand tool = command :: rest /\
    (snd (getToolPath c command) <> None \/
     snd (fst (getToolPath c command)) = false).

(** * Helpers to state the properties *)

(** The version with another build part. *)
Definition with_build (v : Version) (build : string) : Version :=
  mkVersion (Major v) (Minor v) (Patch v) (Prerelease v) build.

(** The constraint with another build part in its bound. *)
Definition with_bound_build (c : Constraint) (build : string) : Constraint :=
  mkConstraint (c_Operator c) (with_build (c_Version c) build).

(** [isSatisfiedBy(constraint, version)] on two texts, as the operator
    table of the specification and the tests of the package write it;
    [None] when one of the two does not parse. *)
Definition isSatisfiedBy_text (constraint version : string) : option bool :=
  match ParseConstraint constraint, ParseVersion version with
  | (c, None), (v, None) => Some (IsSatisfiedBy c v)
  | _, _ => None
  end.

(** * Properties of the comparison *)

Section ByteOrder.

Lemma compare_lex_bytes (p q : string) :
  (p ?= q)%string = lex_bytes (bytes_of p) (bytes_of q).
Proof.
  revert q; induction p as [|a p IH]; intros [|b q]; simpl; trivial.
  unfold Ascii.compare. rewrite IH. reflexivity.
Qed.

Lemma lex_bytes_antisym (x y : list N) :
  lex_bytes x y = CompOpp (lex_bytes y x).
Proof.
  revert y; induction x as [|a x IH]; intros [|b y]; simpl; trivial.
  rewrite (N.compare_antisym b a), IH.
  destruct (b ?= a)%N; reflexivity.
Qed.

Lemma lex_bytes_eq (x y : list N) : lex_bytes x y = Eq -> x = y.
Proof.
  revert y; induction x as [|a x IH]; intros [|b y]; simpl;
    try discriminate; trivial.
  destruct (N.compare_spec a b) as [->| |]; try discriminate.
  intros H. f_equal. now apply IH.
Qed.

Lemma lex_bytes_refl (x : list N) : lex_bytes x x = Eq.
Proof.
  induction x as [|a x IH]; simpl; trivial.
  now rewrite N.compare_refl.
Qed.

Lemma lex_bytes_lt_trans (x y z : list N) :
  lex_bytes x y = Lt -> lex_bytes y z = Lt -> lex_bytes x z = Lt.
Proof.
  revert y z; induction x as [|a x IH]; intros [|b y] [|c z]; simpl;
    try discriminate; trivial.
  destruct (N.compare_spec a b) as [->|Hab|Hab]; try discriminate.
  - destruct (b ?= c)%N; try discriminate; trivial. apply IH.
  - intros _. destruct (N.compare_spec b c) as [->|Hbc|Hbc];
      try discriminate; intros _.
    + now apply N.compare_lt_iff in Hab as ->.
    + assert (H : (a < c)%N) by lia.
      now apply N.compare_lt_iff in H as ->.
Qed.

(** [<=] on byte strings is transitive. *)
Lemma lex_bytes_le_trans (x y z : list N) :
  lex_bytes x y <> Gt -> lex_bytes y z <> Gt -> lex_bytes x z <> Gt.
Proof.
  intros Hxy Hyz.
  destruct (lex_bytes x y) eqn:E1; try congruence.
  - apply lex_bytes_eq in E1. now subst.
  - destruct (lex_bytes y z) eqn:E2; try congruence.
    + apply lex_bytes_eq in E2. subst. now rewrite E1.
    + now rewrite (lex_bytes_lt_trans _ _ _ E1 E2).
Qed.

End ByteOrder.

Lemma string_eqb_empty (s : string) :
  (s =? "")%string = match s with EmptyString => true | String _ _ => false end.
Proof. now destruct s. Qed.

Lemma comparePrerelease_rule (p q : string) :
  comparePrerelease p q = sign_of (prerelease_rule p q).
Proof.
  unfold comparePrerelease, prerelease_rule.
  rewrite !string_eqb_empty.
  destruct p as [|a p], q as [|b q]; simpl andb; cbv iota; trivial.
  unfold String.ltb.
  rewrite (String.compare_antisym (String b q) (String a p)).
  rewrite <- compare_lex_bytes.
  now destruct (String a p ?= String b q)%string.
Qed.

Lemma field_decides (x y : Z) (cs : list comparison) :
  (if negb (x =? y) then (if x <? y then -1 else 1)
   else sign_of (first_unequal cs))
  = sign_of (first_unequal ((x ?= y) :: cs)).
Proof.
  simpl. destruct (Z.compare_spec x y) as [->|H|H].
  - now rewrite Z.eqb_refl.
  - assert (E : (x =? y) = false) by (apply Z.eqb_neq; lia).
    assert (L : (x <? y) = true) by (apply Z.ltb_lt; lia).
    now rewrite E, L.
  - assert (E : (x =? y) = false) by (apply Z.eqb_neq; lia).
    assert (L : (x <? y) = false) by (apply Z.ltb_ge; lia).
    now rewrite E, L.
Qed.

Lemma Compare_rule (a b : Version) : Compare a b = compare_rule a b.
Proof.
  unfold Compare, compare_rule.
  rewrite <- !field_decides, comparePrerelease_rule.
  simpl. now destruct (prerelease_rule (Prerelease a) (Prerelease b)).
Qed.

Lemma prerelease_rule_antisym (p q : string) :
  prerelease_rule p q = CompOpp (prerelease_rule q p).
Proof.
  destruct p, q; try reflexivity. apply lex_bytes_antisym.
Qed.

Lemma prerelease_rule_le_trans (p q r : string) :
  prerelease_rule p q <> Gt -> prerelease_rule q r <> Gt ->
  prerelease_rule p r <> Gt.
Proof.
  destruct p as [|a p], q as [|b q], r as [|c r]; cbn [prerelease_rule];
    try congruence.
  apply lex_bytes_le_trans.
Qed.

Lemma sign_of_opp (c : comparison) : sign_of (CompOpp c) = - sign_of c.
Proof. now destruct c. Qed.

Lemma sign_of_le (c : comparison) : sign_of c <= 0 <-> c <> Gt.
Proof. destruct c; simpl; split; intros; try congruence; lia. Qed.

Lemma sign_of_range (c : comparison) :
  sign_of c = -1 \/ sign_of c = 0 \/ sign_of c = 1.
Proof. destruct c; simpl; auto. Qed.

Lemma Compare_antisym (a b : Version) : Compare a b = - Compare b a.
Proof.
  rewrite !Compare_rule. unfold compare_rule. rewrite <- sign_of_opp.
  f_equal. simpl.
  rewrite (Z.compare_antisym (Major a) (Major b)),
    (Z.compare_antisym (Minor a) (Minor b)),
    (Z.compare_antisym (Patch a) (Patch b)),
    (prerelease_rule_antisym (Prerelease b) (Prerelease a)).
  destruct (Major a ?= Major b), (Minor a ?= Minor b), (Patch a ?= Patch b);
    simpl; trivial;
    now destruct (prerelease_rule (Prerelease a) (Prerelease b)).
Qed.

Lemma first_unequal_last (c : comparison) :
  match c with Eq => Eq | _ => c end = c.
Proof. now destruct c. Qed.

(** [Compare a b <= 0] spelled out field by field. *)
Lemma Compare_le (a b : Version) :
  Compare a b <= 0 <->
  Major a < Major b \/
  (Major a = Major b /\
   (Minor a < Minor b \/
    (Minor a = Minor b /\
     (Patch a < Patch b \/
      (Patch a = Patch b /\
       prerelease_rule (Prerelease a) (Prerelease b) <> Gt))))).
Proof.
  rewrite Compare_rule. unfold compare_rule. rewrite sign_of_le.
  cbn [first_unequal]. rewrite first_unequal_last.
  destruct (Z.compare_spec (Major a) (Major b));
    destruct (Z.compare_spec (Minor a) (Minor b));
    destruct (Z.compare_spec (Patch a) (Patch b));
    (split;
     [ intros H';
       first
         [ left; lia
         | right; split; [lia|]; left; lia
         | right; split; [lia|]; right; split; [lia|]; left; lia
         | right; split; [lia|]; right; split; [lia|]; right; split;
           [lia|]; exact H'
         | exfalso; congruence ]
     | intros [?|[? [?|[? [?|[? ?]]]]]];
       first [ assumption | discriminate | exfalso; lia ] ]).
Qed.

Lemma Compare_trans (a b c : Version) :
  Compare a b <= 0 -> Compare b c <= 0 -> Compare a c <= 0.
Proof.
  rewrite !Compare_le.
  intros [?|[? [?|[? [?|[? ?]]]]]] [?|[? [?|[? [?|[? ?]]]]]];
    try (left; lia);
    try (right; split; [lia|]; left; lia);
    try (right; split; [lia|]; right; split; [lia|]; left; lia).
  right; split; [lia|]; right; split; [lia|]; right; split; [lia|].
  eapply prerelease_rule_le_trans; eassumption.
Qed.

Lemma Compare_range (a b : Version) :
  Compare a b = -1 \/ Compare a b = 0 \/ Compare a b = 1.
Proof. rewrite Compare_rule. apply sign_of_range. Qed.

(** C1. [Compare] is the rule of the specification: major, then minor,
    then patch are compared as numbers and the first unequal field
    decides; when the three are equal, a version without prerelease is
    greater than one with a prerelease, two versions without prerelease
    are equal, and two prereleases are ordered as byte strings. *)
Theorem Compare_is_compare_rule :
  forall a b : Version, Compare a b = compare_rule a b.
Proof. exact Compare_rule. Qed.

(** C4. [Compare] is a total order: antisymmetric, transitive, and its
    result is one of -1, 0 and 1. *)
Theorem Compare_total_order :
  forall a b c : Version,
    Compare a b = - Compare b a /\
    (Compare a b <= 0 -> Compare b c <= 0 -> Compare a c <= 0) /\
    (Compare a b = -1 \/ Compare a b = 0 \/ Compare a b = 1).
Proof.
  intros a b c. split; [apply Compare_antisym|].
  split; [apply Compare_trans | apply Compare_range].
Qed.

Lemma Compare_total_order_witness :
  Compare (mkVersion 1 2 3 "alpha" "") (mkVersion 1 2 3 "" "") <= 0 /\
  Compare (mkVersion 1 2 3 "" "") (mkVersion 1 3 0 "" "x") <= 0 /\
  Compare (mkVersion 1 2 3 "alpha" "") (mkVersion 1 3 0 "" "x") <= 0.
Proof.
  assert (H1 : Compare (mkVersion 1 2 3 "alpha" "") (mkVersion 1 2 3 "" "")
               <= 0) by (vm_compute; discriminate).
  assert (H2 : Compare (mkVersion 1 2 3 "" "") (mkVersion 1 3 0 "" "x")
               <= 0) by (vm_compute; discriminate).
  split; [exact H1|]. split; [exact H2|].
  exact (proj1 (proj2 (Compare_total_order _ _ _)) H1 H2).
Defined.

(** * Properties of the satisfaction *)

Lemma Compare_with_build (a b : Version) (x y : string) :
  Compare (with_build a x) (with_build b y) = Compare a b.
Proof. reflexivity. Qed.

(** C8. The build part takes no part in the order or in satisfaction:
    [Compare] and [IsSatisfiedBy] are unchanged when the build of either
    version, or of the bound of the constraint, is replaced. *)
Theorem build_noninterference :
  forall (a b : Version) (c : Constraint) (x y : string),
    Compare (with_build a x) (with_build b y) = Compare a b /\
    IsSatisfiedBy c (with_build a x) = IsSatisfiedBy c a /\
    IsSatisfiedBy (with_bound_build c y) a = IsSatisfiedBy c a /\
    IsSatisfiedBy (with_bound_build c y) (with_build a x)
    = IsSatisfiedBy c a.
Proof.
  intros a b [op bound] x y. split; [apply Compare_with_build|].
  repeat split; destruct op; reflexivity.
Qed.

Ltac by_cases :=
  repeat match goal with
  | |- context [Z.eqb ?x ?y] => destruct (Z.eqb_spec x y)
  | |- context [Z.gtb ?x ?y] =>
      rewrite (Z.gtb_ltb x y); destruct (Z.ltb_spec y x)
  | |- context [Z.geb ?x ?y] =>
      rewrite (Z.geb_leb x y); destruct (Z.leb_spec y x)
  end;
  cbn [negb].

Ltac decide_iff :=
  split; intros;
  repeat match goal with H : _ /\ _ |- _ => destruct H end;
  first [ reflexivity | discriminate | lia
        | repeat split; lia | left; lia | right; lia ].

Lemma caretConstraint_rule (b v : Version) :
  caret_rule b v (caretConstraint (mkConstraint OpCaret b) v).
Proof.
  unfold caret_rule, caretConstraint; cbn [c_Version].
  by_cases; repeat split; intros;
    repeat match goal with
           | H : _ /\ _ |- _ => destruct H
           | H : _ \/ _ |- _ => destruct H
           end;
    first [ reflexivity | discriminate | lia | left; lia | right; lia ].
Qed.

(** C2 does not hold as it is stated: for the bound 0.0.3 the stated
    rule accepts 0.1.3, whose patch number is the bound's, and the code
    rejects it because its minor number is not. *)
Lemma caret_rule_as_stated_fails :
  let b := mkVersion 0 0 3 "" "" in
  let v := mkVersion 0 1 3 "" "" in
  IsSatisfiedBy (mkConstraint OpCaret b) v = false /\
  ~ caret_rule_as_stated b v (IsSatisfiedBy (mkConstraint OpCaret b) v).
Proof.
  split; [reflexivity|].
  intros (_ & H & _).
  destruct (H eq_refl eq_refl eq_refl) as [_ H'].
  discriminate (H' eq_refl).
Qed.

(** C2, amended. A caret constraint with bound [b] is satisfied by [v] as
    follows: never when the major numbers differ; for a bound 0.0.z, when
    the minor and the patch numbers are the bound's; for a bound 0.y.z
    with y not 0, when the minor number is the bound's and the patch
    number at least the bound's; for a bound with a positive major
    number, when the minor number is greater, or equal with a patch
    number at least the bound's. The two examples of the specification
    follow. *)
Theorem caret_satisfaction :
  forall b v : Version,
    caret_rule b v (IsSatisfiedBy (mkConstraint OpCaret b) v) /\
    isSatisfiedBy_text "^0.0.3" "0.0.3" = Some true /\
    isSatisfiedBy_text "^0.0.3" "0.0.4" = Some false.
Proof.
  intros b v. split; [apply caretConstraint_rule|].
  split; vm_compute; reflexivity.
Qed.

Lemma tildeConstraint_rule (b v : Version) :
  tildeConstraint (mkConstraint OpTilde b) v = true <->
  Major v = Major b /\ Minor v = Minor b /\ Patch v >= Patch b.
Proof.
  unfold tildeConstraint; cbn [c_Version]. by_cases; decide_iff.
Qed.

(** C3. A tilde constraint with bound [b] is satisfied by [v] exactly
    when the major and minor numbers of [v] are those of [b] and its
    patch number is at least that of [b]. The constraint [~1] is the
    constraint [~1.0.0]: only versions with minor number 0 satisfy it,
    and 1.1.0, which is between 1.0.0 and 2.0.0, does not. *)
Theorem tilde_satisfaction :
  forall b v : Version,
    (IsSatisfiedBy (mkConstraint OpTilde b) v = true <->
     Major v = Major b /\ Minor v = Minor b /\ Patch v >= Patch b) /\
    ParseConstraint "~1"
    = (mkConstraint OpTilde (mkVersion 1 0 0 "" ""), None) /\
    ParseConstraint "~1" = ParseConstraint "~1.0.0" /\
    (IsSatisfiedBy (fst (ParseConstraint "~1")) v = true -> Minor v = 0) /\
    isSatisfiedBy_text ">=1.0.0" "1.1.0" = Some true /\
    isSatisfiedBy_text "<2.0.0" "1.1.0" = Some true /\
    isSatisfiedBy_text "~1" "1.1.0" = Some false.
Proof.
  intros b v. split; [apply tildeConstraint_rule|].
  assert (E : ParseConstraint "~1"
              = (mkConstraint OpTilde (mkVersion 1 0 0 "" ""), None))
    by (vm_compute; reflexivity).
  split; [exact E|]. split; [vm_compute; reflexivity|].
  split; [|repeat split; vm_compute; reflexivity].
  rewrite E. cbn [fst]. intros H.
  apply (tildeConstraint_rule (mkVersion 1 0 0 "" "") v) in H.
  cbn in H. lia.
Qed.

Lemma tilde_satisfaction_witness :
  IsSatisfiedBy (fst (ParseConstraint "~1")) (mkVersion 1 0 7 "" "") = true /\
  Minor (mkVersion 1 0 7 "" "") = 0.
Proof.
  assert (H : IsSatisfiedBy (fst (ParseConstraint "~1"))
                (mkVersion 1 0 7 "" "") = true) by (vm_compute; reflexivity).
  split; [exact H|].
  exact (proj1 (proj2 (proj2 (proj2
           (tilde_satisfaction (mkVersion 1 0 0 "" "")
              (mkVersion 1 0 7 "" ""))))) H).
Defined.

(** * Strings *)

Lemma append_nil_r (s : string) : (s ++ "")%string = s.
Proof. induction s; simpl; congruence. Qed.

Lemma append_assoc (a b c : string) :
  ((a ++ b) ++ c)%string = (a ++ b ++ c)%string.
Proof. induction a; simpl; congruence. Qed.

Lemma length_append (a b : string) :
  String.length (a ++ b) = (String.length a + String.length b)%nat.
Proof. induction a; simpl; congruence. Qed.

Lemma substring_prefix (w rest : string) :
  substring 0 (String.length w) (w ++ rest) = w.
Proof.
  induction w as [|c w IH]; simpl.
  - now destruct rest.
  - now rewrite IH.
Qed.

Lemma substring_whole (s : string) : substring 0 (String.length s) s = s.
Proof. rewrite <- (append_nil_r s) at 2. apply substring_prefix. Qed.

Lemma all_chars_app (p : ascii -> bool) (a b : string) :
  all_chars p (a ++ b) = all_chars p a && all_chars p b.
Proof.
  induction a as [|c a IH]; simpl; trivial.
  now rewrite IH, andb_assoc.
Qed.

Section Span.

Variable p : ascii -> bool.

Lemma span_append (s : string) :
  s = (fst (span p s) ++ snd (span p s))%string.
Proof.
  induction s as [|c s IH]; simpl; trivial.
  destruct (p c); simpl; trivial.
  destruct (span p s) as [w rest]; simpl in *. congruence.
Qed.

Lemma span_all (s : string) : all_chars p (fst (span p s)) = true.
Proof.
  induction s as [|c s IH]; simpl; trivial.
  destruct (p c) eqn:E; simpl; trivial.
  destruct (span p s) as [w rest]; simpl in *. now rewrite E.
Qed.

Lemma span_stops (s : string) : stops p (snd (span p s)).
Proof.
  induction s as [|c s IH]; simpl; trivial.
  destruct (p c) eqn:E; simpl; trivial.
  now destruct (span p s) as [w rest].
Qed.

Lemma span_nil (s rest : string) :
  span p s = (EmptyString, rest) -> rest = s.
Proof.
  intros H. rewrite (span_append s), H. reflexivity.
Qed.

Lemma span_word (w rest : string) :
  all_chars p w = true -> stops p rest -> span p (w ++ rest) = (w, rest).
Proof.
  intros Hw Hr. induction w as [|c w IH]; simpl in *.
  - destruct rest as [|c rest]; simpl in *; trivial. now rewrite Hr.
  - apply andb_prop in Hw as [Hc Hw]. now rewrite Hc, (IH Hw).
Qed.

End Span.

(** * The search of the pattern *)

Section Backtracking.

Lemma first_sound (r : regex) (c : ascii) :
  first r c = false ->
  forall k, passes r = false \/ fails_on c k ->
  fails_on c (fun pos s caps => rmatch r pos s caps k).
Proof.
  induction r as [| |c'|q|r1 IH1 r2 IH2|r1 IH1 r2 IH2|r1 IH1|n r1 IH1];
    simpl; intros Hf k Hk pos s caps; simpl.
  - destruct Hk as [|Hk]; [discriminate|].
    rewrite Hk. now destruct (Nat.eqb pos 0).
  - reflexivity.
  - now rewrite Hf.
  - now rewrite Hf.
  - apply orb_false_elim in Hf as [H1 H2].
    apply (IH1 H1). destruct (passes r1); [right|now left].
    apply (IH2 H2). exact Hk.
  - apply orb_false_elim in Hf as [H1 H2].
    assert (K1 : passes r1 = false \/ fails_on c k)
      by (destruct Hk as [Hk|]; [apply orb_false_elim in Hk as []|]; auto).
    assert (K2 : passes r2 = false \/ fails_on c k)
      by (destruct Hk as [Hk|]; [apply orb_false_elim in Hk as []|]; auto).
    now rewrite (IH1 H1 k K1), (IH2 H2 k K2).
  - destruct Hk as [|Hk]; [discriminate|].
    now rewrite (IH1 Hf k (or_intror Hk)), Hk.
  - apply (IH1 Hf). destruct Hk as [Hk|Hk]; [now left|right].
    intros pos' s' caps'. apply Hk.
Qed.

Lemma blocks_sound (r : regex) (c : ascii) :
  blocks r c = true ->
  forall k, fails_on c (fun pos s caps => rmatch r pos s caps k).
Proof.
  unfold blocks. intros Hb k.
  apply andb_prop in Hb as [Hf Hp]. apply negb_true_iff in Hf, Hp.
  apply first_sound; auto.
Qed.

(** A greedy class that is followed by nothing of the class takes the
    whole run of the class. *)
Lemma rep1_greedy (p : ascii -> bool) (k : cont) :
  (forall c, p c = true -> fails_on c k) ->
  forall s pos caps,
    rep1 p pos s caps k =
    match span p s with
    | (EmptyString, _) => None
    | (w, rest) => k (pos + String.length w)%nat rest caps
    end.
Proof.
  intros Hk. induction s as [|c s IH]; intros pos caps; simpl; trivial.
  destruct (p c) eqn:Hc; trivial.
  rewrite IH. pose proof (span_all p s) as Hall.
  pose proof (span_append p s) as Happ.
  destruct (span p s) as [[|c' w] rest] eqn:Es; simpl in *.
  - subst s. now rewrite Nat.add_1_r.
  - apply andb_prop in Hall as [Hc' _].
    replace (pos + S (S (String.length w)))%nat
      with (S (pos + S (String.length w))) by lia.
    destruct (k (S (pos + S (String.length w))) rest caps) eqn:Ek; trivial.
    rewrite Happ. now apply Hk.
Qed.

Lemma rmatch_cap_rep1 (n : nat) (p : ascii -> bool) (k : cont) :
  (forall c, p c = true -> fails_on c k) ->
  forall s pos caps,
    rmatch (Cap n (Rep1 p)) pos s caps k =
    match span p s with
    | (EmptyString, _) => None
    | (w, rest) => k (pos + String.length w)%nat rest (list_set n w caps)
    end.
Proof.
  intros Hk s pos caps. simpl.
  rewrite rep1_greedy by (intros c Hc pos' s' caps'; now apply Hk).
  pose proof (span_append p s) as Happ.
  destruct (span p s) as [[|c w] rest]; trivial. simpl in Happ.
  replace (pos + String.length (String c w) - pos)%nat
    with (String.length (String c w)) by lia.
  rewrite Happ.
  change (String c (w ++ rest)) with (String c w ++ rest)%string.
  now rewrite substring_prefix.
Qed.

Lemma rmatch_opt_part (sep : ascii) (n : nat) (p : ascii -> bool)
  (k : cont) :
  (forall c, p c = true -> fails_on c k) ->
  forall s pos caps,
    rmatch (opt_part sep n p) pos s caps k =
    match scan_part sep p s with
    | Some (w, rest) =>
        match k (S pos + String.length w)%nat rest (list_set n w caps) with
        | Some m => Some m
        | None => k pos s caps
        end
    | None => k pos s caps
    end.
Proof.
  intros Hk s pos caps. unfold opt_part, scan_part.
  cbn [rmatch]. destruct s as [|c s]; trivial.
  destruct (Ascii.eqb c sep); trivial.
  change (rep1 p (S pos) s caps ?k') with
    (rmatch (Rep1 p) (S pos) s caps k').
  pose proof (rmatch_cap_rep1 n p k Hk s (S pos) caps) as E.
  cbn [rmatch] in E. cbn [rmatch]. rewrite E.
  now destruct (span p s) as [[|c' w] rest].
Qed.

Lemma scan_part_inv (sep : ascii) (p : ascii -> bool) (s w rest : string) :
  scan_part sep p s = Some (w, rest) ->
  s = String sep (w ++ rest) /\ some_chars p w /\ stops p rest.
Proof.
  unfold scan_part. destruct s as [|c s]; try discriminate.
  destruct (Ascii.eqb_spec c sep) as [->|]; try discriminate.
  pose proof (span_append p s) as Happ.
  pose proof (span_all p s) as Hall.
  pose proof (span_stops p s) as Hstop.
  destruct (span p s) as [[|c' w'] rest']; try discriminate.
  intros [= <- <-]. simpl in *. repeat split; try congruence; assumption.
Qed.

Lemma reads_end : reads Eol scan_end.
Proof.
  intros kf _ pos [|c s] caps; simpl; trivial.
  now rewrite Nat.add_0_r.
Qed.

(** A scanner fails where its pattern is blocked. *)
Lemma reads_blocked (r : regex) (scan : scanner) (c : ascii) :
  reads r scan -> blocks r c = true ->
  forall s caps, scan (String c s) caps = None.
Proof.
  intros Hr Hb s caps.
  assert (Hkf : forall (pos : nat) (s' : string) (caps' : list string),
             (fun _ _ x => Some x) pos s' caps' <> None) by discriminate.
  pose proof (Hr (fun _ _ caps' => Some caps') Hkf 0%nat (String c s) caps)
    as E.
  rewrite (blocks_sound r c Hb) in E.
  now destruct (scan (String c s) caps).
Qed.

Lemma reads_opt (sep : ascii) (n : nat) (p : ascii -> bool) (r : regex)
  (next : scanner) :
  reads r next ->
  (forall c, p c = true -> blocks r c = true) ->
  (forall s w rest caps,
     scan_part sep p s = Some (w, rest) ->
     next rest (list_set n w caps) = None -> next s caps = None) ->
  reads (Cat (opt_part sep n p) r) (scan_opt sep n p next).
Proof.
  intros Hr Hb Hfall kf Hkf pos s caps. cbn [rmatch].
  rewrite rmatch_opt_part
    by (intros c Hc; apply blocks_sound; now apply Hb).
  unfold scan_opt.
  destruct (scan_part sep p s) as [[w rest]|] eqn:Es.
  - rewrite (Hr kf Hkf).
    destruct (scan_part_inv _ _ _ _ _ Es) as (Hs & _ & _).
    destruct (next rest (list_set n w caps)) as [caps'|] eqn:En.
    + replace (S pos + String.length w + String.length rest)%nat
        with (pos + String.length s)%nat
        by (rewrite Hs; simpl; rewrite length_append; lia).
      destruct (kf (pos + String.length s)%nat "" caps') eqn:Ek; trivial.
      now apply Hkf in Ek.
    + now rewrite (Hr kf Hkf), (Hfall _ _ _ _ Es En).
  - apply (Hr kf Hkf).
Qed.

(** When the rest of the pattern is blocked by the separator, nothing is
    found by leaving the optional part out. *)
Lemma blocked_fallback (sep : ascii) (n : nat) (p : ascii -> bool)
  (r : regex) (next : scanner) :
  reads r next -> blocks r sep = true ->
  forall s w rest caps,
    scan_part sep p s = Some (w, rest) ->
    next rest (list_set n w caps) = None -> next s caps = None.
Proof.
  intros Hr Hb s w rest caps Es _.
  destruct (scan_part_inv _ _ _ _ _ Es) as (-> & _ & _).
  now apply (reads_blocked r next sep).
Qed.

Lemma blind_end : blind scan_end.
Proof. intros [|c s] caps caps'; simpl; congruence. Qed.

Lemma blind_opt (sep : ascii) (n : nat) (p : ascii -> bool)
  (next : scanner) :
  blind next -> blind (scan_opt sep n p next).
Proof.
  intros Hn s caps caps'. unfold scan_opt.
  destruct (scan_part sep p s) as [[w rest]|]; apply Hn.
Qed.

Ltac by_bits :=
  let c := fresh "c" in
  intros c; destruct c as [[] [] [] [] [] [] [] []];
  vm_compute; intros H; first [reflexivity | exact H].

Lemma ident_blocks_build : forall c, is_ident_char c = true ->
  blocks build_tail c = true.
Proof. by_bits. Qed.

Lemma digit_blocks_prerelease : forall c, is_digit c = true ->
  blocks prerelease_tail c = true.
Proof. by_bits. Qed.

Lemma digit_blocks_patch : forall c, is_digit c = true ->
  blocks patch_tail c = true.
Proof. by_bits. Qed.

Lemma digit_blocks_minor : forall c, is_digit c = true ->
  blocks minor_tail c = true.
Proof. by_bits. Qed.

Lemma reads_build : reads build_tail scan_build.
Proof.
  apply reads_opt.
  - apply reads_end.
  - reflexivity.
  - apply (blocked_fallback _ _ _ Eol); [apply reads_end | reflexivity].
Qed.

Lemma reads_prerelease : reads prerelease_tail scan_prerelease.
Proof.
  apply reads_opt.
  - apply reads_build.
  - apply ident_blocks_build.
  - apply (blocked_fallback _ _ _ build_tail);
      [apply reads_build | reflexivity].
Qed.

Lemma reads_patch : reads patch_tail scan_patch.
Proof.
  apply reads_opt.
  - apply reads_prerelease.
  - apply digit_blocks_prerelease.
  - apply (blocked_fallback _ _ _ prerelease_tail);
      [apply reads_prerelease | reflexivity].
Qed.

Lemma blind_prerelease : blind scan_prerelease.
Proof. apply blind_opt, blind_opt, blind_end. Qed.

(** The one choice of the pattern that could be made in two ways: a
    second number is read by the group of the minor number, and what
    follows it fails in the same way when the group of the patch number
    reads it instead. *)
Lemma minor_fallback :
  forall s w rest caps,
    scan_part "." is_digit s = Some (w, rest) ->
    scan_patch rest (list_set 2 w caps) = None -> scan_patch s caps = None.
Proof.
  intros s w rest caps Es Hn.
  unfold scan_patch, scan_opt in *. rewrite Es.
  destruct (scan_part "." is_digit rest) as [[w' rest']|] eqn:Er.
  - destruct (scan_part_inv _ _ _ _ _ Er) as (-> & _ & _).
    apply (reads_blocked prerelease_tail);
      [apply reads_prerelease | reflexivity].
  - now apply (blind_prerelease rest (list_set 2 w caps)).
Qed.

Lemma reads_minor : reads minor_tail scan_minor.
Proof.
  apply reads_opt.
  - apply reads_patch.
  - apply digit_blocks_patch.
  - apply minor_fallback.
Qed.

Lemma reads_major : reads major_tail scan_major.
Proof.
  intros kf Hkf pos s caps. unfold major_tail, scan_major.
  cbn [rmatch].
  pose proof (rmatch_cap_rep1 1 is_digit
                (fun pos' s' caps' => rmatch minor_tail pos' s' caps' kf)) as E.
  cbn [rmatch] in E. rewrite E
    by (intros c Hc; apply blocks_sound; now apply digit_blocks_minor).
  pose proof (span_append is_digit s) as Happ.
  destruct (span is_digit s) as [[|c w] rest]; trivial.
  rewrite (reads_minor kf Hkf). simpl in Happ.
  replace (pos + String.length (String c w) + String.length rest)%nat
    with (pos + String.length s)%nat
    by (rewrite Happ; simpl; rewrite length_append; lia).
  reflexivity.
Qed.

Lemma reads_version : reads version_tail scan_version.
Proof.
  intros kf Hkf pos s caps. unfold version_tail, scan_version.
  cbn [rmatch]. destruct s as [|c s]; [apply (reads_major kf Hkf)|].
  destruct (Ascii.eqb_spec c "v") as [->|Hc].
  - rewrite (reads_major kf Hkf).
    destruct (scan_major s caps) as [caps'|] eqn:Es.
    + cbn [String.length]. rewrite Nat.add_succ_r.
      change (S pos + String.length s)%nat with (S (pos + String.length s)).
      destruct (kf (S (pos + String.length s)) "" caps') eqn:Ek; trivial.
    + now apply (blocks_sound major_tail "v").
  - apply (reads_major kf Hkf).
Qed.

End Backtracking.

(** [versionRegex] starts with [^]: it matches at the start or not at
    all. *)
Lemma versionRegex_anchored (s : string) (pos : nat) :
  find_from versionRegex (S pos) s = None.
Proof.
  revert pos; induction s as [|c s IH]; intros pos;
    unfold versionRegex in *; cbn [find_from rmatch Nat.eqb]; trivial.
Qed.

(** What [FindStringSubmatch] returns for [versionRegex]: the input and
    the five groups of the scanner. *)
Lemma FindStringSubmatch_version (s : string) :
  FindStringSubmatch versionRegex s =
  option_map (list_set 0 s)
    (scan_version s (repeat EmptyString 6)).
Proof.
  unfold FindStringSubmatch.
  assert (E : forall kf, rmatch versionRegex 0 s (repeat EmptyString 6) kf
              = rmatch version_tail 0 s (repeat EmptyString 6) kf)
    by reflexivity.
  assert (F : find_from versionRegex 0 s =
              match rmatch versionRegex 0 s (repeat EmptyString 6)
                      (fun pos' _ caps =>
                         Some (list_set 0 (substring 0 (pos' - 0) s) caps))
              with
              | Some m => Some m
              | None => None
              end).
  { destruct s as [|c s]; cbn [find_from]; [reflexivity|].
    now rewrite versionRegex_anchored. }
  rewrite F, E, reads_version by discriminate.
  destruct (scan_version s (repeat EmptyString 6)); trivial.
  cbn [option_map Nat.add]. now rewrite Nat.sub_0_r, substring_whole.
Qed.

(** * Numbers *)

Lemma digit_char (c : ascii) (d : uint) :
  is_digit c = true -> uint_of_char c (Some d) <> None.
Proof.
  destruct c as [[] [] [] [] [] [] [] []]; vm_compute; intros H;
    first [discriminate H | discriminate].
Qed.

Lemma digit_not_sign (c : ascii) :
  is_digit c = true ->
  Ascii.eqb c "+" = false /\ Ascii.eqb c "-" = false /\
  Ascii.eqb c "v" = false.
Proof.
  destruct c as [[] [] [] [] [] [] [] []]; vm_compute; intros H;
    first [discriminate H | repeat split].
Qed.

Lemma uint_of_digits (w : string) :
  all_chars is_digit w = true ->
  exists d, NilEmpty.uint_of_string w = Some d.
Proof.
  induction w as [|c w IH]; simpl; intros H.
  - now exists Nil.
  - apply andb_prop in H as [Hc Hw]. destruct (IH Hw) as [d ->].
    pose proof (digit_char c d Hc).
    destruct (uint_of_char c (Some d)) as [d'|]; [now exists d'|easy].
Qed.

Lemma digits_of_uint (d : uint) :
  all_chars is_digit (NilEmpty.string_of_uint d) = true.
Proof. induction d; simpl; trivial. Qed.

Lemma of_uint_nonneg (d : uint) : 0 <= Z.of_uint d.
Proof. unfold Z.of_uint. apply N2Z.is_nonneg. Qed.

Lemma numeral_value_nonneg (w : string) : 0 <= numeral_value w.
Proof.
  unfold numeral_value.
  destruct (NilEmpty.uint_of_string w); [apply of_uint_nonneg|lia].
Qed.

(** [Atoi] on a numeral: its value, unless it is out of range. *)
Lemma Atoi_numeral (w : string) :
  numeral w ->
  Atoi w = if numeral_value w <=? maxInt then Some (numeral_value w)
           else None.
Proof.
  intros [Hne Hall]. destruct w as [|c w]; [easy|].
  pose proof Hall as Hc. simpl in Hc. apply andb_prop in Hc as [Hc _].
  destruct (digit_not_sign c Hc) as (E1 & E2 & _).
  unfold Atoi. rewrite E1, E2. unfold atoi_digits, numeral_value.
  cbn [NilZero.uint_of_string].
  destruct (uint_of_digits _ Hall) as [d ->].
  assert (L : (minInt <=? Z.of_uint d) = true).
  { apply Z.leb_le. pose proof (of_uint_nonneg d).
    change minInt with (-9223372036854775808). lia. }
  now rewrite L.
Qed.

(** [%d] of a number that is not negative is its numeral. *)
Lemma itoa_numeral (n : Z) :
  0 <= n -> numeral (itoa n) /\ numeral_value (itoa n) = n.
Proof.
  intros Hn. unfold itoa.
  assert (H : exists u, Z.to_int n = Pos u /\ u <> Nil).
  { destruct n as [|q|q]; [| |lia].
    - now exists Decimal.zero.
    - exists (Pos.to_uint q). split; trivial.
      apply Unsigned.to_uint_nonnil. }
  destruct H as (u & E & Hu).
  pose proof (DecimalZ.of_to n) as Hz. rewrite E in *. cbn [Z.of_int] in Hz.
  cbn [NilZero.string_of_int].
  assert (S : NilZero.string_of_uint u = NilEmpty.string_of_uint u)
    by now destruct u.
  rewrite S. repeat split.
  - now destruct u.
  - apply digits_of_uint.
  - unfold numeral_value. now rewrite NilEmpty.usu.
Qed.

(** * The grammar and the scanner *)

Lemma some_chars_head (p : ascii -> bool) (w : string) :
  some_chars p w -> exists c w', w = String c w' /\ p c = true.
Proof.
  intros [Hne Hall]. destruct w as [|c w]; [easy|].
  simpl in Hall. apply andb_prop in Hall as [Hc _]. now exists c, w.
Qed.

Lemma scan_part_word (sep : ascii) (p : ascii -> bool) (w rest : string) :
  some_chars p w -> stops p rest ->
  scan_part sep p (String sep (w ++ rest)) = Some (w, rest).
Proof.
  intros [Hne Hall] Hr. unfold scan_part.
  rewrite Ascii.eqb_refl, (span_word p w rest Hall Hr).
  now destruct w.
Qed.

Lemma scan_opt_present (sep : ascii) (n : nat) (p : ascii -> bool)
  (next : scanner) (w rest : string) (caps : list string) :
  some_chars p w -> stops p rest ->
  scan_opt sep n p next (String sep (w ++ rest)) caps
  = next rest (list_set n w caps).
Proof.
  intros Hw Hr. unfold scan_opt. now rewrite (scan_part_word sep p w rest).
Qed.

Lemma scan_opt_present_end (sep : ascii) (n : nat) (p : ascii -> bool)
  (next : scanner) (w : string) (caps : list string) :
  some_chars p w ->
  scan_opt sep n p next (String sep w) caps
  = next EmptyString (list_set n w caps).
Proof.
  intros Hw. rewrite <- (append_nil_r w) at 1.
  now apply scan_opt_present.
Qed.

Lemma scan_opt_absent (sep : ascii) (n : nat) (p : ascii -> bool)
  (next : scanner) (s : string) (caps : list string) :
  stops (fun c => Ascii.eqb c sep) s ->
  scan_opt sep n p next s caps = next s caps.
Proof.
  intros Hs. unfold scan_opt, scan_part.
  destruct s as [|c s]; trivial. simpl in Hs. now rewrite Hs.
Qed.

Lemma scan_major_word (w rest : string) (caps : list string) :
  numeral w -> stops is_digit rest ->
  scan_major (w ++ rest) caps = scan_minor rest (list_set 1 w caps).
Proof.
  intros [Hne Hall] Hr. unfold scan_major.
  rewrite (span_word is_digit w rest Hall Hr). now destruct w.
Qed.

Lemma scan_version_plain (w rest : string) (caps : list string) :
  numeral w ->
  scan_version (w ++ rest) caps = scan_major (w ++ rest) caps.
Proof.
  intros Hw. destruct (some_chars_head _ _ Hw) as (c & w' & -> & Hc).
  destruct (digit_not_sign c Hc) as (_ & _ & E).
  simpl. now rewrite E.
Qed.

Lemma scan_opt_inv (sep : ascii) (n : nat) (p : ascii -> bool)
  (next : scanner) (s : string) (caps out : list string) :
  scan_opt sep n p next s caps = Some out ->
  (exists w rest,
     s = String sep (w ++ rest) /\ some_chars p w /\ stops p rest /\
     next rest (list_set n w caps) = Some out) \/
  (scan_part sep p s = None /\ next s caps = Some out).
Proof.
  unfold scan_opt. destruct (scan_part sep p s) as [[w rest]|] eqn:Es.
  - intros H. left. exists w, rest.
    destruct (scan_part_inv _ _ _ _ _ Es) as (? & ? & ?). auto.
  - intros H. now right.
Qed.

Lemma scan_end_inv (s : string) (caps out : list string) :
  scan_end s caps = Some out -> s = EmptyString /\ out = caps.
Proof. destruct s; simpl; intros [= <-]; auto. Qed.

Lemma scan_major_inv (s : string) (caps out : list string) :
  scan_major s caps = Some out ->
  exists w rest,
    s = (w ++ rest)%string /\ numeral w /\ stops is_digit rest /\
    scan_minor rest (list_set 1 w caps) = Some out.
Proof.
  unfold scan_major.
  pose proof (span_append is_digit s) as Happ.
  pose proof (span_all is_digit s) as Hall.
  pose proof (span_stops is_digit s) as Hstop.
  destruct (span is_digit s) as [[|c w] rest]; try discriminate.
  intros H. exists (String c w), rest. simpl in *.
  repeat split; try assumption; discriminate.
Qed.

Lemma scan_version_inv (s : string) (caps out : list string) :
  scan_version s caps = Some out ->
  exists (v : bool) (s' : string),
    s = ((if v then "v" else "") ++ s')%string /\
    scan_major s' caps = Some out.
Proof.
  unfold scan_version. destruct s as [|c s].
  - intros H. now exists false, EmptyString.
  - destruct (Ascii.eqb_spec c "v") as [->|_]; intros H.
    + now exists true, s.
    + now exists false, (String c s).
Qed.

(** The groups that the parts of a version string are read into. *)
Lemma scan_text (t : version_text) (c0 : string) :
  in_grammar identifier t ->
  scan_version (text_of t)
    [c0; EmptyString; EmptyString; EmptyString; EmptyString; EmptyString]
  = Some [c0; t_major t; opt_text "" (t_minor t); opt_text "" (t_patch t);
          opt_text "" (t_prerelease t); opt_text "" (t_build t)].
Proof.
  destruct t as [v maj mi pa pre bu]. unfold in_grammar, text_of.
  cbn [t_v t_major t_minor t_patch t_prerelease t_build].
  intros (Hmaj & Hmi & Hpa & Hnest & Hpre & Hbu).
  assert (E : forall rest caps,
             scan_version ((if v then "v" else "") ++ maj ++ rest) caps
             = scan_major (maj ++ rest) caps).
  { intros rest caps. destruct v; cbn [append]; [reflexivity|].
    now apply scan_version_plain. }
  rewrite E. clear E.
  destruct mi as [mi|]; [|rewrite (Hnest eq_refl) in *];
    [destruct pa as [pa|]|]; destruct pre as [pre|]; destruct bu as [bu|];
    simpl in *;
    (rewrite scan_major_word by (trivial; reflexivity));
    unfold scan_minor, scan_patch, scan_prerelease, scan_build;
    repeat first
      [ rewrite scan_opt_present by (trivial; reflexivity)
      | rewrite scan_opt_present_end by trivial
      | rewrite scan_opt_absent by (trivial; reflexivity) ];
    rewrite ?append_nil_r; reflexivity.
Qed.

Section Parts.

Variables (sep : ascii) (p : ascii -> bool).

Lemma read_append (s : string) :
  s = (opt_text (String sep "") (part_read sep p s) ++ rest_read sep p s)
      %string.
Proof.
  unfold part_read, rest_read.
  destruct (scan_part sep p s) as [[w rest]|] eqn:Es; trivial.
  now destruct (scan_part_inv _ _ _ _ _ Es) as (-> & _ & _).
Qed.

Lemma read_holds (s : string) :
  opt_holds (some_chars p) (part_read sep p s).
Proof.
  unfold part_read.
  destruct (scan_part sep p s) as [[w rest]|] eqn:Es; simpl; trivial.
  now destruct (scan_part_inv _ _ _ _ _ Es) as (_ & ? & _).
Qed.

Lemma read_twice (s : string) :
  part_read sep p s = None -> part_read sep p (rest_read sep p s) = None.
Proof.
  unfold part_read, rest_read.
  destruct (scan_part sep p s) as [[w rest]|] eqn:Es; [discriminate|].
  now rewrite Es.
Qed.

Lemma scan_opt_read (n : nat) (next : scanner) (s : string)
  (caps : list string) :
  scan_opt sep n p next s caps =
  next (rest_read sep p s)
    (match part_read sep p s with
     | Some w => list_set n w caps
     | None => caps
     end).
Proof.
  unfold scan_opt, part_read, rest_read.
  now destruct (scan_part sep p s) as [[w rest]|].
Qed.

End Parts.

(** A string that the scanner reads is a version string of the grammar,
    and the groups are its parts. *)
Lemma scan_groups (s c0 : string) (out : list string) :
  scan_version s
    [c0; EmptyString; EmptyString; EmptyString; EmptyString; EmptyString]
  = Some out ->
  exists t : version_text,
    in_grammar identifier t /\ s = text_of t /\
    out = [c0; t_major t; opt_text "" (t_minor t); opt_text "" (t_patch t);
           opt_text "" (t_prerelease t); opt_text "" (t_build t)].
Proof.
  intros H.
  apply scan_version_inv in H as (v & s1 & -> & H).
  apply scan_major_inv in H as (maj & r1 & -> & Hmaj & _ & H).
  unfold scan_minor, scan_patch, scan_prerelease, scan_build in H.
  rewrite !scan_opt_read in H.
  apply scan_end_inv in H as [Hend ->].
  set (r2 := rest_read "." is_digit r1) in *.
  set (r3 := rest_read "." is_digit r2) in *.
  set (r4 := rest_read "-" is_ident_char r3) in *.
  exists (mkText v maj (part_read "." is_digit r1)
            (part_read "." is_digit r2) (part_read "-" is_ident_char r3)
            (part_read "+" is_ident_char r4)).
  split; [|split].
  - unfold in_grammar.
    cbn [t_v t_major t_minor t_patch t_prerelease t_build].
    repeat split; try assumption; try apply read_holds; try apply Hmaj.
    apply read_twice.
  - unfold text_of.
    cbn [t_v t_major t_minor t_patch t_prerelease t_build].
    do 2 f_equal.
    rewrite (read_append "." is_digit r1) at 1. fold r2. f_equal.
    rewrite (read_append "." is_digit r2) at 1. fold r3. f_equal.
    rewrite (read_append "-" is_ident_char r3) at 1. fold r4. f_equal.
    rewrite (read_append "+" is_ident_char r4) at 1.
    now rewrite Hend, append_nil_r.
  - cbn [t_v t_major t_minor t_patch t_prerelease t_build].
    destruct (part_read "." is_digit r1), (part_read "." is_digit r2),
      (part_read "-" is_ident_char r3), (part_read "+" is_ident_char r4);
      reflexivity.
Qed.

(** * [ParseVersion] and the grammar *)

Lemma text_not_empty (t : version_text) :
  numeral (t_major t) -> (text_of t =? "")%string = false.
Proof.
  intros Hm. destruct (some_chars_head _ _ Hm) as (c & w & E & _).
  unfold text_of. rewrite E. now destruct (t_v t).
Qed.

Lemma present_or_empty (x : string) :
  (if negb (x =? "")%string then x else "") = x.
Proof. now destruct x. Qed.

Lemma Atoi_opt (part : option string) :
  opt_holds numeral part ->
  (if negb (opt_text "" part =? "")%string then Atoi (opt_text "" part)
   else Some 0)
  = if opt_value part <=? maxInt then Some (opt_value part) else None.
Proof.
  destruct part as [w|]; simpl; [|reflexivity].
  intros Hw. destruct (some_chars_head _ _ Hw) as (c & w' & -> & _).
  cbn [String.eqb negb]. now apply Atoi_numeral.
Qed.

Lemma fits_int_dec (t : version_text) : {fits_int t} + {~ fits_int t}.
Proof.
  unfold fits_int.
  destruct (Z_le_dec (numeral_value (t_major t)) maxInt);
    destruct (Z_le_dec (opt_value (t_minor t)) maxInt);
    destruct (Z_le_dec (opt_value (t_patch t)) maxInt);
    first [left; now auto | right; intros (? & ? & ?); contradiction].
Qed.

(** What [ParseVersion] returns on a version string of the grammar. *)
Lemma ParseVersion_of_text (t : version_text) :
  in_grammar identifier t ->
  (fits_int t -> ParseVersion (text_of t) = (version_of t, None)) /\
  (~ fits_int t ->
   fst (ParseVersion (text_of t)) = zeroVersion /\
   snd (ParseVersion (text_of t)) <> None).
Proof.
  intros Hg. pose proof Hg as (Hmaj & Hmi & Hpa & _).
  unfold ParseVersion.
  rewrite (text_not_empty t Hmaj), FindStringSubmatch_version.
  change (repeat EmptyString 6) with
    [EmptyString; EmptyString; EmptyString; EmptyString; EmptyString;
     EmptyString].
  rewrite (scan_text t "" Hg). cbn [option_map list_set nth].
  rewrite (Atoi_numeral _ Hmaj), (Atoi_opt _ Hmi), (Atoi_opt _ Hpa),
    !present_or_empty.
  unfold fits_int, version_of.
  destruct (Z.leb_spec (numeral_value (t_major t)) maxInt);
    destruct (Z.leb_spec (opt_value (t_minor t)) maxInt);
    destruct (Z.leb_spec (opt_value (t_patch t)) maxInt);
    (split; [intros (? & ? & ?) | intros Hn]);
    first [ reflexivity | lia
          | split; [reflexivity | discriminate]
          | exfalso; apply Hn; now auto ].
Qed.

Lemma ParseVersion_text (t : version_text) :
  in_grammar identifier t -> fits_int t ->
  ParseVersion (text_of t) = (version_of t, None).
Proof. intros Hg. apply (ParseVersion_of_text t Hg). Qed.

(** A string that is no version string of the grammar is an error. *)
Lemma ParseVersion_no_text (s : string) :
  (forall t, in_grammar identifier t -> s <> text_of t) ->
  fst (ParseVersion s) = zeroVersion /\ snd (ParseVersion s) <> None.
Proof.
  intros Hno. unfold ParseVersion.
  destruct (s =? "")%string; [split; [reflexivity|discriminate]|].
  rewrite FindStringSubmatch_version.
  change (repeat EmptyString 6) with
    [EmptyString; EmptyString; EmptyString; EmptyString; EmptyString;
     EmptyString].
  destruct (scan_version s _) as [out|] eqn:Es;
    [|split; [reflexivity|discriminate]].
  apply scan_groups in Es as (t & Hg & E & _).
  now destruct (Hno t Hg).
Qed.

Lemma ParseVersion_inv (s : string) (v : Version) :
  ParseVersion s = (v, None) ->
  exists t : version_text,
    in_grammar identifier t /\ fits_int t /\ s = text_of t /\
    v = version_of t.
Proof.
  intros H.
  assert (Hs : exists t, in_grammar identifier t /\ s = text_of t).
  { unfold ParseVersion in H.
    destruct (s =? "")%string; [discriminate|].
    rewrite FindStringSubmatch_version in H.
    change (repeat EmptyString 6) with
      [EmptyString; EmptyString; EmptyString; EmptyString; EmptyString;
       EmptyString] in H.
    destruct (scan_version s _) as [out|] eqn:Es; [|discriminate].
    apply scan_groups in Es as (t & Hg & E & _). now exists t. }
  destruct Hs as (t & Hg & ->). exists t.
  destruct (ParseVersion_of_text t Hg) as [Hfit Hunfit].
  destruct (fits_int_dec t) as [F|F].
  - rewrite (Hfit F) in H. injection H as <-. auto.
  - destruct (Hunfit F) as [_ Hne]. now rewrite H in Hne.
Qed.

(** An error comes with the zero Version. *)
Lemma ParseVersion_error (s : string) (e : error) :
  snd (ParseVersion s) = Some e -> fst (ParseVersion s) = zeroVersion.
Proof.
  unfold ParseVersion.
  destruct (s =? "")%string; [reflexivity|].
  destruct (FindStringSubmatch versionRegex s) as [m|]; [|reflexivity].
  destruct (Atoi (nth 1 m "")); [|reflexivity].
  destruct (if negb (nth 2 m "" =? "")%string then _ else _); [|reflexivity].
  destruct (if negb (nth 3 m "" =? "")%string then _ else _); [|reflexivity].
  discriminate.
Qed.

Lemma text_starts_with_digit (t : version_text) :
  numeral (t_major t) -> starts_with_digit (after_v (text_of t)) = true.
Proof.
  intros Hm. destruct (some_chars_head _ _ Hm) as (c & w & E & Hc).
  destruct (digit_not_sign c Hc) as (_ & _ & Ev).
  unfold text_of. rewrite E.
  destruct (t_v t); simpl; [|rewrite Ev; simpl]; exact Hc.
Qed.

(** A major part that is no number is an error. *)
Lemma ParseVersion_no_major (s : string) :
  starts_with_digit (after_v s) = false ->
  fst (ParseVersion s) = zeroVersion /\ snd (ParseVersion s) <> None.
Proof.
  intros H. apply ParseVersion_no_text. intros t (Hm & _) ->.
  now rewrite (text_starts_with_digit t Hm) in H.
Qed.

(** A fourth numeric component is an error. *)
Lemma ParseVersion_four_numbers (v : bool) (a b c d rest : string) :
  numeral a -> numeral b -> numeral c -> numeral d ->
  ParseVersion
    ((if v then "v" else "") ++ a ++ "." ++ b ++ "." ++ c ++ "." ++ d ++ rest)
  = (zeroVersion,
     Some ("invalid version format: "
           ++ (if v then "v" else "") ++ a ++ "." ++ b ++ "." ++ c ++ "."
           ++ d ++ rest)%string).
Proof.
  intros Ha Hb Hc Hd. unfold ParseVersion.
  destruct (some_chars_head _ _ Ha) as (x & a' & Ea & Hx).
  assert (N : ((if v then "v" else "") ++ a ++ "." ++ b ++ "." ++ c ++ "."
               ++ d ++ rest =? "")%string = false)
    by (rewrite Ea; now destruct v).
  rewrite N, FindStringSubmatch_version.
  assert (E : scan_version
                ((if v then "v" else "") ++ a ++ "." ++ b ++ "." ++ c ++ "."
                 ++ d ++ rest) (repeat EmptyString 6) = None).
  { replace (scan_version _ _) with
      (scan_major (a ++ "." ++ b ++ "." ++ c ++ "." ++ d ++ rest)
         (repeat EmptyString 6))
      by (destruct v; cbn [append];
          [reflexivity | symmetry; now apply scan_version_plain]).
    cbn [append].
    rewrite scan_major_word by (trivial; reflexivity).
    unfold scan_minor, scan_patch, scan_prerelease, scan_build.
    rewrite !scan_opt_present by (trivial; reflexivity).
    rewrite !scan_opt_absent by reflexivity.
    reflexivity. }
  now rewrite E.
Qed.

(** * Segments *)

Lemma segment_char_ident (c : ascii) :
  is_segment_char c = true -> is_ident_char c = true.
Proof.
  unfold is_segment_char, is_ident_char. intros ->. reflexivity.
Qed.

Lemma all_chars_weaken (p q : ascii -> bool) (w : string) :
  (forall c, p c = true -> q c = true) ->
  all_chars p w = true -> all_chars q w = true.
Proof.
  intros Hpq. induction w as [|c w IH]; simpl; trivial.
  intros H. apply andb_prop in H as [Hc Hw].
  now rewrite (Hpq c Hc), (IH Hw).
Qed.

Lemma concat_segments (segs : list string) :
  Forall (some_chars is_segment_char) segs ->
  all_chars is_ident_char (String.concat "." segs) = true.
Proof.
  induction 1 as [|g segs [_ Hg] _ IH]; simpl; trivial.
  apply (all_chars_weaken _ _ _ segment_char_ident) in Hg.
  destruct segs as [|g' segs]; trivial.
  rewrite all_chars_app, Hg. exact IH.
Qed.

(** Dot-separated segments are made of the characters of the pattern. *)
Lemma dot_segments_identifier (w : string) :
  dot_segments w -> identifier w.
Proof.
  intros (segs & Hne & Hall & ->). split.
  - destruct Hall as [|g segs [Hg _] _]; [easy|].
    destruct g; [easy|]. now destruct segs.
  - now apply concat_segments.
Qed.

Lemma in_grammar_segments (t : version_text) :
  in_grammar dot_segments t -> in_grammar identifier t.
Proof.
  unfold in_grammar. intros (Hm & Hmi & Hpa & Hn & Hp & Hb).
  do 4 (split; [assumption|]). split; [|assumption].
  destruct (t_prerelease t); simpl in *; trivial.
  now apply dot_segments_identifier.
Qed.

(** A dot alone is not a sequence of segments. *)
Lemma dot_is_no_segments : ~ dot_segments ".".
Proof.
  intros (segs & Hne & Hall & E).
  destruct Hall as [|g segs [Hg Hc] _]; [easy|].
  destruct g as [|c g]; [easy|].
  assert (c = "."%char) by (destruct segs; simpl in E; congruence).
  subst c. discriminate Hc.
Qed.

(** C5 does not hold as it is stated, in either direction. The string
    [1-.] is parsed, with the prerelease part [.], and is no version
    string of the stated grammar: a dot alone is not a sequence of
    segments that are not empty. The string of twenty nines is a version
    string of the stated grammar and is not parsed: the number is out of
    the range of [int]. *)
Lemma ParseVersion_grammar_as_stated_fails :
  (ParseVersion "1-." = (mkVersion 1 0 0 "." "", None) /\
   ~ (exists t, in_grammar dot_segments t /\ "1-." = text_of t)) /\
  ((exists t, in_grammar dot_segments t /\
              "99999999999999999999" = text_of t) /\
   ParseVersion "99999999999999999999"
   = (zeroVersion, Some "invalid major version: 99999999999999999999")).
Proof.
  split; split.
  - vm_compute; reflexivity.
  - intros (t & Hg & E).
    pose proof (scan_text t "" (in_grammar_segments t Hg)) as S.
    rewrite <- E in S.
    assert (C : scan_version "1-." [""; ""; ""; ""; ""; ""]%string
                = Some [""; "1"; ""; ""; "."; ""]%string)
      by (vm_compute; reflexivity).
    rewrite C in S. injection S as _ _ _ Hp _.
    destruct Hg as (_ & _ & _ & _ & Hd & _).
    destruct (t_prerelease t) as [w|]; simpl in *; [|discriminate].
    subst w. exact (dot_is_no_segments Hd).
  - exists (mkText false "99999999999999999999" None None None None).
    split; [|reflexivity].
    unfold in_grammar; simpl. repeat split; try discriminate.
  - vm_compute; reflexivity.
Qed.

(** C5, amended. [ParseVersion] succeeds exactly on the strings
    [["v"] MAJOR ["." MINOR ["." PATCH]] ["-" PRERELEASE] ["+" BUILD]]
    where MAJOR, MINOR and PATCH are one or more ASCII digits whose value
    is in the range of [int], and PRERELEASE and BUILD are one or more
    characters of [[0-9A-Za-z.-]]. It then returns the Version of the
    parts, an absent MINOR or PATCH being 0. Every error comes with the
    zero Version; the empty string, a major part that is no number, a
    fourth numeric component and a leading minus sign are errors. *)
Theorem ParseVersion_grammar :
  forall s : string,
    (snd (ParseVersion s) = None <->
     exists t, in_grammar identifier t /\ fits_int t /\ s = text_of t) /\
    (forall t, in_grammar identifier t -> fits_int t -> s = text_of t ->
               ParseVersion s = (version_of t, None)) /\
    (forall t, (t_minor t = None -> Minor (version_of t) = 0) /\
               (t_patch t = None -> Patch (version_of t) = 0)) /\
    (forall e, snd (ParseVersion s) = Some e ->
               fst (ParseVersion s) = zeroVersion) /\
    ParseVersion "" = (zeroVersion, Some "version string cannot be empty") /\
    (starts_with_digit (after_v s) = false -> snd (ParseVersion s) <> None) /\
    (forall (v : bool) (a b c d rest : string),
        numeral a -> numeral b -> numeral c -> numeral d ->
        s = ((if v then "v" else "")
             ++ a ++ "." ++ b ++ "." ++ c ++ "." ++ d ++ rest)%string ->
        snd (ParseVersion s) <> None) /\
    (forall s', s = String "-" s' -> snd (ParseVersion s) <> None).
Proof.
  intros s. split; [split|].
  - intros H. destruct (ParseVersion s) as [v e] eqn:E. simpl in H. subst e.
    destruct (ParseVersion_inv s v E) as (t & Hg & Hf & Hs & _).
    now exists t.
  - intros (t & Hg & Hf & ->). now rewrite (ParseVersion_text t Hg Hf).
  - split; [intros t Hg Hf ->; now apply ParseVersion_text|].
    split; [intros t; unfold version_of; simpl;
            split; intros ->; reflexivity|].
    split; [apply ParseVersion_error|].
    split; [reflexivity|].
    split; [intros H; now apply ParseVersion_no_major|].
    split.
    + intros v a b c d rest Ha Hb Hc Hd ->.
      now rewrite ParseVersion_four_numbers.
    + intros s' ->. now apply ParseVersion_no_major.
Qed.

Lemma ParseVersion_grammar_witness :
  let t := mkText true "1" (Some "22") None (Some "rc.1") None in
  in_grammar identifier t /\ fits_int t /\
  ParseVersion "v1.22-rc.1" = (mkVersion 1 22 0 "rc.1" "", None).
Proof.
  assert (Hg : in_grammar identifier
                 (mkText true "1" (Some "22") None (Some "rc.1") None))
    by (unfold in_grammar; simpl; repeat split; discriminate).
  assert (Hf : fits_int
                 (mkText true "1" (Some "22") None (Some "rc.1") None))
    by (unfold fits_int; simpl; repeat split; discriminate).
  split; [exact Hg|]. split; [exact Hf|].
  exact (proj1 (proj2 (ParseVersion_grammar "v1.22-rc.1")) _ Hg Hf eq_refl).
Defined.

(** * Rendering and parsing again *)

Lemma Compare_refl (v : Version) : Compare v v = 0.
Proof. pose proof (Compare_antisym v v). lia. Qed.

Lemma Version_String_shape (v : Version) :
  Version_String v =
  (itoa (Major v) ++ "." ++ itoa (Minor v) ++ "." ++ itoa (Patch v)
   ++ (if (Prerelease v =? "")%string then "" else "-" ++ Prerelease v)
   ++ (if (Build v =? "")%string then "" else "+" ++ Build v))%string.
Proof.
  unfold Version_String.
  destruct (Prerelease v =? "")%string, (Build v =? "")%string;
    cbn [negb]; rewrite ?append_assoc; cbn [append];
    rewrite ?append_assoc, ?append_nil_r; reflexivity.
Qed.

(** The text of a Version is the version string of its parts. *)
Lemma Version_String_text (M m p : Z) (pre bu : option string) :
  opt_holds identifier pre -> opt_holds identifier bu ->
  Version_String (mkVersion M m p (opt_text "" pre) (opt_text "" bu))
  = text_of (mkText false (itoa M) (Some (itoa m)) (Some (itoa p)) pre bu).
Proof.
  intros Hpre Hbu. rewrite Version_String_shape. unfold text_of.
  cbn [Major Minor Patch Prerelease Build t_v t_major t_minor t_patch
       t_prerelease t_build opt_text].
  assert (E : forall sep part, opt_holds identifier part ->
              (if (opt_text "" part =? "")%string then ""
               else sep ++ opt_text "" part)%string = opt_text sep part).
  { intros sep [w|] Hw; simpl; trivial.
    destruct (some_chars_head _ _ Hw) as (c & w' & -> & _). reflexivity. }
  rewrite (E "-" pre Hpre), (E "+" bu Hbu).
  cbn [append]. rewrite ?append_assoc. reflexivity.
Qed.

Lemma ParseVersion_String (s : string) (v : Version) :
  ParseVersion s = (v, None) -> ParseVersion (Version_String v) = (v, None).
Proof.
  intros H.
  destruct (ParseVersion_inv s v H) as (t & Hg & Hf & _ & ->).
  destruct Hg as (Hmaj & Hmi & Hpa & Hnest & Hpre & Hbu).
  destruct Hf as (F1 & F2 & F3).
  assert (N2 : 0 <= opt_value (t_minor t))
    by (destruct (t_minor t); [apply numeral_value_nonneg|simpl; lia]).
  assert (N3 : 0 <= opt_value (t_patch t))
    by (destruct (t_patch t); [apply numeral_value_nonneg|simpl; lia]).
  destruct (itoa_numeral _ (numeral_value_nonneg (t_major t))) as [I1 V1].
  destruct (itoa_numeral _ N2) as [I2 V2].
  destruct (itoa_numeral _ N3) as [I3 V3].
  unfold version_of. rewrite (Version_String_text _ _ _ _ _ Hpre Hbu).
  rewrite ParseVersion_text.
  - unfold version_of. simpl. now rewrite V1, V2, V3.
  - unfold in_grammar; simpl.
    split; [exact I1|]. split; [exact I2|]. split; [exact I3|].
    split; [discriminate|]. split; assumption.
  - unfold fits_int; simpl. now rewrite V1, V2, V3.
Qed.

(** C7. The text of a parsed Version, which is [MAJOR.MINOR.PATCH], then
    [-PRERELEASE] if there is one, then [+BUILD] if there is one, is
    parsed again, into a Version that compares equal to the first (and is
    the first). *)
Theorem parse_String_roundtrip :
  forall (s : string) (v : Version),
    ParseVersion s = (v, None) ->
    (exists v', ParseVersion (Version_String v) = (v', None) /\
                Compare v' v = 0 /\ v' = v) /\
    Version_String v =
    (itoa (Major v) ++ "." ++ itoa (Minor v) ++ "." ++ itoa (Patch v)
     ++ (if (Prerelease v =? "")%string then "" else "-" ++ Prerelease v)
     ++ (if (Build v =? "")%string then "" else "+" ++ Build v))%string.
Proof.
  intros s v H. split; [|apply Version_String_shape].
  exists v. split; [now apply (ParseVersion_String s)|].
  split; [apply Compare_refl|reflexivity].
Qed.

Lemma parse_String_roundtrip_witness :
  ParseVersion "v01.2-rc.1+exp.7" = (mkVersion 1 2 0 "rc.1" "exp.7", None) /\
  Version_String (mkVersion 1 2 0 "rc.1" "exp.7") = "1.2.0-rc.1+exp.7" /\
  exists v', ParseVersion (Version_String (mkVersion 1 2 0 "rc.1" "exp.7"))
             = (v', None) /\
             Compare v' (mkVersion 1 2 0 "rc.1" "exp.7") = 0 /\
             v' = mkVersion 1 2 0 "rc.1" "exp.7".
Proof.
  assert (H : ParseVersion "v01.2-rc.1+exp.7"
              = (mkVersion 1 2 0 "rc.1" "exp.7", None))
    by (vm_compute; reflexivity).
  split; [exact H|]. split; [vm_compute; reflexivity|].
  exact (proj1 (parse_String_roundtrip _ _ H)).
Defined.

(** * Lists of constraints *)

Lemma list_set_middle {A : Type} (pre post : list A) (x y : A) :
  list_set (length pre) y (pre ++ x :: post) = (pre ++ y :: post)%list.
Proof. induction pre as [|a pre IH]; simpl; congruence. Qed.

(** The loop on parts that are all parsed: the slice is filled. *)
Lemma parse_parts_filled (parts : list string) (cs : list Constraint) :
  Forall2 parses_to parts cs ->
  forall pre post : list Constraint,
    length post = length parts ->
    parse_parts parts (length pre) (pre ++ post) = ((pre ++ cs)%list, None).
Proof.
  induction 1 as [|part c parts cs Hc _ IH]; intros pre post Hlen.
  - destruct post; [|discriminate]. reflexivity.
  - destruct post as [|x post]; [discriminate|].
    cbn [parse_parts]. rewrite Hc, list_set_middle.
    specialize (IH (pre ++ [c])%list post).
    rewrite length_app, Nat.add_1_r, <- !app_assoc in IH.
    apply IH. simpl in Hlen. lia.
Qed.

(** The loop stops at the first part that is not parsed. *)
Lemma parse_parts_stops (parts : list string) (cs : list Constraint)
  (bad : string) (rest : list string) (c : Constraint) (e : error) :
  Forall2 parses_to parts cs ->
  ParseConstraint bad = (c, Some e) ->
  forall (i : nat) (constraints : list Constraint),
    parse_parts (parts ++ bad :: rest) i constraints
    = ([], Some ("failed to parse constraint '" ++ bad ++ "': " ++ e)%string).
Proof.
  intros Hok Hbad.
  induction Hok as [|part c' parts cs Hc _ IH]; intros i constraints.
  - rewrite app_nil_l. cbn [parse_parts]. now rewrite Hbad.
  - rewrite <- app_comm_cons. cbn [parse_parts]. rewrite Hc. apply IH.
Qed.

(** Either every part is parsed, or there is a first one that is not. *)
Lemma parts_parsed_or_not (parts : list string) :
  (exists cs, Forall2 parses_to parts cs) \/
  (exists ok cs bad rest c e,
     parts = (ok ++ bad :: rest)%list /\ Forall2 parses_to ok cs /\
     ParseConstraint bad = (c, Some e)).
Proof.
  induction parts as [|part parts IH].
  - left. now exists [].
  - destruct (ParseConstraint part) as [c [e|]] eqn:E.
    + right. exists [], [], part, parts, c, e. auto.
    + destruct IH as [(cs & H)|(ok & cs & bad & rest & c' & e & -> & H & Hb)].
      * left. exists (c :: cs). now constructor.
      * right. exists (part :: ok), (c :: cs), bad, rest, c', e.
        repeat split; trivial. now constructor.
Qed.

Lemma ParseConstraints_parts (s : string) :
  s <> EmptyString ->
  ParseConstraints s
  = parse_parts (Fields s) 0 (repeat zeroConstraint (length (Fields s))).
Proof.
  intros Hs. unfold ParseConstraints.
  now destruct s.
Qed.

Lemma ParseConstraints_all (s : string) (cs : list Constraint) :
  s <> EmptyString -> Forall2 parses_to (Fields s) cs ->
  ParseConstraints s = (cs, None).
Proof.
  intros Hs Hok. rewrite (ParseConstraints_parts s Hs).
  apply (parse_parts_filled _ _ Hok []). apply repeat_length.
Qed.

Lemma ParseConstraints_first_error (s : string) (ok : list string)
  (cs : list Constraint) (bad : string) (rest : list string)
  (c : Constraint) (e : error) :
  s <> EmptyString -> Fields s = (ok ++ bad :: rest)%list ->
  Forall2 parses_to ok cs -> ParseConstraint bad = (c, Some e) ->
  ParseConstraints s
  = ([], Some ("failed to parse constraint '" ++ bad ++ "': " ++ e)%string).
Proof.
  intros Hs Hf Hok Hbad. rewrite (ParseConstraints_parts s Hs), Hf.
  now apply (parse_parts_stops _ _ _ _ _ _ Hok Hbad).
Qed.

(** A list is returned only when every part is parsed, and an error
    comes with no list. *)
Lemma ParseConstraints_inv (s : string) :
  (forall cs, ParseConstraints s = (cs, None) ->
              s <> EmptyString /\ Forall2 parses_to (Fields s) cs) /\
  (forall e, snd (ParseConstraints s) = Some e ->
             fst (ParseConstraints s) = []).
Proof.
  destruct (string_dec s EmptyString) as [->|Hs].
  - split; [discriminate|reflexivity].
  - destruct (parts_parsed_or_not (Fields s))
      as [(cs' & H)|(ok & cs' & bad & rest & c & e' & Hf & H & Hb)].
    + rewrite (ParseConstraints_all s cs' Hs H).
      split; [intros cs [= <-]; auto|discriminate].
    + rewrite (ParseConstraints_first_error s _ _ _ _ _ _ Hs Hf H Hb).
      split; [discriminate|reflexivity].
Qed.

Lemma SatisfiesAll_forallb (v : Version) (cs : list Constraint) :
  SatisfiesAll v cs = forallb (fun c => IsSatisfiedBy c v) cs.
Proof.
  induction cs as [|c cs IH]; simpl; trivial.
  rewrite IH. now destruct (IsSatisfiedBy c v).
Qed.

Lemma SatisfiesAll_Forall (v : Version) (cs : list Constraint) :
  SatisfiesAll v cs = true <->
  Forall (fun c => IsSatisfiedBy c v = true) cs.
Proof.
  rewrite SatisfiesAll_forallb, forallb_forall, Forall_forall. reflexivity.
Qed.

Lemma SatisfiesAll_Permutation (v : Version) (cs cs' : list Constraint) :
  Permutation cs cs' -> SatisfiesAll v cs = SatisfiesAll v cs'.
Proof.
  intros Hp.
  destruct (SatisfiesAll v cs) eqn:E, (SatisfiesAll v cs') eqn:E';
    trivial.
  - apply SatisfiesAll_Forall in E.
    rewrite <- E'. symmetry. apply SatisfiesAll_Forall.
    now apply (Permutation_Forall Hp).
  - apply SatisfiesAll_Forall in E'.
    rewrite <- E. apply SatisfiesAll_Forall.
    now apply (Permutation_Forall (Permutation_sym Hp)).
Qed.

(** ** Fields *)

Lemma flush_not_empty (cur : string) :
  Forall (fun part => part <> EmptyString) (flush cur).
Proof.
  unfold flush. destruct (String.eqb_spec cur ""); auto.
Qed.

Lemma fields_not_empty (s : string) :
  forall skip cur,
    Forall (fun part => part <> EmptyString) (fields_from skip cur s).
Proof.
  induction s as [|c s IH]; intros skip cur; cbn [fields_from].
  - apply flush_not_empty.
  - destruct skip; [|apply IH].
    destruct (space_width (String c s)); [apply IH|].
    apply Forall_app. split; [apply flush_not_empty|apply IH].
Qed.

Lemma fields_only_space (s : string) :
  forall skip, only_space_from skip s = true -> fields_from skip "" s = [].
Proof.
  induction s as [|c s IH]; intros skip; cbn [fields_from only_space_from].
  - reflexivity.
  - destruct skip; [|apply IH].
    destruct (space_width (String c s)); [discriminate|].
    intros H. now rewrite (IH _ H).
Qed.

(** A white-space rune that starts a string starts every longer one. *)
Lemma space_width_prefix (a b : string) :
  space_width (a ++ b) = 0%nat -> space_width a = 0%nat.
Proof.
  destruct a as [|c0 [|c1 [|c2 a]]]; trivial; unfold space_width;
    cbn [append];
    repeat match goal with
           | |- context [if ?x then _ else _] => destruct x
           end;
    trivial; try discriminate; destruct b; trivial.
Qed.

Lemma append_last_split (cur a b : string) (x c : ascii) :
  (cur ++ String x "")%string = (a ++ String c b)%string ->
  (a = cur /\ c = x /\ b = EmptyString) \/
  (exists b0, b = (b0 ++ String x "")%string /\
              cur = (a ++ String c b0)%string).
Proof.
  revert cur; induction a as [|z a IH]; intros [|y cur]; simpl; intros E.
  - injection E as -> <-. now left.
  - injection E as -> <-. right. now exists cur.
  - injection E as _ E. now destruct a.
  - injection E as -> E. destruct (IH cur E) as [(-> & -> & ->)|(b0 & -> & ->)].
    + now left.
    + right. now exists b0.
Qed.

Lemma flush_space_free (cur s : string) :
  (forall a c b, cur = (a ++ String c b)%string ->
                 space_width (String c b ++ s) = 0%nat) ->
  Forall space_free (flush cur).
Proof.
  intros Hinv. unfold flush. destruct (cur =? "")%string; constructor; auto.
  intros a c b E. apply (space_width_prefix _ s). now apply (Hinv a).
Qed.

Lemma fields_space_free (s : string) :
  forall skip cur,
    (skip <> 0%nat -> cur = EmptyString) ->
    (forall a c b, cur = (a ++ String c b)%string ->
                   space_width (String c b ++ s) = 0%nat) ->
    Forall space_free (fields_from skip cur s).
Proof.
  induction s as [|x s IH]; intros skip cur Hskip Hinv; cbn [fields_from].
  - now apply (flush_space_free cur "").
  - destruct skip as [|n].
    + destruct (space_width (String x s)) as [|n] eqn:Ex.
      * apply IH; [easy|]. intros a c b E.
        destruct (append_last_split _ _ _ _ _ E)
          as [(-> & -> & ->)|(b0 & -> & ->)].
        -- exact Ex.
        -- specialize (Hinv a c b0 eq_refl).
           change (String c (b0 ++ String x "") ++ s)%string
             with (String c ((b0 ++ String x "") ++ s))%string.
           now rewrite append_assoc.
      * apply Forall_app. split.
        -- now apply (flush_space_free cur (String x s)).
        -- apply IH; [easy|]. intros [|] ? ? [=].
    + rewrite (Hskip (Nat.neq_succ_0 n)) in *.
      apply IH; [easy|]. intros [|] ? ? [=].
Qed.

(** The parts that [Fields] returns are not empty and hold no white
    space. *)
Lemma Fields_parts (s : string) :
  Forall (fun part => part <> EmptyString /\ space_free part) (Fields s).
Proof.
  apply Forall_and.
  - apply fields_not_empty.
  - apply fields_space_free; [easy|]. intros [|] ? ? [=].
Qed.

(** ** Fields and white space *)

Ltac by_tests :=
  repeat match goal with
         | |- context [if ?x then _ else _] => destruct x eqn:?
         end.

Ltac to_props :=
  repeat match goal with
         | H : (_ && _)%bool = true |- _ => apply andb_prop in H as [? ?]
         | H : (_ || _)%bool = true |- _ => apply orb_prop in H as [?|?]
         | H : (_ && _)%bool = false |- _ => apply andb_false_iff in H as [?|?]
         | H : (_ || _)%bool = false |- _ => apply orb_false_elim in H as [? ?]
         | H : (_ =? _)%N = true |- _ => apply N.eqb_eq in H
         | H : (_ =? _)%N = false |- _ => apply N.eqb_neq in H
         | H : (_ <=? _)%N = true |- _ => apply N.leb_le in H
         | H : (_ <=? _)%N = false |- _ => apply N.leb_gt in H
         end.

Lemma space_width_longer (a b : string) (n : nat) :
  space_width a = S n -> space_width (a ++ b) = S n.
Proof.
  destruct a as [|c0 [|c1 [|c2 a]]]; unfold space_width; cbn [append];
    by_tests; trivial; try discriminate; destruct b; trivial; by_tests;
    trivial; discriminate.
Qed.

Lemma space_width_length (s : string) (n : nat) :
  space_width s = S n -> (n < String.length s)%nat.
Proof.
  destruct s as [|c0 [|c1 [|c2 a]]]; unfold space_width;
    by_tests; intros [= <-]; simpl; lia.
Qed.


Ltac goal_to_props :=
  rewrite ?orb_true_iff, ?andb_true_iff, ?orb_false_iff, ?andb_false_iff,
    ?N.eqb_eq, ?N.eqb_neq, ?N.leb_le, ?N.leb_gt.

Lemma space_width_lead (c : ascii) (s : string) :
  space_width (String c s) <> 0%nat -> space_lead c = true.
Proof.
  unfold space_width, space_lead.
  destruct s as [|c1 [|c2 s]]; by_tests; intros H; try easy; to_props;
    goal_to_props; lia.
Qed.

(** No white-space rune starts in a field and ends in what follows it,
    when that is white space. *)
Lemma space_width_context (c : ascii) (a b : string) :
  space_width (String c a) = 0%nat ->
  stops (fun x => negb (space_lead x)) b ->
  space_width (String c a ++ b) = 0%nat.
Proof.
  unfold stops, space_width, space_lead.
  destruct a as [|c1 [|c2 a]], b as [|x [|y b]]; cbn [append];
    trivial; by_tests; trivial; try discriminate; intros _ H;
    apply negb_false_iff in H; to_props; lia.
Qed.

(** White space before the fields is passed. *)
Lemma fields_skip_space (sp s : string) :
  forall n, only_space_from n sp = true -> (n <= String.length sp)%nat ->
            fields_from n "" (sp ++ s) = fields_from 0 "" s.
Proof.
  induction sp as [|x sp IH]; intros n Hsp Hn.
  - simpl in Hn. now replace n with 0%nat by lia.
  - cbn [append fields_from]. cbn [only_space_from] in Hsp.
    destruct n as [|n]; [|apply IH; simpl in Hn; [assumption|lia]].
    destruct (space_width (String x sp)) as [|m] eqn:Ex; [discriminate|].
    change (String x (sp ++ s)) with (String x sp ++ s)%string.
    rewrite (space_width_longer _ s _ Ex). cbn [flush String.eqb app].
    apply IH; [assumption|].
    apply space_width_length in Ex. simpl in Ex. lia.
Qed.

Lemma space_free_tail (c : ascii) (t : string) :
  space_free (String c t) -> space_free t.
Proof. intros H a x b E. apply (H (String c a)). now rewrite E. Qed.

(** A field that white space follows is returned, and the scan goes on
    after the white space. *)
Lemma fields_take_field (sp s : string) :
  sp <> EmptyString -> only_space sp = true ->
  forall t cur,
    space_free t -> (cur ++ t)%string <> EmptyString ->
    fields_from 0 cur (t ++ sp ++ s) = (cur ++ t)%string :: Fields s.
Proof.
  intros Hne Hsp. destruct sp as [|x sp]; [easy|].
  unfold only_space in Hsp. cbn [only_space_from] in Hsp.
  destruct (space_width (String x sp)) as [|m] eqn:Ex; [discriminate|].
  assert (Hlead : space_lead x = true)
    by (apply (space_width_lead x sp); now rewrite Ex).
  induction t as [|c t IH]; intros cur Hfree Hcur.
  - rewrite append_nil_r in Hcur. rewrite append_nil_r.
    cbn [append fields_from].
    change (String x (sp ++ s)) with (String x sp ++ s)%string.
    rewrite (space_width_longer _ s _ Ex).
    unfold flush. destruct (String.eqb_spec cur ""); [contradiction|].
    change ([cur] ++ fields_from m "" (sp ++ s))%list
      with (cur :: fields_from m "" (sp ++ s)).
    f_equal. apply fields_skip_space; [assumption|].
    apply space_width_length in Ex. simpl in Ex. lia.
  - remember (String x sp ++ s)%string as u eqn:Eu.
    cbn [append fields_from].
    change (String c (t ++ u)) with (String c t ++ u)%string.
    rewrite space_width_context;
      [| apply (Hfree EmptyString c t eq_refl)
       | rewrite Eu; simpl; now rewrite Hlead ].
    rewrite IH.
    + now rewrite append_assoc.
    + now apply (space_free_tail c).
    + rewrite append_assoc. cbn [append]. now destruct cur.
Qed.

(** The last field is returned whole. *)
Lemma fields_last_field (t : string) :
  forall cur, space_free t -> fields_from 0 cur t = flush (cur ++ t).
Proof.
  induction t as [|c t IH]; intros cur Hfree; cbn [fields_from].
  - now rewrite append_nil_r.
  - rewrite (Hfree EmptyString c t eq_refl).
    rewrite IH by now apply (space_free_tail c).
    now rewrite append_assoc.
Qed.

(** [Fields] splits at white space: white space in front is dropped, a
    field is returned when white space follows it, and so is the last
    field. *)
Lemma Fields_splits :
  (forall sp s, only_space sp = true -> Fields (sp ++ s) = Fields s) /\
  (forall t sp s,
      t <> EmptyString -> space_free t ->
      sp <> EmptyString -> only_space sp = true ->
      Fields (t ++ sp ++ s) = t :: Fields s) /\
  (forall t, t <> EmptyString -> space_free t -> Fields t = [t]).
Proof.
  split; [|split].
  - intros sp s Hsp. apply fields_skip_space; [assumption|lia].
  - intros t sp s Ht Hfree Hne Hsp.
    now apply (fields_take_field sp s Hne Hsp t "").
  - intros t Ht Hfree. unfold Fields.
    rewrite fields_last_field by assumption. unfold flush. cbn [append].
    now destruct (String.eqb_spec t "").
Qed.

(** C9. [ParseConstraints] rejects the empty string; otherwise it parses
    the fields of its input one by one: when all are parsed it returns
    their constraints in order, and when one is not it returns no list
    and the error of the first such field, with the field named. The
    fields are what runs of white space separate: they are not empty and
    hold no white space, white space in front is dropped, and a field is
    returned when white space or the end of the input follows it.
    [SatisfiesAll] holds exactly when every constraint of the list is
    satisfied, whatever their order. *)
Theorem ParseConstraints_all_or_nothing :
  forall s : string,
    ParseConstraints "" = ([], Some "constraint string cannot be empty") /\
    Forall (fun part => part <> EmptyString /\ space_free part) (Fields s) /\
    (forall sp, only_space sp = true -> Fields (sp ++ s) = Fields s) /\
    (forall t sp,
        t <> EmptyString -> space_free t ->
        sp <> EmptyString -> only_space sp = true ->
        Fields (t ++ sp ++ s) = t :: Fields s) /\
    (s <> EmptyString -> space_free s -> Fields s = [s]) /\
    (forall cs, s <> EmptyString -> Forall2 parses_to (Fields s) cs ->
                ParseConstraints s = (cs, None)) /\
    (forall ok cs bad rest c e,
        s <> EmptyString -> Fields s = (ok ++ bad :: rest)%list ->
        Forall2 parses_to ok cs -> ParseConstraint bad = (c, Some e) ->
        ParseConstraints s
        = ([], Some ("failed to parse constraint '" ++ bad ++ "': " ++ e)
                 %string)) /\
    (forall cs, ParseConstraints s = (cs, None) ->
                s <> EmptyString /\ Forall2 parses_to (Fields s) cs) /\
    (forall e, snd (ParseConstraints s) = Some e ->
               fst (ParseConstraints s) = []) /\
    (forall v cs, SatisfiesAll v cs = true <->
                  Forall (fun c => IsSatisfiedBy c v = true) cs) /\
    (forall v cs cs', Permutation cs cs' ->
                      SatisfiesAll v cs = SatisfiesAll v cs').
Proof.
  intros s. split; [reflexivity|]. split; [apply Fields_parts|].
  split; [intros sp; apply Fields_splits|].
  split; [intros t sp; apply Fields_splits|].
  split; [apply Fields_splits|].
  split; [intros cs Hs H; now apply ParseConstraints_all|].
  split; [intros ok cs bad rest c e Hs Hf H Hb;
          now apply (ParseConstraints_first_error s ok cs bad rest c e)|].
  split; [apply ParseConstraints_inv|].
  split; [apply ParseConstraints_inv|].
  split; [apply SatisfiesAll_Forall|apply SatisfiesAll_Permutation].
Qed.

Lemma ParseConstraints_all_or_nothing_witness :
  let ge := mkConstraint OpGreaterEqual (mkVersion 1 22 0 "" "") in
  let lt := mkConstraint OpLess (mkVersion 1 25 0 "" "") in
  Fields "  >=1.22   <1.25 " = [">=1.22"; "<1.25"]%string /\
  ParseConstraints "  >=1.22   <1.25 " = ([ge; lt], None) /\
  ParseConstraints ">=1.22 <x <y"
  = ([], Some "failed to parse constraint '<x': invalid version in constraint: invalid version format: x") /\
  SatisfiesAll (mkVersion 1 23 0 "" "") [ge; lt]
  = SatisfiesAll (mkVersion 1 23 0 "" "") [lt; ge].
Proof.
  intros ge lt.
  assert (F : Fields "  >=1.22   <1.25 " = [">=1.22"; "<1.25"]%string)
    by (vm_compute; reflexivity).
  assert (P : Forall2 parses_to (Fields "  >=1.22   <1.25 ") [ge; lt])
    by (rewrite F; repeat constructor; vm_compute; reflexivity).
  pose proof (ParseConstraints_all_or_nothing "  >=1.22   <1.25 ")
    as (_ & _ & _ & _ & _ & Hall & _ & _ & _ & _ & Hperm).
  pose proof (ParseConstraints_all_or_nothing ">=1.22 <x <y")
    as (_ & _ & _ & _ & _ & _ & Herr & _).
  split; [exact F|].
  split; [apply Hall; [discriminate|exact P]|].
  split.
  - apply (Herr [">=1.22"%string] [ge] "<x"%string ["<y"%string]
             zeroConstraint
             "invalid version in constraint: invalid version format: x"%string);
      [discriminate | vm_compute; reflexivity
      | repeat constructor; vm_compute; reflexivity
      | vm_compute; reflexivity].
  - apply Hperm. apply perm_swap.
Defined.

(** C10. An input that is not empty and is made of white space only has
    no fields: [ParseConstraints] returns the empty list and no error,
    and [SatisfiesAll] is true of every Version and that list. *)
Theorem ParseConstraints_only_space :
  forall s : string,
    s <> EmptyString -> only_space s = true ->
    ParseConstraints s = ([], None) /\
    forall v : Version, SatisfiesAll v (fst (ParseConstraints s)) = true.
Proof.
  intros s Hs Hsp.
  assert (E : ParseConstraints s = ([], None)).
  { rewrite (ParseConstraints_parts s Hs). unfold Fields.
    now rewrite (fields_only_space s 0 Hsp). }
  split; [exact E|]. intros v. now rewrite E.
Qed.

Lemma ParseConstraints_only_space_witness :
  ParseConstraints " " = ([], None) /\
  SatisfiesAll (mkVersion 0 0 1 "" "") (fst (ParseConstraints " ")) = true.
Proof.
  assert (Hs : " "%string <> EmptyString) by discriminate.
  assert (Hsp : only_space " " = true) by reflexivity.
  split.
  - exact (proj1 (ParseConstraints_only_space " " Hs Hsp)).
  - exact (proj2 (ParseConstraints_only_space " " Hs Hsp)
             (mkVersion 0 0 1 "" "")).
Defined.

(** * [ParseConstraint] and the operators *)

Lemma constraintRegex_anchored (s : string) (pos : nat) :
  find_from constraintRegex (S pos) s = None.
Proof.
  revert pos; induction s as [|c s IH]; intros pos;
    unfold constraintRegex in *; cbn [find_from rmatch Nat.eqb]; trivial.
Qed.

Lemma rest_ok_span (s : string) :
  rest_ok s =
  match span is_not_newline s with
  | (String _ _, EmptyString) => true
  | _ => false
  end.
Proof.
  unfold rest_ok.
  pose proof (span_append is_not_newline s) as Happ.
  pose proof (span_all is_not_newline s) as Hall.
  pose proof (span_stops is_not_newline s) as Hstop.
  destruct (span is_not_newline s) as [w rest]; simpl in *. subst s.
  rewrite all_chars_app, Hall.
  destruct w as [|c w], rest as [|x rest]; simpl in *; trivial.
  all: now rewrite Hstop.
Qed.

(** [(.+)$] takes an acceptable rest whole. *)
Lemma rmatch_constraint_tail (kf : cont) (pos : nat) (s : string)
  (caps : list string) :
  rmatch constraint_tail pos s caps kf =
  if rest_ok s
  then kf (pos + String.length s)%nat EmptyString (list_set 2 s caps)
  else None.
Proof.
  unfold constraint_tail. cbn [rmatch].
  pose proof (rmatch_cap_rep1 2 is_not_newline
                (fun pos' s' caps' => rmatch Eol pos' s' caps' kf)) as E.
  cbn [rmatch] in E. rewrite E by (intros c _ pos' s' caps'; reflexivity).
  rewrite rest_ok_span.
  pose proof (span_append is_not_newline s) as Happ.
  destruct (span is_not_newline s) as [[|c w] [|x rest]]; trivial.
  simpl in Happ. rewrite append_nil_r in Happ. now subst s.
Qed.

Lemma substring_zero (s : string) : substring 0 0 s = EmptyString.
Proof. now destruct s. Qed.

Ltac by_results :=
  rewrite ?substring_zero;
  repeat match goal with
         | |- context [rmatch ?r ?pos ?s ?caps ?k] =>
             destruct (rmatch r pos s caps k)
         end;
  reflexivity.

Lemma rmatch_operator (r : regex) (kf : cont) (s : string)
  (caps : list string) :
  rmatch (Cat (Opt (Cap 1 operator_alternatives)) r) 0 s caps kf =
  let tail op rest :=
    rmatch r (String.length op) rest (list_set 1 op caps) kf in
  or_else (lit2 ">" "=" s (tail ">="))
  (or_else (lit2 "<" "=" s (tail "<="))
  (or_else (lit1 ">" s (tail ">"))
  (or_else (lit1 "<" s (tail "<"))
  (or_else (lit1 "~" s (tail "~"))
  (or_else (lit1 "^" s (tail "^"))
  (or_else (lit2 "!" "=" s (tail "!="))
           (rmatch r 0 s caps kf))))))).
Proof.
  unfold operator_alternatives, lit2, lit1, or_else.
  destruct s as [|c0 [|c1 s2]]; cbn [rmatch]; trivial.
  all: destruct (Ascii.eqb_spec c0 ">") as [->|];
    [try (destruct (Ascii.eqb_spec c1 "=") as [->|]); cbn; by_results|].
  all: destruct (Ascii.eqb_spec c0 "<") as [->|];
    [try (destruct (Ascii.eqb_spec c1 "=") as [->|]); cbn; by_results|].
  all: destruct (Ascii.eqb_spec c0 "~") as [->|]; [cbn; by_results|].
  all: destruct (Ascii.eqb_spec c0 "^") as [->|]; [cbn; by_results|].
  all: destruct (Ascii.eqb_spec c0 "!") as [->|];
    [try (destruct (Ascii.eqb_spec c1 "=") as [->|]); cbn; by_results|].
  all: cbn; by_results.
Qed.

(** What [FindStringSubmatch] returns for [constraintRegex]: the input,
    the operator and the version text. *)
Lemma FindStringSubmatch_constraint (s : string) :
  FindStringSubmatch constraintRegex s =
  match split_operator s with
  | Some (op, vs) => Some [s; op; vs]
  | None => None
  end.
Proof.
  unfold FindStringSubmatch.
  assert (E : forall kf, rmatch constraintRegex 0 s (repeat EmptyString 3) kf
              = rmatch (Cat (Opt (Cap 1 operator_alternatives))
                          constraint_tail) 0 s (repeat EmptyString 3) kf)
    by reflexivity.
  assert (F : find_from constraintRegex 0 s =
              match rmatch constraintRegex 0 s (repeat EmptyString 3)
                      (fun pos' _ caps =>
                         Some (list_set 0 (substring 0 (pos' - 0) s) caps))
              with
              | Some m => Some m
              | None => None
              end).
  { destruct s as [|c s]; cbn [find_from]; [reflexivity|].
    now rewrite constraintRegex_anchored. }
  rewrite F, E, rmatch_operator. clear E F.
  unfold split_operator, lit2, lit1, or_else, with_operator.
  cbv zeta.
  destruct s as [|c0 [|c1 s2]]; rewrite ?rmatch_constraint_tail;
    repeat match goal with
           | |- context [Ascii.eqb ?a ?b] =>
               destruct (Ascii.eqb_spec a b); subst
           | |- context [rest_ok ?x] => destruct (rest_ok x)
           end;
    cbn; rewrite ?substring_whole; reflexivity.
Qed.

Lemma ParseConstraint_split (s : string) :
  s <> EmptyString ->
  ParseConstraint s =
  match split_operator s with
  | None =>
      (zeroConstraint, Some ("invalid constraint format: " ++ s)%string)
  | Some (op, vs) =>
      match operator_of op with
      | None => (zeroConstraint, Some ("unknown operator: " ++ op)%string)
      | Some operator =>
          match ParseVersion vs with
          | (_, Some e) =>
              (zeroConstraint,
               Some ("invalid version in constraint: " ++ e)%string)
          | (version, None) => (mkConstraint operator version, None)
          end
      end
  end.
Proof.
  intros Hs. unfold ParseConstraint.
  destruct (String.eqb_spec s ""); [contradiction|].
  rewrite FindStringSubmatch_constraint.
  destruct (split_operator s) as [[op vs]|]; reflexivity.
Qed.

(** The operators that [constraintRegex] finds: the equals sign is none
    of them. *)
Lemma split_operator_found (s op vs : string) :
  split_operator s = Some (op, vs) ->
  In op [">="; "<="; ">"; "<"; "~"; "^"; "!="; ""]%string /\
  s = (op ++ vs)%string /\ rest_ok vs = true.
Proof.
  unfold split_operator, lit2, lit1, or_else, with_operator.
  destruct s as [|c0 [|c1 s2]];
    repeat match goal with
           | |- ?premise -> _ =>
               match premise with
               | context [Ascii.eqb ?a ?b] =>
                   destruct (Ascii.eqb_spec a b); subst
               | context [rest_ok ?x] => destruct (rest_ok x) eqn:?
               end
           end;
    intros [= <- <-]; try congruence; simpl; auto 12.
Qed.

Lemma ParseVersion_equals_sign (rest : string) :
  ParseVersion (String "=" rest)
  = (zeroVersion,
     Some ("invalid version format: " ++ String "=" rest)%string).
Proof.
  unfold ParseVersion. now rewrite FindStringSubmatch_version.
Qed.

(** An input that starts with the equals sign is never parsed. *)
Lemma ParseConstraint_equals_sign (rest : string) :
  ParseConstraint (String "=" rest) =
  (zeroConstraint,
   Some (if rest_ok (String "=" rest)
         then "invalid version in constraint: invalid version format: "
              ++ String "=" rest
         else "invalid constraint format: " ++ String "=" rest)%string).
Proof.
  rewrite ParseConstraint_split by discriminate.
  change (split_operator (String "=" rest))
    with (with_operator "" (String "=" rest)).
  unfold with_operator.
  destruct (rest_ok (String "=" rest)); trivial.
  cbn [operator_of String.eqb Ascii.eqb Bool.eqb orb].
  now rewrite ParseVersion_equals_sign.
Qed.

Lemma ident_not_newline (c : ascii) :
  is_ident_char c = true -> is_not_newline c = true.
Proof.
  destruct c as [[] [] [] [] [] [] [] []]; vm_compute; intros H;
    first [reflexivity | exact H].
Qed.

Lemma digit_ident (c : ascii) : is_digit c = true -> is_ident_char c = true.
Proof. unfold is_digit, is_ident_char. now intros ->. Qed.

Lemma digit_not_operator (c : ascii) :
  is_digit c = true \/ c = "v"%char ->
  Ascii.eqb c ">" = false /\ Ascii.eqb c "<" = false /\
  Ascii.eqb c "~" = false /\ Ascii.eqb c "^" = false /\
  Ascii.eqb c "!" = false /\ Ascii.eqb c "=" = false.
Proof.
  intros [H| ->]; [|repeat split]. revert H.
  destruct c as [[] [] [] [] [] [] [] []]; vm_compute; intros H;
    first [discriminate H | repeat split].
Qed.

Lemma opt_text_chars (sep : ascii) (q : ascii -> bool) (part : option string) :
  opt_holds (some_chars q) part ->
  (forall c, q c = true -> is_not_newline c = true) ->
  is_not_newline sep = true ->
  all_chars is_not_newline (opt_text (String sep "") part) = true.
Proof.
  intros Hp Hq Hsep. destruct part as [w|]; simpl; trivial.
  rewrite Hsep. destruct Hp as [_ Hw].
  now apply (all_chars_weaken q).
Qed.

(** A version string is an acceptable rest, and starts with no
    operator. *)
Lemma version_text_rest (t : version_text) :
  in_grammar identifier t ->
  rest_ok (text_of t) = true /\
  exists c w, text_of t = String c w /\ (is_digit c = true \/ c = "v"%char).
Proof.
  intros (Hmaj & Hmi & Hpa & _ & Hpre & Hbu). split.
  - unfold rest_ok. rewrite (text_not_empty t Hmaj). cbn [negb andb].
    unfold text_of. rewrite !all_chars_app.
    assert (D : forall c, is_digit c = true -> is_not_newline c = true)
      by (intros c Hc; now apply ident_not_newline, digit_ident).
    rewrite (all_chars_weaken _ _ _ D (proj2 Hmaj)).
    rewrite (opt_text_chars "." _ _ Hmi D eq_refl).
    rewrite (opt_text_chars "." _ _ Hpa D eq_refl).
    rewrite (opt_text_chars "-" _ _ Hpre ident_not_newline eq_refl).
    rewrite (opt_text_chars "+" _ _ Hbu ident_not_newline eq_refl).
    now destruct (t_v t).
  - destruct (some_chars_head _ _ Hmaj) as (c & w & E & Hc).
    unfold text_of. rewrite E. destruct (t_v t); cbn [append]; eauto.
Qed.

(** Every operator of the pattern in front of a version string, and no
    operator, give the constraint of that operator and version. *)
Lemma ParseConstraint_operators (vs : string) (v : Version) :
  ParseVersion vs = (v, None) ->
  ParseConstraint vs = (mkConstraint OpEqual v, None) /\
  ParseConstraint (">=" ++ vs) = (mkConstraint OpGreaterEqual v, None) /\
  ParseConstraint ("<=" ++ vs) = (mkConstraint OpLessEqual v, None) /\
  ParseConstraint (">" ++ vs) = (mkConstraint OpGreater v, None) /\
  ParseConstraint ("<" ++ vs) = (mkConstraint OpLess v, None) /\
  ParseConstraint ("~" ++ vs) = (mkConstraint OpTilde v, None) /\
  ParseConstraint ("^" ++ vs) = (mkConstraint OpCaret v, None) /\
  ParseConstraint ("!=" ++ vs) = (mkConstraint OpNotEqual v, None).
Proof.
  intros H.
  destruct (ParseVersion_inv vs v H) as (t & Hg & _ & E & _).
  destruct (version_text_rest t Hg) as (Hok & c & w & Ec & Hc).
  rewrite <- E in *. clear E. subst vs.
  destruct (digit_not_operator c Hc) as (E1 & E2 & E3 & E4 & E5 & E6).
  repeat split; rewrite ParseConstraint_split by discriminate;
    unfold split_operator, lit2, lit1, or_else, with_operator;
    cbn [append Ascii.eqb Bool.eqb];
    rewrite ?E1, ?E2, ?E3, ?E4, ?E5, ?E6, ?Hok;
    cbn [operator_of String.eqb Ascii.eqb Bool.eqb orb andb];
    now rewrite H.
Qed.

(** The error of the version text is carried by the error of the
    constraint. *)
Lemma ParseConstraint_version_error (s op vs : string) (v : Version)
  (e : error) :
  split_operator s = Some (op, vs) -> ParseVersion vs = (v, Some e) ->
  ParseConstraint s
  = (zeroConstraint, Some ("invalid version in constraint: " ++ e)%string).
Proof.
  intros Hs He.
  assert (Hne : s <> EmptyString) by (intros ->; discriminate Hs).
  rewrite (ParseConstraint_split s Hne), Hs.
  destruct (split_operator_found s op vs Hs) as (Hop & _).
  simpl in Hop.
  destruct Hop as [<-|[<-|[<-|[<-|[<-|[<-|[<-|[<-|[]]]]]]]]];
    cbn [operator_of String.eqb Ascii.eqb Bool.eqb orb andb];
    now rewrite He.
Qed.

(** C6, on the equals sign. [ParseConstraint] does not take a leading
    equals sign as an operator: the input [=1.2.3] is an error although
    [1.2.3] is parsed and the switch on the operator text has a branch
    for the equals sign; no input that starts with the equals sign is
    parsed, and the equals sign is never the operator text that the
    pattern finds. *)
Theorem ParseConstraint_equals_sign_rejected :
  ParseConstraint "=1.2.3"
  = (zeroConstraint,
     Some "invalid version in constraint: invalid version format: =1.2.3") /\
  ParseConstraint "1.2.3"
  = (mkConstraint OpEqual (mkVersion 1 2 3 "" ""), None) /\
  operator_of "=" = Some OpEqual /\
  (forall rest, snd (ParseConstraint (String "=" rest)) <> None) /\
  (forall s op vs, split_operator s = Some (op, vs) -> op <> "="%string).
Proof.
  split; [vm_compute; reflexivity|].
  split; [vm_compute; reflexivity|].
  split; [reflexivity|].
  split.
  - intros rest. now rewrite ParseConstraint_equals_sign.
  - intros s op vs H.
    destruct (split_operator_found s op vs H) as (Hop & _).
    simpl in Hop.
    destruct Hop as [<-|[<-|[<-|[<-|[<-|[<-|[<-|[<-|[]]]]]]]]]; discriminate.
Qed.

(** * Constraints as text *)

(** A parsed constraint is an operator of the pattern and a parsed
    version. *)
Lemma ParseConstraint_inv (s : string) (c : Constraint) :
  ParseConstraint s = (c, None) ->
  exists op vs,
    split_operator s = Some (op, vs) /\
    operator_of op = Some (c_Operator c) /\
    ParseVersion vs = (c_Version c, None).
Proof.
  intros H.
  assert (Hs : s <> EmptyString) by (intros ->; discriminate H).
  rewrite (ParseConstraint_split s Hs) in H.
  destruct (split_operator s) as [[op vs]|]; [|discriminate].
  exists op, vs. split; [reflexivity|].
  destruct (operator_of op) as [operator|]; [|discriminate].
  destruct (ParseVersion vs) as [v [e|]]; [discriminate|].
  injection H as <-. auto.
Qed.

Lemma operator_of_token (op : string) (operator : Operator) :
  In op [">="; "<="; ">"; "<"; "~"; "^"; "!="; ""]%string ->
  operator_of op = Some operator -> op = operator_token operator.
Proof.
  simpl.
  intros [<-|[<-|[<-|[<-|[<-|[<-|[<-|[<-|[]]]]]]]]] [= <-]; reflexivity.
Qed.

Lemma ParseConstraint_token (operator : Operator) (vs : string)
  (v : Version) :
  ParseVersion vs = (v, None) ->
  ParseConstraint (operator_token operator ++ vs)
  = (mkConstraint operator v, None).
Proof.
  intros H.
  destruct (ParseConstraint_operators vs v H)
    as (H0 & H1 & H2 & H3 & H4 & H5 & H6 & H7).
  destruct operator; assumption.
Qed.

(** The text of a constraint is its operator token and the text of its
    version. *)
Lemma Constraint_String_token (c : Constraint) :
  Constraint_String c
  = (operator_token (c_Operator c) ++ Version_String (c_Version c))%string.
Proof. unfold Constraint_String. now destruct (c_Operator c). Qed.

(** X1. The text of a parsed constraint is parsed again, into the same
    constraint. *)
Theorem Constraint_String_roundtrip :
  forall (s : string) (c : Constraint),
    ParseConstraint s = (c, None) ->
    ParseConstraint (Constraint_String c) = (c, None).
Proof.
  intros s c H.
  destruct (ParseConstraint_inv s c H) as (op & vs & _ & _ & Hv).
  rewrite Constraint_String_token.
  rewrite (ParseConstraint_token _ _ _ (ParseVersion_String vs _ Hv)).
  now destruct c.
Qed.

Lemma Constraint_String_roundtrip_witness :
  ParseConstraint ">=v1.22-rc.1"
  = (mkConstraint OpGreaterEqual (mkVersion 1 22 0 "rc.1" ""), None) /\
  Constraint_String (mkConstraint OpGreaterEqual (mkVersion 1 22 0 "rc.1" ""))
  = ">=1.22.0-rc.1"%string /\
  ParseConstraint
    (Constraint_String
       (mkConstraint OpGreaterEqual (mkVersion 1 22 0 "rc.1" "")))
  = (mkConstraint OpGreaterEqual (mkVersion 1 22 0 "rc.1" ""), None).
Proof.
  assert (H : ParseConstraint ">=v1.22-rc.1"
              = (mkConstraint OpGreaterEqual (mkVersion 1 22 0 "rc.1" ""),
                 None)) by (vm_compute; reflexivity).
  split; [exact H|]. split; [vm_compute; reflexivity|].
  exact (Constraint_String_roundtrip _ _ H).
Defined.

(** X2. [ParseConstraint] succeeds exactly on an operator token, which
    is one of the seven of the pattern or nothing for [OpEqual],
    followed by a version string that [ParseVersion] accepts; the
    constraint is then that operator with that version. *)
Theorem ParseConstraint_grammar :
  forall (s : string) (c : Constraint),
    ParseConstraint s = (c, None) <->
    exists t : version_text,
      in_grammar identifier t /\ fits_int t /\
      s = (operator_token (c_Operator c) ++ text_of t)%string /\
      c_Version c = version_of t.
Proof.
  intros s c. split.
  - intros H.
    destruct (ParseConstraint_inv s c H) as (op & vs & Hs & Hop & Hv).
    destruct (split_operator_found s op vs Hs) as (Hin & -> & _).
    destruct (ParseVersion_inv vs _ Hv) as (t & Hg & Hf & -> & Ev).
    exists t. split; [exact Hg|]. split; [exact Hf|]. split; [|exact Ev].
    now rewrite (operator_of_token op _ Hin Hop).
  - intros (t & Hg & Hf & -> & Ev).
    rewrite (ParseConstraint_token _ _ _ (ParseVersion_text t Hg Hf)).
    rewrite <- Ev. now destruct c.
Qed.

(** * The errors of the parsers *)

Lemma rest_ok_append (op vs : string) :
  all_chars is_not_newline op = true -> rest_ok vs = true ->
  rest_ok (op ++ vs) = true.
Proof.
  unfold rest_ok. intros Hop Hvs.
  apply andb_prop in Hvs as [Hne Hall].
  rewrite all_chars_app, Hop, Hall.
  destruct op; cbn [append]; [now rewrite Hne|reflexivity].
Qed.

Lemma split_operator_rest_ok (s op vs : string) :
  split_operator s = Some (op, vs) -> rest_ok s = true.
Proof.
  intros H. destruct (split_operator_found s op vs H) as (Hop & -> & Hvs).
  apply rest_ok_append; [|exact Hvs]. simpl in Hop.
  destruct Hop as [<-|[<-|[<-|[<-|[<-|[<-|[<-|[<-|[]]]]]]]]]; reflexivity.
Qed.

(** The pattern finds nothing exactly in the empty input and in an input
    with a line feed. *)
Lemma split_operator_none (s : string) :
  split_operator s = None <-> rest_ok s = false.
Proof.
  split.
  - unfold split_operator, or_else, with_operator.
    repeat match goal with
           | |- context [match ?x with Some _ => _ | None => _ end] =>
               destruct x; [discriminate|]
           end.
    now destruct (rest_ok s).
  - intros H. destruct (split_operator s) as [[op vs]|] eqn:E; trivial.
    apply split_operator_rest_ok in E. congruence.
Qed.

(** X3. The errors of [ParseConstraint]: the empty input; an input with
    a line feed, which the pattern does not match; otherwise the error
    of [ParseVersion] on what follows the operator, with a prefix. Each
    comes with the zero Constraint, and the error of the switch, "unknown
    operator", is never returned. *)
Theorem ParseConstraint_errors :
  forall (s : string) (c : Constraint) (e : error),
    ParseConstraint s = (c, Some e) ->
    c = zeroConstraint /\
    (forall x, e <> ("unknown operator: " ++ x)%string) /\
    ((s = EmptyString /\ e = "constraint string cannot be empty"%string) \/
     (s <> EmptyString /\ all_chars is_not_newline s = false /\
      e = ("invalid constraint format: " ++ s)%string) \/
     (exists op vs v e',
        all_chars is_not_newline s = true /\ s = (op ++ vs)%string /\
        In op [">="; "<="; ">"; "<"; "~"; "^"; "!="; ""]%string /\
        ParseVersion vs = (v, Some e') /\
        e = ("invalid version in constraint: " ++ e')%string)).
Proof.
  intros s c e H.
  destruct (string_dec s EmptyString) as [->|Hs].
  - injection H as <- <-. split; [reflexivity|].
    split; [intros x E; discriminate E|]. now left.
  - rewrite (ParseConstraint_split s Hs) in H.
    destruct (split_operator s) as [[op vs]|] eqn:E.
    + destruct (split_operator_found s op vs E) as (Hop & Happ & _).
      pose proof (split_operator_rest_ok s op vs E) as Hok.
      assert (Ho : exists operator, operator_of op = Some operator).
      { simpl in Hop.
        destruct Hop as [<-|[<-|[<-|[<-|[<-|[<-|[<-|[<-|[]]]]]]]]];
          eexists; reflexivity. }
      destruct Ho as [operator Ho]. rewrite Ho in H.
      destruct (ParseVersion vs) as [v [e'|]] eqn:Ev; [|discriminate].
      injection H as <- <-. split; [reflexivity|].
      split; [intros x Ex; discriminate Ex|].
      right; right. exists op, vs, v, e'.
      unfold rest_ok in Hok. apply andb_prop in Hok as [_ Hall]. auto.
    + injection H as <- <-. split; [reflexivity|].
      split; [intros x Ex; discriminate Ex|].
      right; left. apply split_operator_none in E. unfold rest_ok in E.
      destruct (String.eqb_spec s ""); [contradiction|]. auto.
Qed.

Lemma ParseConstraint_errors_witness :
  ParseConstraint ">=1.x"
  = (zeroConstraint,
     Some "invalid version in constraint: invalid version format: 1.x") /\
  zeroConstraint = zeroConstraint.
Proof.
  assert (H : ParseConstraint ">=1.x"
              = (zeroConstraint,
                 Some "invalid version in constraint: invalid version format: 1.x"))
    by (vm_compute; reflexivity).
  split; [exact H|].
  exact (proj1 (ParseConstraint_errors _ _ _ H)).
Defined.

(** What [ParseVersion] returns on a version string of the grammar, by
    the first of its numbers that is out of range. *)
Lemma ParseVersion_text_cases (t : version_text) :
  in_grammar identifier t ->
  ParseVersion (text_of t) =
  if negb (numeral_value (t_major t) <=? maxInt) then
    (zeroVersion, Some ("invalid major version: " ++ t_major t)%string)
  else if negb (opt_value (t_minor t) <=? maxInt) then
    (zeroVersion,
     Some ("invalid minor version: " ++ opt_text "" (t_minor t))%string)
  else if negb (opt_value (t_patch t) <=? maxInt) then
    (zeroVersion,
     Some ("invalid patch version: " ++ opt_text "" (t_patch t))%string)
  else (version_of t, None).
Proof.
  intros Hg. pose proof Hg as (Hmaj & Hmi & Hpa & _).
  unfold ParseVersion.
  rewrite (text_not_empty t Hmaj), FindStringSubmatch_version.
  change (repeat EmptyString 6) with
    [EmptyString; EmptyString; EmptyString; EmptyString; EmptyString;
     EmptyString].
  rewrite (scan_text t "" Hg). cbn [option_map list_set nth].
  rewrite (Atoi_numeral _ Hmaj), (Atoi_opt _ Hmi), (Atoi_opt _ Hpa),
    !present_or_empty.
  destruct (numeral_value (t_major t) <=? maxInt),
    (opt_value (t_minor t) <=? maxInt),
    (opt_value (t_patch t) <=? maxInt); reflexivity.
Qed.

(** X4. The errors of [ParseVersion]: the empty input; an input that is
    no version string of the grammar; otherwise the first of the major,
    minor and patch numbers that is out of the range of [int], named in
    the error. Each comes with the zero Version. *)
Theorem ParseVersion_errors :
  forall (s : string) (v : Version) (e : error),
    ParseVersion s = (v, Some e) ->
    v = zeroVersion /\
    ((s = EmptyString /\ e = "version string cannot be empty"%string) \/
     (s <> EmptyString /\
      (forall t, in_grammar identifier t -> s <> text_of t) /\
      e = ("invalid version format: " ++ s)%string) \/
     (exists t,
        in_grammar identifier t /\ s = text_of t /\
        ((maxInt < numeral_value (t_major t) /\
          e = ("invalid major version: " ++ t_major t)%string) \/
         (numeral_value (t_major t) <= maxInt /\
          exists w, t_minor t = Some w /\ maxInt < numeral_value w /\
                    e = ("invalid minor version: " ++ w)%string) \/
         (numeral_value (t_major t) <= maxInt /\
          opt_value (t_minor t) <= maxInt /\
          exists w, t_patch t = Some w /\ maxInt < numeral_value w /\
                    e = ("invalid patch version: " ++ w)%string)))).
Proof.
  intros s v e H.
  assert (Hz : v = zeroVersion).
  { pose proof (ParseVersion_error s e) as Hz. rewrite H in Hz.
    now apply Hz. }
  split; [exact Hz|].
  destruct (string_dec s EmptyString) as [->|Hs].
  { injection H as _ <-. now left. }
  right.
  destruct (scan_version s
              [EmptyString; EmptyString; EmptyString; EmptyString;
               EmptyString; EmptyString]) as [out|] eqn:Es.
  - right. apply scan_groups in Es as (t & Hg & -> & _).
    exists t. split; [exact Hg|]. split; [reflexivity|].
    rewrite (ParseVersion_text_cases t Hg) in H.
    destruct (Z.leb_spec (numeral_value (t_major t)) maxInt) as [L1|L1];
      cbn [negb] in H; [|injection H as _ <-; left; auto].
    destruct (Z.leb_spec (opt_value (t_minor t)) maxInt) as [L2|L2];
      cbn [negb] in H.
    + destruct (Z.leb_spec (opt_value (t_patch t)) maxInt) as [L3|L3];
        cbn [negb] in H; [discriminate|].
      injection H as _ <-. right; right. split; [exact L1|].
      split; [exact L2|].
      destruct (t_patch t) as [w|]; [now exists w|].
      simpl in L3. discriminate L3.
    + injection H as _ <-. right; left. split; [exact L1|].
      destruct (t_minor t) as [w|]; [now exists w|].
      simpl in L2. discriminate L2.
  - left. split; [exact Hs|]. split.
    + intros t Hg ->. now rewrite (scan_text t "" Hg) in Es.
    + unfold ParseVersion in H.
      destruct (String.eqb_spec s ""); [contradiction|].
      rewrite FindStringSubmatch_version in H.
      change (repeat EmptyString 6) with
        [EmptyString; EmptyString; EmptyString; EmptyString; EmptyString;
         EmptyString] in H.
      rewrite Es in H. now injection H as _ <-.
Qed.

Lemma ParseVersion_errors_witness :
  ParseVersion "1.99999999999999999999.3"
  = (zeroVersion, Some "invalid minor version: 99999999999999999999") /\
  zeroVersion = zeroVersion.
Proof.
  assert (H : ParseVersion "1.99999999999999999999.3"
              = (zeroVersion,
                 Some "invalid minor version: 99999999999999999999"))
    by (vm_compute; reflexivity).
  split; [exact H|].
  exact (proj1 (ParseVersion_errors _ _ _ H)).
Defined.

(** * The operators *)

Lemma prerelease_rule_eq (p q : string) : prerelease_rule p q = Eq <-> p = q.
Proof.
  split.
  - destruct p as [|a p], q as [|b q]; cbn [prerelease_rule];
      try discriminate; trivial.
    rewrite <- compare_lex_bytes. apply String.compare_eq_iff.
  - intros <-. destruct p as [|a p]; cbn [prerelease_rule]; trivial.
    apply lex_bytes_refl.
Qed.

Lemma Compare_eq (a b : Version) :
  Compare a b = 0 <->
  Major a = Major b /\ Minor a = Minor b /\ Patch a = Patch b /\
  Prerelease a = Prerelease b.
Proof.
  rewrite <- prerelease_rule_eq, Compare_rule. unfold compare_rule.
  cbn [first_unequal]. rewrite first_unequal_last.
  destruct (Z.compare_spec (Major a) (Major b));
    destruct (Z.compare_spec (Minor a) (Minor b));
    destruct (Z.compare_spec (Patch a) (Patch b));
    destruct (prerelease_rule (Prerelease a) (Prerelease b));
    cbn [sign_of]; split;
    first [ intros (? & ? & ? & ?); first [lia | discriminate]
          | intros ?; first [now auto | lia | discriminate] ].
Qed.

(** X5. Two versions compare equal exactly when their major, minor and
    patch numbers and their prerelease parts are equal, and this is when
    the one satisfies the constraint [=] of the other; [!=] is the
    opposite. *)
Theorem equal_versions :
  forall a b : Version,
    (Compare a b = 0 <->
     Major a = Major b /\ Minor a = Minor b /\ Patch a = Patch b /\
     Prerelease a = Prerelease b) /\
    (IsSatisfiedBy (mkConstraint OpEqual b) a = true <-> Compare a b = 0) /\
    IsSatisfiedBy (mkConstraint OpNotEqual b) a
    = negb (IsSatisfiedBy (mkConstraint OpEqual b) a).
Proof.
  intros a b. split; [apply Compare_eq|].
  split; [apply Z.eqb_eq|reflexivity].
Qed.

Lemma Compare_lt_le_trans (a b c : Version) :
  Compare a b < 0 -> Compare b c <= 0 -> Compare a c < 0.
Proof.
  intros Hab Hbc.
  assert (Hac : Compare a c <= 0) by (apply (Compare_trans a b c); lia).
  assert (Hne : Compare a c <> 0); [|lia].
  intros E.
  assert (Hca : Compare c a <= 0) by (rewrite (Compare_antisym c a); lia).
  pose proof (Compare_trans b c a Hbc Hca) as Hba.
  rewrite (Compare_antisym b a) in Hba. lia.
Qed.

Lemma Compare_le_lt_trans (a b c : Version) :
  Compare a b <= 0 -> Compare b c < 0 -> Compare a c < 0.
Proof.
  intros Hab Hbc.
  assert (Hac : Compare a c <= 0) by (apply (Compare_trans a b c); lia).
  assert (Hne : Compare a c <> 0); [|lia].
  intros E.
  assert (Hca : Compare c a <= 0) by (rewrite (Compare_antisym c a); lia).
  pose proof (Compare_trans c a b Hca Hab) as Hcb.
  rewrite (Compare_antisym c b) in Hcb. lia.
Qed.

Lemma satisfied_ge (b v : Version) :
  IsSatisfiedBy (mkConstraint OpGreaterEqual b) v = true <-> Compare b v <= 0.
Proof.
  unfold IsSatisfiedBy; cbn [c_Operator c_Version].
  rewrite Z.geb_le, (Compare_antisym v b). lia.
Qed.

Lemma satisfied_gt (b v : Version) :
  IsSatisfiedBy (mkConstraint OpGreater b) v = true <-> Compare b v < 0.
Proof.
  unfold IsSatisfiedBy; cbn [c_Operator c_Version].
  rewrite Z.gtb_lt, (Compare_antisym v b). lia.
Qed.

Lemma satisfied_le (b v : Version) :
  IsSatisfiedBy (mkConstraint OpLessEqual b) v = true <-> Compare v b <= 0.
Proof. apply Z.leb_le. Qed.

Lemma satisfied_lt (b v : Version) :
  IsSatisfiedBy (mkConstraint OpLess b) v = true <-> Compare v b < 0.
Proof. apply Z.ltb_lt. Qed.

(** X6. The range operators follow the order: a version that is not
    below one that satisfies [>=] or [>] satisfies it too, and a version
    that is not above one that satisfies [<=] or [<] satisfies it too;
    [v] satisfies [> b] exactly when [b] satisfies [< v], and [>= b]
    exactly when [b] satisfies [<= v]. *)
Theorem range_operators_monotone :
  forall b v w : Version,
    (Compare v w <= 0 ->
     (IsSatisfiedBy (mkConstraint OpGreaterEqual b) v = true ->
      IsSatisfiedBy (mkConstraint OpGreaterEqual b) w = true) /\
     (IsSatisfiedBy (mkConstraint OpGreater b) v = true ->
      IsSatisfiedBy (mkConstraint OpGreater b) w = true) /\
     (IsSatisfiedBy (mkConstraint OpLessEqual b) w = true ->
      IsSatisfiedBy (mkConstraint OpLessEqual b) v = true) /\
     (IsSatisfiedBy (mkConstraint OpLess b) w = true ->
      IsSatisfiedBy (mkConstraint OpLess b) v = true)) /\
    IsSatisfiedBy (mkConstraint OpGreater b) v
    = IsSatisfiedBy (mkConstraint OpLess v) b /\
    IsSatisfiedBy (mkConstraint OpGreaterEqual b) v
    = IsSatisfiedBy (mkConstraint OpLessEqual v) b.
Proof.
  intros b v w. split; [intros Hvw; repeat split|split].
  - rewrite !satisfied_ge. intros H. now apply (Compare_trans b v w).
  - rewrite !satisfied_gt. intros H. now apply (Compare_lt_le_trans b v w).
  - rewrite !satisfied_le. intros H. now apply (Compare_trans v w b).
  - rewrite !satisfied_lt. intros H. now apply (Compare_le_lt_trans v w b).
  - unfold IsSatisfiedBy; cbn [c_Operator c_Version].
    rewrite (Compare_antisym v b).
    destruct (Compare_range b v) as [-> | [-> | ->]]; reflexivity.
  - unfold IsSatisfiedBy; cbn [c_Operator c_Version].
    rewrite (Compare_antisym v b).
    destruct (Compare_range b v) as [-> | [-> | ->]]; reflexivity.
Qed.

Lemma range_operators_monotone_witness :
  let b := release 1 22 0 in
  let v := mkVersion 1 22 0 "" "linux" in
  let w := mkVersion 1 23 0 "rc.1" "" in
  Compare v w <= 0 /\
  IsSatisfiedBy (mkConstraint OpGreaterEqual b) v = true /\
  IsSatisfiedBy (mkConstraint OpGreaterEqual b) w = true.
Proof.
  intros b v w.
  assert (Hvw : Compare v w <= 0) by (vm_compute; discriminate).
  assert (Hv : IsSatisfiedBy (mkConstraint OpGreaterEqual b) v = true)
    by reflexivity.
  split; [exact Hvw|]. split; [exact Hv|].
  exact (proj1 (proj1 (range_operators_monotone b v w) Hvw) Hv).
Defined.

(** [Compare b v <= 0] for a release [v]: the prerelease of [b] plays no
    part. *)
Lemma Compare_le_release (b v : Version) :
  Prerelease v = EmptyString ->
  (Compare b v <= 0 <->
   Major b < Major v \/
   (Major b = Major v /\
    (Minor b < Minor v \/ (Minor b = Minor v /\ Patch b <= Patch v)))).
Proof.
  intros Hv. rewrite Compare_le, Hv.
  assert (P : prerelease_rule (Prerelease b) "" <> Gt)
    by (destruct (Prerelease b); discriminate).
  split.
  - intros [?|[? [?|[? [?|[? _]]]]]]; lia.
  - intros [?|[? [?|[? ?]]]]; try (left; lia);
      try (right; split; [lia|]; left; lia).
    right; split; [lia|]; right; split; [lia|].
    destruct (Z.eq_dec (Patch b) (Patch v)); [right; now split|left; lia].
Qed.

(** X7. [~] and [^] do not read the prerelease part: a prerelease of a
    released bound satisfies the tilde and the caret constraint of that
    bound although it does not satisfy [>=] of it. *)
Theorem tilde_caret_ignore_prerelease :
  forall (b v : Version) (p q : string),
    IsSatisfiedBy (mkConstraint OpTilde (with_prerelease b p))
      (with_prerelease v q)
    = IsSatisfiedBy (mkConstraint OpTilde b) v /\
    IsSatisfiedBy (mkConstraint OpCaret (with_prerelease b p))
      (with_prerelease v q)
    = IsSatisfiedBy (mkConstraint OpCaret b) v /\
    (Prerelease b = EmptyString -> q <> EmptyString ->
     IsSatisfiedBy (mkConstraint OpTilde b) (with_prerelease b q) = true /\
     IsSatisfiedBy (mkConstraint OpCaret b) (with_prerelease b q) = true /\
     IsSatisfiedBy (mkConstraint OpGreaterEqual b) (with_prerelease b q)
     = false).
Proof.
  intros b v p q. split; [reflexivity|]. split; [reflexivity|].
  intros Hb Hq. split; [|split].
  - apply tildeConstraint_rule. cbn. lia.
  - unfold IsSatisfiedBy, caretConstraint, with_prerelease.
    cbn [c_Operator c_Version Major Minor Patch].
    rewrite !Z.eqb_refl. cbn [negb].
    rewrite Z.geb_leb, Z.leb_refl, Z.gtb_ltb, Z.ltb_irrefl.
    now destruct (Major b =? 0), (Minor b =? 0).
  - apply not_true_is_false. rewrite satisfied_ge, Compare_le.
    cbn [with_prerelease Major Minor Patch Prerelease]. rewrite Hb.
    intros [?|[_ [?|[_ [?|[_ H]]]]]]; try lia.
    destruct q; [contradiction|]. now apply H.
Qed.

Lemma tilde_caret_ignore_prerelease_witness :
  IsSatisfiedBy (mkConstraint OpTilde (release 1 2 3))
    (mkVersion 1 2 3 "alpha" "") = true /\
  IsSatisfiedBy (mkConstraint OpGreaterEqual (release 1 2 3))
    (mkVersion 1 2 3 "alpha" "") = false.
Proof.
  pose proof (proj2 (proj2 (tilde_caret_ignore_prerelease
                              (release 1 2 3) (release 1 2 3) "" "alpha"))
                eq_refl) as H.
  assert (Hq : "alpha"%string <> EmptyString) by discriminate.
  destruct (H Hq) as (Ht & _ & Hge). split; [exact Ht|exact Hge].
Defined.

(** X8. For a released version whose patch number is not negative, the
    tilde constraint is the range of its comment: [~b] holds exactly when
    [>= b] and [< tilde_upper b] hold, where [tilde_upper b] is the next
    minor release. *)
Theorem tilde_is_range :
  forall b v : Version,
    Prerelease v = EmptyString -> 0 <= Patch v ->
    (IsSatisfiedBy (mkConstraint OpTilde b) v = true <->
     IsSatisfiedBy (mkConstraint OpGreaterEqual b) v = true /\
     IsSatisfiedBy (mkConstraint OpLess (tilde_upper b)) v = true).
Proof.
  intros b v Hv Hp.
  assert (Hlt : Compare v (tilde_upper b) < 0 <->
                ~ Compare (tilde_upper b) v <= 0)
    by (rewrite (Compare_antisym v); lia).
  rewrite satisfied_ge, satisfied_lt, Hlt.
  rewrite !(Compare_le_release _ v Hv).
  change (IsSatisfiedBy (mkConstraint OpTilde b) v)
    with (tildeConstraint (mkConstraint OpTilde b) v).
  rewrite tildeConstraint_rule.
  unfold tilde_upper, release; cbn [Major Minor Patch]. lia.
Qed.

Lemma tilde_is_range_witness :
  IsSatisfiedBy (mkConstraint OpTilde (release 1 2 3)) (release 1 2 9)
  = true /\
  IsSatisfiedBy (mkConstraint OpGreaterEqual (release 1 2 3)) (release 1 2 9)
  = true /\
  IsSatisfiedBy (mkConstraint OpLess (release 1 3 0)) (release 1 2 9) = true.
Proof.
  assert (H : IsSatisfiedBy (mkConstraint OpTilde (release 1 2 3))
                (release 1 2 9) = true) by reflexivity.
  split; [exact H|].
  assert (Hp : 0 <= Patch (release 1 2 9)) by (cbn; lia).
  exact (proj1 (tilde_is_range (release 1 2 3) (release 1 2 9) eq_refl Hp)
           H).
Defined.

(** X9. For a released version whose minor and patch numbers are not
    negative, the caret constraint is the range of its comment: [^b] holds
    exactly when [>= b] and [< caret_upper b] hold, where [caret_upper b]
    is the next major release, the next minor release for a bound 0.y.z,
    and the next patch release for a bound 0.0.z. *)
Theorem caret_is_range :
  forall b v : Version,
    Prerelease v = EmptyString -> 0 <= Minor v -> 0 <= Patch v ->
    (IsSatisfiedBy (mkConstraint OpCaret b) v = true <->
     IsSatisfiedBy (mkConstraint OpGreaterEqual b) v = true /\
     IsSatisfiedBy (mkConstraint OpLess (caret_upper b)) v = true).
Proof.
  intros b v Hv Hm Hp.
  assert (Hlt : Compare v (caret_upper b) < 0 <->
                ~ Compare (caret_upper b) v <= 0)
    by (rewrite (Compare_antisym v); lia).
  rewrite satisfied_ge, satisfied_lt, Hlt.
  rewrite !(Compare_le_release _ v Hv).
  change (IsSatisfiedBy (mkConstraint OpCaret b) v)
    with (caretConstraint (mkConstraint OpCaret b) v).
  unfold caretConstraint, caret_upper, release; cbn [c_Version].
  destruct (Z.eqb_spec (Major b) 0) as [E0|E0];
    [destruct (Z.eqb_spec (Minor b) 0) as [E1|E1]|];
    cbn [negb Major Minor Patch]; by_cases;
    (split; [intros Hl; try discriminate Hl|intros Hr]);
    first [ reflexivity | lia ].
Qed.

Lemma caret_is_range_witness :
  IsSatisfiedBy (mkConstraint OpCaret (release 0 2 3)) (release 0 2 4)
  = true /\
  IsSatisfiedBy (mkConstraint OpGreaterEqual (release 0 2 3)) (release 0 2 4)
  = true /\
  IsSatisfiedBy (mkConstraint OpLess (release 0 3 0)) (release 0 2 4) = true.
Proof.
  assert (H : IsSatisfiedBy (mkConstraint OpCaret (release 0 2 3))
                (release 0 2 4) = true) by reflexivity.
  split; [exact H|].
  assert (Hm : 0 <= Minor (release 0 2 4)) by (cbn; lia).
  assert (Hp : 0 <= Patch (release 0 2 4)) by (cbn; lia).
  exact (proj1 (caret_is_range (release 0 2 3) (release 0 2 4) eq_refl Hm Hp)
           H).
Defined.

(** * What a parsed version holds *)

Lemma opt_value_nonneg (part : option string) : 0 <= opt_value part.
Proof. destruct part; [apply numeral_value_nonneg|reflexivity]. Qed.

Lemma opt_text_ident (part : option string) :
  opt_holds identifier part ->
  all_chars is_ident_char (opt_text "" part) = true.
Proof. destruct part; [intros [_ H]; exact H|reflexivity]. Qed.

(** X10. The numbers of a parsed version are between 0 and the greatest
    [int], and its prerelease and build parts hold only the characters of
    the pattern (letters, digits, "-" and "."). *)
Theorem ParseVersion_fields :
  forall (s : string) (v : Version),
    ParseVersion s = (v, None) ->
    0 <= Major v <= maxInt /\ 0 <= Minor v <= maxInt /\
    0 <= Patch v <= maxInt /\
    all_chars is_ident_char (Prerelease v) = true /\
    all_chars is_ident_char (Build v) = true.
Proof.
  intros s v H.
  destruct (ParseVersion_inv s v H) as (t & Hg & (H1 & H2 & H3) & _ & ->).
  destruct Hg as (_ & _ & _ & _ & Hp & Hb).
  cbn [version_of Major Minor Patch Prerelease Build].
  pose proof (numeral_value_nonneg (t_major t)).
  pose proof (opt_value_nonneg (t_minor t)).
  pose proof (opt_value_nonneg (t_patch t)).
  repeat split; trivial; now apply opt_text_ident.
Qed.

Lemma ParseVersion_fields_witness :
  0 <= Major (mkVersion 1 22 0 "rc.1" "") <= maxInt.
Proof.
  assert (H : ParseVersion "v1.22-rc.1" = (mkVersion 1 22 0 "rc.1" "", None))
    by (vm_compute; reflexivity).
  exact (proj1 (ParseVersion_fields _ _ H)).
Defined.

(** * Requirements joined by a space *)

Lemma space_width_before_space (c : ascii) (a b : string) :
  space_width (String c a ++ String " " b) = space_width (String c a).
Proof.
  unfold space_width.
  destruct a as [|c1 [|c2 a]], b as [|x b]; cbn [append]; trivial;
    change (N_of_ascii " ") with 32%N;
    by_tests; trivial; try discriminate; to_props; lia.
Qed.

Lemma fields_from_join (s1 s2 : string) :
  forall (skip : nat) (cur : string),
    (skip <= String.length s1)%nat ->
    fields_from skip cur (s1 ++ String " " s2)
    = (fields_from skip cur s1 ++ Fields s2)%list.
Proof.
  induction s1 as [|c s1 IH]; intros skip cur Hskip.
  - destruct skip; [|simpl in Hskip; lia]. reflexivity.
  - change (String c s1 ++ String " " s2)%string
      with (String c (s1 ++ String " " s2)).
    cbn [fields_from]. destruct skip as [|n].
    + change (String c (s1 ++ String " " s2))
        with (String c s1 ++ String " " s2)%string.
      rewrite space_width_before_space.
      destruct (space_width (String c s1)) as [|n] eqn:E.
      * apply IH. lia.
      * apply space_width_length in E. cbn [String.length] in E.
        rewrite IH by lia. apply app_assoc.
    + apply IH. simpl in Hskip. lia.
Qed.

Lemma Fields_join (s1 s2 : string) :
  Fields (s1 ++ String " " s2) = (Fields s1 ++ Fields s2)%list.
Proof. apply fields_from_join. lia. Qed.

Lemma SatisfiesAll_app (v : Version) (cs1 cs2 : list Constraint) :
  SatisfiesAll v (cs1 ++ cs2) = SatisfiesAll v cs1 && SatisfiesAll v cs2.
Proof. rewrite !SatisfiesAll_forallb. apply forallb_app. Qed.

Lemma join_not_empty (s1 s2 : string) :
  (s1 ++ String " " s2)%string <> EmptyString.
Proof. destruct s1; discriminate. Qed.

(** X11. Two requirements joined by a space are the conjunction of the
    two: the fields of the joined string are those of the first followed
    by those of the second, so when both are parsed the joined string is
    parsed into the two lists one after the other, and a version satisfies
    it exactly when it satisfies both; when the first is not empty and
    fails, the joined string fails with the same error. *)
Theorem ParseConstraints_join :
  forall s1 s2 : string,
    Fields (s1 ++ " " ++ s2) = (Fields s1 ++ Fields s2)%list /\
    (forall cs1 cs2,
        ParseConstraints s1 = (cs1, None) ->
        ParseConstraints s2 = (cs2, None) ->
        ParseConstraints (s1 ++ " " ++ s2) = ((cs1 ++ cs2)%list, None) /\
        forall v, SatisfiesAll v (cs1 ++ cs2)
                  = SatisfiesAll v cs1 && SatisfiesAll v cs2) /\
    (forall e,
        s1 <> EmptyString -> snd (ParseConstraints s1) = Some e ->
        ParseConstraints (s1 ++ " " ++ s2) = ([], Some e)).
Proof.
  intros s1 s2. change (" " ++ s2)%string with (String " " s2).
  split; [apply Fields_join|]. split.
  - intros cs1 cs2 H1 H2.
    apply ParseConstraints_inv in H1. apply ParseConstraints_inv in H2.
    destruct H1 as [_ H1], H2 as [_ H2].
    split; [|intros v; apply SatisfiesAll_app].
    apply ParseConstraints_all; [apply join_not_empty|].
    rewrite Fields_join. now apply Forall2_app.
  - intros e Hs He.
    destruct (parts_parsed_or_not (Fields s1))
      as [(cs & H)|(ok & cs & bad & rest & c & e' & Hf & H & Hb)].
    + rewrite (ParseConstraints_all s1 cs Hs H) in He. discriminate.
    + rewrite (ParseConstraints_first_error s1 _ _ _ _ _ _ Hs Hf H Hb) in He.
      cbn [snd] in He. injection He as <-.
      apply (ParseConstraints_first_error _ ok cs bad (rest ++ Fields s2) c e');
        trivial; [apply join_not_empty|].
      rewrite Fields_join, Hf, <- app_assoc. reflexivity.
Qed.

Lemma ParseConstraints_join_witness :
  ParseConstraints (">=1.22" ++ " " ++ "<1.25")
  = ([mkConstraint OpGreaterEqual (release 1 22 0);
      mkConstraint OpLess (release 1 25 0)], None).
Proof.
  assert (H1 : ParseConstraints ">=1.22"
               = ([mkConstraint OpGreaterEqual (release 1 22 0)], None))
    by (vm_compute; reflexivity).
  assert (H2 : ParseConstraints "<1.25"
               = ([mkConstraint OpLess (release 1 25 0)], None))
    by (vm_compute; reflexivity).
  exact (proj1 (proj1 (proj2 (ParseConstraints_join ">=1.22" "<1.25"))
                  _ _ H1 H2)).
Defined.

(** * The validation of a version by the checker *)

Lemma eqb_empty_false (s : string) : s <> EmptyString -> (s =? "")%string = false.
Proof. intros H. now destruct (String.eqb_spec s ""). Qed.

(** The outcomes of [validateVersion], case by case. *)
Lemma validateVersion_cases :
  forall actual required : string,
    match validateVersion actual required with
    | None =>
        exists v c,
          ParseVersion actual = (v, None) /\
          ParseConstraint required = (c, None) /\
          IsSatisfiedBy c v = true
    | Some e =>
        ce_Message e <> EmptyString /\
        match ce_Type e with
        | ErrorTypeParsing =>
            snd (ParseVersion actual) <> None /\
            (actual = EmptyString \/ required <> EmptyString)
        | ErrorTypeConfiguration =>
            actual <> EmptyString /\ snd (ParseConstraint required) <> None /\
            (required = EmptyString \/ snd (ParseVersion actual) = None)
        | ErrorTypeVersionMismatch =>
            exists v c,
              ParseVersion actual = (v, None) /\
              ParseConstraint required = (c, None) /\
              IsSatisfiedBy c v = false
        | ErrorTypeExecution | ErrorTypeTimeout => False
        end
    end.
Proof.
  intros actual required. unfold validateVersion.
  destruct (String.eqb_spec actual "") as [->|Ha].
  { cbn. split; [discriminate|]. split; [discriminate|now left]. }
  destruct (String.eqb_spec required "") as [->|Hr].
  { cbn. split; [discriminate|]. split; [exact Ha|].
    split; [discriminate|now left]. }
  destruct (ParseVersion actual) as [v [e|]] eqn:Ev.
  { cbn. split; [discriminate|]. split; [discriminate|now right]. }
  destruct (ParseConstraint required) as [c [e|]] eqn:Ec.
  { cbn. split; [discriminate|]. split; [exact Ha|].
    split; [discriminate|now right]. }
  destruct (IsSatisfiedBy c v) eqn:Es; cbn.
  - now exists v, c.
  - split; [discriminate|]. now exists v, c.
Qed.

(** X12. The outcome of [validateVersion]: no error exactly when the
    actual version is parsed, the requirement is parsed as one constraint
    and the constraint is satisfied; a parsing error when the actual
    version is not parsed, a configuration error when the requirement is
    empty or not parsed, a version mismatch when both are parsed and the
    constraint is not satisfied; never an execution or timeout error, and
    never an empty message. *)
Theorem validateVersion_outcome :
  forall actual required : string,
    match validateVersion actual required with
    | None =>
        exists v c,
          ParseVersion actual = (v, None) /\
          ParseConstraint required = (c, None) /\
          IsSatisfiedBy c v = true
    | Some e =>
        ce_Message e <> EmptyString /\
        match ce_Type e with
        | ErrorTypeParsing =>
            snd (ParseVersion actual) <> None /\
            (actual = EmptyString \/ required <> EmptyString)
        | ErrorTypeConfiguration =>
            actual <> EmptyString /\ snd (ParseConstraint required) <> None /\
            (required = EmptyString \/ snd (ParseVersion actual) = None)
        | ErrorTypeVersionMismatch =>
            exists v c,
              ParseVersion actual = (v, None) /\
              ParseConstraint required = (c, None) /\
              IsSatisfiedBy c v = false
        | ErrorTypeExecution | ErrorTypeTimeout => False
        end
    end.
Proof. exact validateVersion_cases. Qed.

Lemma opt_text_all (sep : ascii) (q p : ascii -> bool)
  (part : option string) :
  opt_holds (some_chars q) part ->
  (forall c, q c = true -> p c = true) ->
  p sep = true ->
  all_chars p (opt_text (String sep "") part) = true.
Proof.
  intros Hp Hq Hsep. destruct part as [w|]; simpl; trivial.
  rewrite Hsep. destruct Hp as [_ Hw].
  now apply (all_chars_weaken q).
Qed.

Lemma ident_constraint_char (c : ascii) :
  is_ident_char c = true -> is_constraint_char c = true.
Proof. unfold is_constraint_char. now intros ->. Qed.

Lemma text_of_chars (t : version_text) :
  in_grammar identifier t ->
  all_chars is_constraint_char (text_of t) = true.
Proof.
  intros (Hmaj & Hmi & Hpa & _ & Hpre & Hbu).
  unfold text_of. rewrite !all_chars_app.
  assert (D : forall c, is_digit c = true -> is_constraint_char c = true)
    by (intros c Hc; now apply ident_constraint_char, digit_ident).
  rewrite (all_chars_weaken _ _ _ D (proj2 Hmaj)).
  rewrite (opt_text_all "." _ _ _ Hmi D eq_refl).
  rewrite (opt_text_all "." _ _ _ Hpa D eq_refl).
  rewrite (opt_text_all "-" _ _ _ Hpre ident_constraint_char eq_refl).
  rewrite (opt_text_all "+" _ _ _ Hbu ident_constraint_char eq_refl).
  now destruct (t_v t).
Qed.

(** A parsed constraint holds only characters of operators and of
    versions. *)
Lemma ParseConstraint_chars (s : string) (c : Constraint) :
  ParseConstraint s = (c, None) ->
  all_chars is_constraint_char s = true.
Proof.
  intros H.
  destruct (ParseConstraint_inv s c H) as (op & vs & Hs & _ & Hv).
  destruct (split_operator_found s op vs Hs) as (Hop & -> & _).
  destruct (ParseVersion_inv vs _ Hv) as (t & Hg & _ & -> & _).
  rewrite all_chars_app, (text_of_chars t Hg), andb_true_r.
  simpl in Hop.
  destruct Hop as [<-|[<-|[<-|[<-|[<-|[<-|[<-|[<-|[]]]]]]]]]; reflexivity.
Qed.

(** X13. [validateVersion] takes the requirement as one constraint: a
    requirement with a character that is neither of an operator nor of a
    version, such as the space of a range ">=1.22 <1.25" that
    [ParseConstraints] accepts, is not parsed by [ParseConstraint] and is
    an error whatever the actual version, a configuration error when the
    actual version is parsed. *)
Theorem validateVersion_one_constraint :
  forall actual required : string,
    all_chars is_constraint_char required = false ->
    (forall c, ParseConstraint required <> (c, None)) /\
    exists e,
      validateVersion actual required = Some e /\
      (ce_Type e = ErrorTypeParsing \/ ce_Type e = ErrorTypeConfiguration) /\
      (snd (ParseVersion actual) = None ->
       ce_Type e = ErrorTypeConfiguration).
Proof.
  intros actual required Hch.
  assert (Hno : forall c, ParseConstraint required <> (c, None)).
  { intros c H. apply ParseConstraint_chars in H. congruence. }
  split; [exact Hno|].
  pose proof (validateVersion_cases actual required) as Ho.
  destruct (validateVersion actual required) as [e|].
  - exists e. split; [reflexivity|]. destruct Ho as [_ Ho].
    destruct (ce_Type e); try contradiction.
    + split; [now right|reflexivity].
    + split; [now left|]. intros Hv. now destruct Ho as [Ho _].
    + destruct Ho as (v & c & _ & Hc & _). now destruct (Hno c).
  - destruct Ho as (v & c & _ & Hc & _). now destruct (Hno c).
Qed.

Lemma validateVersion_one_constraint_witness :
  (exists cs, ParseConstraints ">=1.22 <1.25" = (cs, None) /\
              SatisfiesAll (release 1 23 0) cs = true) /\
  exists e, validateVersion "1.23.0" ">=1.22 <1.25" = Some e /\
            ce_Type e = ErrorTypeConfiguration.
Proof.
  split.
  - eexists. split; vm_compute; reflexivity.
  - assert (H : all_chars is_constraint_char ">=1.22 <1.25" = false)
      by reflexivity.
    destruct (validateVersion_one_constraint "1.23.0" ">=1.22 <1.25" H)
      as (_ & e & He & _ & Hc).
    exists e. split; [exact He|]. apply Hc. vm_compute. reflexivity.
Defined.

(** * The check of a tool *)

Lemma validateVersion_message (actual required : string) (e : CheckError) :
  validateVersion actual required = Some e ->
  (ce_Message e =? "")%string = false.
Proof.
  intros H. pose proof (validateVersion_cases actual required) as Ho.
  rewrite H in Ho. apply eqb_empty_false, Ho.
Qed.

Lemma validateVersion_actual (actual required : string) :
  validateVersion actual required = None ->
  (actual =? "")%string = false.
Proof.
  unfold validateVersion. now destruct (actual =? "")%string.
Qed.

Lemma extractVersion_message (c : Checker) (tool : ToolDefinition)
  (version : string) (e : CheckError) :
  extractVersion c tool = (version, Some e) ->
  version = EmptyString /\ (ce_Message e =? "")%string = false.
Proof.
  unfold extractVersion.
  destruct (length (CheckCommand tool) =? 0)%nat;
    [intros [= <- <-]; now split|].
  destruct (runCommand c _ _) as [output [err|]];
    [intros [= <- <-]; now split|].
  destruct (parseVersionFromOutput c _ _) as [v [err|]];
    [intros [= <- <-]; now split|discriminate].
Qed.

(** The result of [CheckTool], case by case. *)
Lemma CheckTool_cases (c : Checker) (tool : ToolDefinition)
  (platformInfo : PlatformInfo) (r : CheckResult) :
  CheckTool c tool platformInfo = Some r ->
  cr_ToolID r = td_ID tool /\ cr_ToolName r = td_Name tool /\
  cr_RequiredVersion r = td_RequiredVersion tool /\
  cr_Links r = td_Links tool /\
  cr_Platform r = PlatformInfo_String platformInfo /\
  exists command rest path available err,
    CheckCommand tool = command :: rest /\
    getToolPath c command = (path, available, err) /\
    ((err <> None \/ available = false) /\
     cr_Status r = StatusNotFound /\ cr_ActualVersion r = EmptyString /\
     cr_CommandPath r = EmptyString /\
     cr_ErrorMessage r
     = match err with Some e => e | None => "Command not found"%string end
     \/
     err = None /\ available = true /\ cr_CommandPath r = path /\
     ((exists version e,
         extractVersion c tool = (version, Some e) /\
         cr_Status r = StatusError /\ cr_ActualVersion r = EmptyString /\
         cr_ErrorMessage r = ce_Message e /\
         (ce_Message e =? "")%string = false)
      \/
      (exists version e,
         extractVersion c tool = (version, None) /\
         validateVersion version (td_RequiredVersion tool) = Some e /\
         cr_Status r = StatusError /\ cr_ActualVersion r = version /\
         cr_ErrorMessage r = ce_Message e /\
         (ce_Message e =? "")%string = false)
      \/
      (exists version,
         extractVersion c tool = (version, None) /\
         validateVersion version (td_RequiredVersion tool) = None /\
         cr_Status r = StatusOK /\ cr_ActualVersion r = version /\
         (version =? "")%string = false /\
         cr_ErrorMessage r = EmptyString))).
Proof.
  unfold CheckTool.
  destruct (CheckCommand tool) as [|command rest]; [discriminate|].
  destruct (getToolPath c command) as [[path available] err] eqn:Ep.
  destruct err as [e|]; [|destruct available].
  - intros [= <-]. repeat (split; [first [reflexivity | exact Ep]|]).
    exists command, rest, path, available, (Some e).
    repeat (split; [first [reflexivity | exact Ep]|]). left.
    split; [left; discriminate|]. now repeat split.
  - destruct (extractVersion c tool) as [version [e|]] eqn:Ex.
    + intros [= <-]. repeat (split; [first [reflexivity | exact Ep]|]).
      exists command, rest, path, true, None.
      repeat (split; [first [reflexivity | exact Ep]|]). right.
      repeat (split; [first [reflexivity | exact Ep]|]). left.
      exists version, e. split; [reflexivity|].
      repeat (split; [first [reflexivity | exact Ep]|]).
      apply (extractVersion_message c tool version e Ex).
    + destruct (validateVersion version (td_RequiredVersion tool))
        as [e|] eqn:Ev.
      * pose proof (validateVersion_message _ _ _ Ev) as Hm.
        unfold DetermineStatus, set_Status, set_ErrorMessage,
          set_ActualVersion, set_CommandPath, CheckError_Error.
        cbn [cr_ErrorMessage cr_ActualVersion]. rewrite Hm. cbn [negb].
        intros [= <-]. repeat (split; [first [reflexivity | exact Ep]|]).
        exists command, rest, path, true, None.
        repeat (split; [first [reflexivity | exact Ep]|]). right.
        repeat (split; [first [reflexivity | exact Ep]|]). right. left.
        exists version, e. now repeat split.
      * pose proof (validateVersion_actual _ _ Ev) as Hv.
        unfold DetermineStatus, set_Status, set_ErrorMessage,
          set_ActualVersion, set_CommandPath.
        cbn [cr_ErrorMessage cr_ActualVersion String.eqb negb].
        rewrite Hv.
        intros [= <-]. repeat (split; [first [reflexivity | exact Ep]|]).
        exists command, rest, path, true, None.
        repeat (split; [first [reflexivity | exact Ep]|]). right.
        repeat (split; [first [reflexivity | exact Ep]|]). right. right.
        exists version. now repeat split.
  - intros [= <-]. repeat (split; [first [reflexivity | exact Ep]|]).
    exists command, rest, path, false, None.
    repeat (split; [first [reflexivity | exact Ep]|]). left.
    split; [now right|]. now repeat split.
Qed.

Lemma CheckTool_panics (c : Checker) (tool : ToolDefinition)
  (platformInfo : PlatformInfo) :
  CheckTool c tool platformInfo = None <-> CheckCommand tool = [].
Proof.
  unfold CheckTool. destruct (CheckCommand tool) as [|command rest].
  - now split.
  - destruct (getToolPath c command) as [[path available] [e|]];
      [|destruct available;
        [destruct (extractVersion c tool) as [version [e|]]|]];
      split; discriminate.
Qed.

(** The status of the result tells what happened to the tool. *)
Lemma CheckTool_status_cases (c : Checker) (tool : ToolDefinition)
  (platformInfo : PlatformInfo) (r : CheckResult) :
  CheckTool c tool platformInfo = Some r ->
  (cr_Status r = StatusOK /\ tool_passes c tool /\ ~ tool_absent c tool) \/
  (cr_Status r = StatusNotFound /\ tool_absent c tool /\
   ~ tool_passes c tool) \/
  (cr_Status r = StatusError /\ ~ tool_passes c tool /\
   ~ tool_absent c tool).
Proof.
  intros H.
  destruct (CheckTool_cases c tool platformInfo r H)
    as (_ & _ & _ & _ & _ & command & rest & path & available & err &
        Hc & Hp & Hcases).
  assert (Habs : tool_absent c tool -> err <> None \/ available = false).
  { intros (command' & rest' & Hc' & Ha).
    rewrite Hc in Hc'. injection Hc' as <- <-.
    rewrite Hp in Ha. exact Ha. }
  assert (Hpass : tool_passes c tool ->
                  err = None /\ available = true /\
                  exists version,
                    extractVersion c tool = (version, None) /\
                    validateVersion version (td_RequiredVersion tool)
                    = None).
  { intros (command' & rest' & path' & version & Hc' & Hp' & Hx & Hv).
    rewrite Hc in Hc'. injection Hc' as <- <-.
    rewrite Hp in Hp'. injection Hp' as _ -> ->.
    split; [reflexivity|]. split; [reflexivity|]. now exists version. }
  destruct Hcases as [(Hn & Hs & _)|(-> & -> & _ & Hx)].
  - right. left. split; [exact Hs|]. split.
    + exists command, rest. split; [exact Hc|]. now rewrite Hp.
    + intros Hq. destruct (Hpass Hq) as (-> & -> & _).
      destruct Hn as [Hn|Hn]; [now apply Hn|discriminate].
  - assert (Hna : ~ tool_absent c tool).
    { intros Hq. destruct (Habs Hq) as [Hn|Hn];
        [now apply Hn|discriminate]. }
    destruct Hx as [(version & e & Hx & Hs & _)
                   |[(version & e & Hx & Hv & Hs & _)
                    |(version & Hx & Hv & Hs & _)]].
    + right. right. split; [exact Hs|]. split; [|exact Hna].
      intros Hq. destruct (Hpass Hq) as (_ & _ & version' & Hx' & _).
      congruence.
    + right. right. split; [exact Hs|]. split; [|exact Hna].
      intros Hq. destruct (Hpass Hq) as (_ & _ & version' & Hx' & Hv').
      rewrite Hx in Hx'. injection Hx' as <-. congruence.
    + left. split; [exact Hs|]. split; [|exact Hna].
      now exists command, rest, path, version.
Qed.

(** X14. The status that [CheckTool] reports is [StatusOK],
    [StatusNotFound] or [StatusError], never [StatusOutdated],
    [StatusMissing] or [StatusUnknown]: OK exactly when the tool is found,
    its version is read and [validateVersion] accepts it, not found
    exactly when the look-up of the command fails or finds nothing, and
    an error otherwise. A version that does not satisfy the requirement
    is reported as an error with the message of [validateVersion], since
    [DetermineStatus] replaces the status set before it. [CheckTool]
    panics exactly on a tool without command. *)
Theorem CheckTool_status :
  forall (c : Checker) (tool : ToolDefinition) (platformInfo : PlatformInfo),
    (CheckTool c tool platformInfo = None <-> CheckCommand tool = []) /\
    forall r : CheckResult,
      CheckTool c tool platformInfo = Some r ->
      (cr_Status r = StatusOK \/ cr_Status r = StatusNotFound \/
       cr_Status r = StatusError) /\
      (cr_Status r = StatusOK <-> tool_passes c tool) /\
      (cr_Status r = StatusNotFound <-> tool_absent c tool) /\
      (forall command rest path version e,
          CheckCommand tool = command :: rest ->
          getToolPath c command = (path, true, None) ->
          extractVersion c tool = (version, None) ->
          validateVersion version (td_RequiredVersion tool) = Some e ->
          cr_Status r = StatusError /\ cr_ActualVersion r = version /\
          cr_ErrorMessage r = ce_Message e).
Proof.
  intros c tool platformInfo. split; [apply CheckTool_panics|].
  intros r H.
  pose proof (CheckTool_status_cases c tool platformInfo r H) as Hs.
  split; [|split; [|split]].
  - destruct Hs as [(-> & _)|[(-> & _)|(-> & _)]]; auto.
  - destruct Hs as [(-> & Hp & _)|[(-> & _ & Hp)|(-> & Hp & _)]];
      split; trivial; try discriminate; intros Hq; now destruct (Hp Hq).
  - destruct Hs as [(-> & _ & Hp)|[(-> & Hp & _)|(-> & _ & Hp)]];
      split; trivial; try discriminate; intros Hq; now destruct (Hp Hq).
  - intros command rest path version e Hc Hp Hx Hv.
    destruct (CheckTool_cases c tool platformInfo r H)
      as (_ & _ & _ & _ & _ & command' & rest' & path' & available & err &
          Hc' & Hp' & Hcases).
    rewrite Hc in Hc'. injection Hc' as <- <-.
    rewrite Hp in Hp'. injection Hp' as <- <- <-.
    destruct Hcases as [([Hn|Hn] & _)|(_ & _ & _ & Hcases)];
      [now destruct Hn|discriminate|].
    destruct Hcases as [(version' & e' & Hx' & _)
                       |[(version' & e' & Hx' & Hv' & Hs' & Ha & Hm & _)
                        |(version' & Hx' & Hv' & _)]].
    + congruence.
    + rewrite Hx in Hx'. injection Hx' as <-.
      rewrite Hv in Hv'. injection Hv' as <-. now repeat split.
    + rewrite Hx in Hx'. injection Hx' as <-. congruence.
Qed.

Ltac by_fields :=
  repeat match goal with
         | |- context [String.eqb ?x ""] => destruct (String.eqb_spec x "")
         end.

(** X15. A result of [CheckTool] is consistent with its status: it
    passes [Validate] exactly when the identifier, the name and the
    required version of the tool are not empty and the tool has a
    link. *)
Theorem CheckTool_result_valid :
  forall (c : Checker) (tool : ToolDefinition) (platformInfo : PlatformInfo)
         (r : CheckResult),
    CheckTool c tool platformInfo = Some r ->
    (CheckResult_Validate r = None <->
     td_ID tool <> EmptyString /\ td_Name tool <> EmptyString /\
     td_RequiredVersion tool <> EmptyString /\ td_Links tool <> []).
Proof.
  intros c tool platformInfo r H.
  destruct (CheckTool_cases c tool platformInfo r H)
    as (Hid & Hname & Hreq & Hlinks & _ & command & rest & path &
        available & err & _ & _ & Hcases).
  unfold CheckResult_Validate. rewrite Hid, Hname, Hreq, Hlinks.
  destruct (String.eqb_spec (td_ID tool) "") as [E1|E1];
    [split; [discriminate|intros (? & _); contradiction]|].
  destruct (String.eqb_spec (td_Name tool) "") as [E2|E2];
    [split; [discriminate|intros (_ & ? & _); contradiction]|].
  destruct (String.eqb_spec (td_RequiredVersion tool) "") as [E3|E3];
    [split; [discriminate|intros (_ & _ & ? & _); contradiction]|].
  destruct (td_Links tool) as [|link links];
    [split; [discriminate|intros (_ & _ & _ & ?); contradiction]|].
  cbn [orb length Nat.eqb].
  assert (Hok : match cr_Status r with
                | StatusOK => (cr_ActualVersion r =? "")%string = false
                | StatusNotFound | StatusMissing =>
                    cr_ActualVersion r = EmptyString
                | StatusOutdated => False
                | StatusError => (cr_ErrorMessage r =? "")%string = false
                | StatusUnknown => False
                end).
  { destruct Hcases as [(_ & -> & Ha & _)|(_ & _ & _ & Hx)]; [exact Ha|].
    destruct Hx as [(version & e & _ & -> & _ & -> & Hm)
                   |[(version & e & _ & _ & -> & _ & -> & Hm)
                    |(version & _ & _ & -> & -> & Hv & _)]];
      assumption. }
  destruct (cr_Status r); try contradiction.
  - rewrite Hok. split; [intros _; repeat split; trivial; discriminate
                        |reflexivity].
  - rewrite Hok. split; [intros _; repeat split; trivial; discriminate
                        |reflexivity].
  - rewrite Hok. split; [intros _; repeat split; trivial; discriminate
                        |reflexivity].
  - rewrite Hok. split; [intros _; repeat split; trivial; discriminate
                        |reflexivity].
Qed.

Lemma CheckTool_result_valid_witness :
  let c := mkChecker (fun _ => ("/usr/local/go/bin/go"%string, true, None))
             (fun _ _ => ("go version go1.22.3 linux/amd64"%string, None))
             (fun _ _ => ("1.22.3"%string, None)) in
  let tool := mkToolDefinition "go" "Go" "the compiler" ">=1.21"
                (mkCheckConfig ["go"%string; "version"%string]
                   "go(\d+\.\d+\.\d+)")
                [("install"%string, "https://go.dev/dl/"%string)] 0 in
  let platformInfo := mkPlatformInfo "linux" "amd64" "" in
  exists r, CheckTool c tool platformInfo = Some r /\
            cr_Status r = StatusOK /\ cr_Platform r = "linux/amd64"%string /\
            CheckResult_Validate r = None.
Proof.
  intros c tool platformInfo. eexists.
  split; [vm_compute; reflexivity|]. split; [reflexivity|].
  split; [reflexivity|].
  apply (CheckTool_result_valid c tool platformInfo);
    [vm_compute; reflexivity|].
  repeat split; discriminate.
Defined.

(** * The report *)

Lemma wrap_int_small (x : Z) : 0 <= x <= maxInt -> wrap_int x = x.
Proof.
  unfold wrap_int, minInt, maxInt.
  assert (E : 2 ^ intSize = 2 * 2 ^ (intSize - 1)) by reflexivity.
  assert (P : 0 < 2 ^ (intSize - 1)) by reflexivity.
  rewrite E. generalize dependent (2 ^ (intSize - 1)). intros p _ P H.
  rewrite Z.mod_small; lia.
Qed.

Lemma count_status_cons (status : CheckStatus) (item : CheckResult)
  (items : list CheckResult) :
  count_status status (item :: items)
  = (if has_status status item then 1 else 0) + count_status status items.
Proof.
  unfold count_status. cbn [filter].
  destruct (has_status status item); cbn [length]; lia.
Qed.

Lemma count_status_nonneg (status : CheckStatus) (items : list CheckResult) :
  0 <= count_status status items.
Proof. unfold count_status. lia. Qed.

(** The loop of [CalculateCheckSummary] adds the numbers of the items
    with each status, as long as the counters do not leave the range of
    [int]. *)
Lemma count_items (items : list CheckResult) :
  forall summary : CheckSummary,
    0 <= cs_OK summary -> 0 <= cs_Missing summary ->
    0 <= cs_Outdated summary -> 0 <= cs_Errors summary ->
    cs_OK summary + Z.of_nat (length items) <= maxInt ->
    cs_Missing summary + Z.of_nat (length items) <= maxInt ->
    cs_Outdated summary + Z.of_nat (length items) <= maxInt ->
    cs_Errors summary + Z.of_nat (length items) <= maxInt ->
    fold_left count_item items summary
    = mkCheckSummary (cs_Total summary)
        (cs_OK summary + count_status StatusOK items)
        (cs_Missing summary + count_status StatusMissing items)
        (cs_Outdated summary + count_status StatusOutdated items)
        (cs_Errors summary + count_status StatusError items).
Proof.
  induction items as [|item items IH]; intros summary H1 H2 H3 H4 B1 B2 B3 B4.
  - destruct summary. unfold count_status. cbn. f_equal; lia.
  - cbn [fold_left]. rewrite !count_status_cons.
    cbn [length] in B1, B2, B3, B4. rewrite Nat2Z.inj_succ in B1, B2, B3, B4.
    unfold count_item, has_status.
    destruct (cr_Status item);
      rewrite ?wrap_int_small by lia;
      rewrite IH; cbn [cs_Total cs_OK cs_Missing cs_Outdated cs_Errors];
      try lia; f_equal; lia.
Qed.

Lemma CalculateCheckSummary_counts (items : list CheckResult) :
  Z.of_nat (length items) <= maxInt ->
  CalculateCheckSummary items
  = mkCheckSummary (Z.of_nat (length items)) (count_status StatusOK items)
      (count_status StatusMissing items) (count_status StatusOutdated items)
      (count_status StatusError items).
Proof.
  intros H. unfold CalculateCheckSummary.
  rewrite count_items; cbn [cs_Total cs_OK cs_Missing cs_Outdated cs_Errors];
    trivial; lia.
Qed.

Lemma count_status_all (items : list CheckResult) :
  Z.of_nat (length items)
  = count_status StatusUnknown items + count_status StatusOK items
    + count_status StatusMissing items + count_status StatusOutdated items
    + count_status StatusError items + count_status StatusNotFound items.
Proof.
  induction items as [|item items IH]; [reflexivity|].
  rewrite !count_status_cons. cbn [length]. rewrite Nat2Z.inj_succ.
  unfold has_status. destruct (cr_Status item); lia.
Qed.

Lemma count_status_zero (status : CheckStatus) (items : list CheckResult) :
  count_status status items = 0 <->
  Forall (fun item => cr_Status item <> status) items.
Proof.
  induction items as [|item items IH]; [now split|].
  rewrite count_status_cons, Forall_cons_iff, <- IH.
  pose proof (count_status_nonneg status items).
  unfold has_status.
  destruct status, (cr_Status item); split;
    first [ intros [Hne ?]; first [now destruct Hne | lia]
          | intros ?; first [lia | split; [discriminate|lia]] ].
Qed.

(** X16. The summary counts the items by status: the total is their
    number, and the four counters are the numbers of the items that are
    OK, missing, outdated and in error. An item that is not found or
    whose status is unknown is in the total and in no counter, so the
    counters add up to the total less the number of these items. *)
Theorem CalculateCheckSummary_by_status :
  forall items : list CheckResult,
    Z.of_nat (length items) <= maxInt ->
    let summary := CalculateCheckSummary items in
    cs_Total summary = Z.of_nat (length items) /\
    cs_OK summary = count_status StatusOK items /\
    cs_Missing summary = count_status StatusMissing items /\
    cs_Outdated summary = count_status StatusOutdated items /\
    cs_Errors summary = count_status StatusError items /\
    cs_OK summary + cs_Missing summary + cs_Outdated summary
    + cs_Errors summary
    = cs_Total summary - count_status StatusNotFound items
      - count_status StatusUnknown items.
Proof.
  intros items H summary. subst summary.
  rewrite (CalculateCheckSummary_counts items H).
  cbn [cs_Total cs_OK cs_Missing cs_Outdated cs_Errors].
  repeat (split; [reflexivity|]).
  rewrite (count_status_all items). lia.
Qed.

Lemma CalculateCheckSummary_by_status_witness :
  let found := mkCheckResult "go" "Go" StatusOK ">=1.21" "1.22.3" "" "" ""
                 [] 0 in
  let absent := mkCheckResult "jq" "jq" StatusNotFound ">=1.6" "" ""
                  "Command not found" "" [] 0 in
  let summary := CalculateCheckSummary [found; absent] in
  cs_Total summary = 2 /\
  cs_OK summary + cs_Missing summary + cs_Outdated summary
  + cs_Errors summary = 1.
Proof.
  intros found absent.
  assert (H : Z.of_nat (length [found; absent]) <= maxInt)
    by (vm_compute; discriminate).
  destruct (CalculateCheckSummary_by_status [found; absent] H)
    as (Ht & _ & _ & _ & _ & Hsum).
  split; [exact Ht|exact Hsum].
Defined.

Lemma exit_code_zero (now : Z) (platform : PlatformInfo) (source : string)
  (items : list CheckResult) :
  Z.of_nat (length items) <= maxInt ->
  (GetExitCode (NewEnvironmentReport now platform source items) = 0 <->
   Forall (fun item => cr_Status item <> StatusMissing /\
                       cr_Status item <> StatusOutdated /\
                       cr_Status item <> StatusError) items).
Proof.
  intros H. unfold GetExitCode, IsSuccessful, NewEnvironmentReport.
  cbn [er_Summary]. rewrite (CalculateCheckSummary_counts items H).
  cbn [cs_Missing cs_Outdated cs_Errors].
  assert (F : Forall (fun item => cr_Status item <> StatusMissing /\
                                  cr_Status item <> StatusOutdated /\
                                  cr_Status item <> StatusError) items <->
              count_status StatusMissing items = 0 /\
              count_status StatusOutdated items = 0 /\
              count_status StatusError items = 0).
  { rewrite !count_status_zero, !Forall_forall. split.
    - intros Hall. repeat split; intros item Hin; now apply (Hall item Hin).
    - intros (H1 & H2 & H3) item Hin.
      split; [now apply H1|split; [now apply H2|now apply H3]]. }
  rewrite F.
  destruct (Z.eqb_spec (count_status StatusMissing items) 0) as [->|E1];
    [|split; [discriminate|intros (? & _); contradiction]].
  destruct (Z.eqb_spec (count_status StatusOutdated items) 0) as [->|E2];
    [|split; [discriminate|intros (_ & ? & _); contradiction]].
  destruct (Z.eqb_spec (count_status StatusError items) 0) as [->|E3];
    [|split; [discriminate|intros (_ & _ & ?); contradiction]].
  now split.
Qed.

(** X17. The exit code of a report is 0 or 1, and it is 0 exactly when
    no item is missing, outdated or in error: an item that is not found
    does not make it 1. *)
Theorem GetExitCode_zero :
  forall (now : Z) (platform : PlatformInfo) (source : string)
         (items : list CheckResult),
    Z.of_nat (length items) <= maxInt ->
    let report := NewEnvironmentReport now platform source items in
    (GetExitCode report = 0 \/ GetExitCode report = 1) /\
    (GetExitCode report = 0 <-> IsSuccessful report = true) /\
    (GetExitCode report = 0 <->
     Forall (fun item => cr_Status item <> StatusMissing /\
                         cr_Status item <> StatusOutdated /\
                         cr_Status item <> StatusError) items).
Proof.
  intros now platform source items H report. subst report.
  split; [|split; [|now apply exit_code_zero]];
    unfold GetExitCode;
    destruct (IsSuccessful (NewEnvironmentReport now platform source items));
    auto; split; intros E; first [reflexivity | discriminate E].
Qed.

Lemma GetExitCode_zero_witness :
  let absent := mkCheckResult "jq" "jq" StatusNotFound ">=1.6" "" ""
                  "Command not found" "" [] 0 in
  GetExitCode
    (NewEnvironmentReport 0 (mkPlatformInfo "linux" "amd64" "")
       "./tools.yaml" [absent]) = 0.
Proof.
  intros absent.
  assert (H : Z.of_nat (length [absent]) <= maxInt)
    by (vm_compute; discriminate).
  apply (proj2 (proj2 (GetExitCode_zero 0 (mkPlatformInfo "linux" "amd64" "")
                         "./tools.yaml" [absent] H))).
  repeat constructor; discriminate.
Defined.

(** * A run of the checker *)

(** The loop on tools that all have a command: the slice is filled. *)
Lemma check_tools_filled (c : Checker) (platformInfo : PlatformInfo)
  (tools : list ToolDefinition) (rs : list CheckResult) :
  Forall2 (fun tool r => CheckTool c tool platformInfo = Some r) tools rs ->
  forall pre post : list CheckResult,
    length post = length tools ->
    check_tools c tools platformInfo (length pre) (pre ++ post)
    = Some (pre ++ rs)%list.
Proof.
  induction 1 as [|tool r tools rs Hr _ IH]; intros pre post Hlen.
  - destruct post; [|discriminate]. reflexivity.
  - destruct post as [|x post]; [discriminate|].
    cbn [check_tools]. rewrite Hr, list_set_middle.
    specialize (IH (pre ++ [r])%list post).
    rewrite length_app, Nat.add_1_r, <- !app_assoc in IH.
    apply IH. now injection Hlen.
Qed.

Lemma check_tools_stops (c : Checker) (platformInfo : PlatformInfo)
  (ok : list ToolDefinition) (rs : list CheckResult) (bad : ToolDefinition)
  (rest : list ToolDefinition) :
  Forall2 (fun tool r => CheckTool c tool platformInfo = Some r) ok rs ->
  CheckTool c bad platformInfo = None ->
  forall (i : nat) (results : list CheckResult),
    check_tools c (ok ++ bad :: rest) platformInfo i results = None.
Proof.
  intros Hok Hbad.
  induction Hok as [|tool r ok rs Hr _ IH]; intros i results.
  - rewrite app_nil_l. cbn [check_tools]. now rewrite Hbad.
  - rewrite <- app_comm_cons. cbn [check_tools]. rewrite Hr. apply IH.
Qed.

Lemma tools_checked_or_not (c : Checker) (platformInfo : PlatformInfo)
  (tools : list ToolDefinition) :
  (exists rs,
      Forall2 (fun tool r => CheckTool c tool platformInfo = Some r)
        tools rs) \/
  (exists ok rs bad rest,
      tools = (ok ++ bad :: rest)%list /\
      Forall2 (fun tool r => CheckTool c tool platformInfo = Some r) ok rs /\
      CheckTool c bad platformInfo = None).
Proof.
  induction tools as [|tool tools IH].
  - left. now exists [].
  - destruct (CheckTool c tool platformInfo) as [r|] eqn:E.
    + destruct IH as [(rs & H)|(ok & rs & bad & rest & -> & H & Hb)].
      * left. exists (r :: rs). now constructor.
      * right. exists (tool :: ok), (r :: rs), bad, rest.
        split; [reflexivity|]. split; [now constructor|exact Hb].
    + right. exists [], [], tool, tools. auto.
Qed.

Lemma CheckMultipleTools_each (c : Checker) (platformInfo : PlatformInfo)
  (tools : list ToolDefinition) (results : list CheckResult) :
  CheckMultipleTools c tools platformInfo = Some results <->
  Forall2 (fun tool r => CheckTool c tool platformInfo = Some r)
    tools results.
Proof.
  unfold CheckMultipleTools. split.
  - intros H.
    destruct (tools_checked_or_not c platformInfo tools)
      as [(rs & Hrs)|(ok & rs & bad & rest & -> & Hok & Hbad)].
    + pose proof (check_tools_filled c platformInfo tools rs Hrs []
                    (repeat zeroCheckResult (length tools))
                    (repeat_length _ _)) as F.
      rewrite !app_nil_l in F. cbn [length] in F. rewrite F in H.
      now injection H as <-.
    + now rewrite (check_tools_stops c platformInfo ok rs bad rest Hok Hbad)
        in H.
  - intros H.
    apply (check_tools_filled c platformInfo tools results H []
             (repeat zeroCheckResult (length tools))).
    apply repeat_length.
Qed.

Lemma CheckMultipleTools_panics (c : Checker) (platformInfo : PlatformInfo)
  (tools : list ToolDefinition) :
  CheckMultipleTools c tools platformInfo = None <->
  Exists (fun tool => CheckCommand tool = []) tools.
Proof.
  destruct (tools_checked_or_not c platformInfo tools)
    as [(rs & Hrs)|(ok & rs & bad & rest & -> & Hok & Hbad)].
  - rewrite (proj2 (CheckMultipleTools_each c platformInfo tools rs) Hrs).
    split; [discriminate|]. intros Hex. exfalso.
    induction Hrs as [|tool r tools rs Hr _ IH].
    + inversion Hex.
    + inversion Hex as [? ? Hc|? ? Hc]; subst; [|now apply IH].
      apply (CheckTool_panics c tool platformInfo) in Hc. congruence.
  - unfold CheckMultipleTools.
    rewrite (check_tools_stops c platformInfo ok rs bad rest Hok Hbad).
    split; [intros _|reflexivity].
    apply Exists_app. right. constructor.
    now apply (CheckTool_panics c bad platformInfo).
Qed.

(** The results of the tools, status by status. *)
Lemma checked_statuses (c : Checker) (platformInfo : PlatformInfo)
  (tools : list ToolDefinition) (results : list CheckResult) :
  Forall2 (fun tool r => CheckTool c tool platformInfo = Some r)
    tools results ->
  Forall (fun r => cr_Status r <> StatusMissing) results /\
  Forall (fun r => cr_Status r <> StatusOutdated) results /\
  (Forall (fun r => cr_Status r <> StatusMissing /\
                    cr_Status r <> StatusOutdated /\
                    cr_Status r <> StatusError) results <->
   Forall (fun tool => tool_passes c tool \/ tool_absent c tool) tools).
Proof.
  induction 1 as [|tool r tools rs Hr _ (IH1 & IH2 & IH3)].
  - repeat split; constructor.
  - pose proof (CheckTool_status_cases c tool platformInfo r Hr) as Hs.
    split; [|split].
    + constructor; [|exact IH1].
      destruct Hs as [(-> & _)|[(-> & _)|(-> & _)]]; discriminate.
    + constructor; [|exact IH2].
      destruct Hs as [(-> & _)|[(-> & _)|(-> & _)]]; discriminate.
    + rewrite !Forall_cons_iff, IH3.
      destruct Hs as [(-> & Hp & _)|[(-> & Ha & _)|(-> & Hp & Ha)]].
      * split; intros [_ Hall]; split; trivial;
          [now left|repeat split; discriminate].
      * split; intros [_ Hall]; split; trivial;
          [now right|repeat split; discriminate].
      * split; [intros [(_ & _ & He) _]; now destruct He|].
        intros [[Hq|Hq] _]; [now destruct (Hp Hq)|now destruct (Ha Hq)].
Qed.

(** X18. [CheckMultipleTools] checks the tools in order and panics
    exactly when one of them has no command. In the report of its results
    no tool is counted as missing or outdated, and the exit code is 0
    exactly when every tool either passes its check or is not found: a
    tool that is not installed does not make the run fail, while one
    whose version does not satisfy the requirement does. *)
Theorem CheckMultipleTools_run :
  forall (c : Checker) (tools : list ToolDefinition)
         (platformInfo : PlatformInfo),
    (CheckMultipleTools c tools platformInfo = None <->
     Exists (fun tool => CheckCommand tool = []) tools) /\
    forall results : list CheckResult,
      CheckMultipleTools c tools platformInfo = Some results ->
      Forall2 (fun tool r => CheckTool c tool platformInfo = Some r)
        tools results /\
      forall (now : Z) (source : string),
        Z.of_nat (length tools) <= maxInt ->
        let report := NewEnvironmentReport now platformInfo source results in
        cs_Total (er_Summary report) = Z.of_nat (length tools) /\
        cs_Missing (er_Summary report) = 0 /\
        cs_Outdated (er_Summary report) = 0 /\
        (GetExitCode report = 0 <->
         Forall (fun tool => tool_passes c tool \/ tool_absent c tool)
           tools).
Proof.
  intros c tools platformInfo. split; [apply CheckMultipleTools_panics|].
  intros results H. apply CheckMultipleTools_each in H.
  split; [exact H|]. intros now source Hlen report. subst report.
  pose proof (Forall2_length H) as Hl. rewrite Hl in Hlen.
  destruct (checked_statuses c platformInfo tools results H)
    as (Hm & Ho & Hall).
  rewrite (exit_code_zero now platformInfo source results Hlen), Hall.
  unfold NewEnvironmentReport. cbn [er_Summary].
  rewrite (CalculateCheckSummary_counts results Hlen).
  cbn [cs_Total cs_Missing cs_Outdated]. rewrite Hl.
  split; [reflexivity|].
  split; [now apply count_status_zero|].
  split; [now apply count_status_zero|reflexivity].
Qed.

Lemma CheckMultipleTools_run_witness :
  let c := mkChecker
             (fun command =>
                if (command =? "go")%string
                then ("/usr/local/go/bin/go"%string, true, None)
                else (EmptyString, false, None))
             (fun _ _ => ("go version go1.22.3 linux/amd64"%string, None))
             (fun _ _ => ("1.22.3"%string, None)) in
  let go := mkToolDefinition "go" "Go" "the compiler" ">=1.21"
              (mkCheckConfig ["go"%string; "version"%string]
                 "go(\d+\.\d+\.\d+)")
              [("install"%string, "https://go.dev/dl/"%string)] 0 in
  let jq := mkToolDefinition "jq" "jq" "JSON in scripts" ">=1.6"
              (mkCheckConfig ["jq"%string; "--version"%string]
                 "jq-(\d+\.\d+)")
              [("install"%string, "https://jqlang.github.io/jq/"%string)]
              0 in
  let platformInfo := mkPlatformInfo "linux" "amd64" "" in
  exists results,
    CheckMultipleTools c [go; jq] platformInfo = Some results /\
    map cr_Status results = [StatusOK; StatusNotFound] /\
    GetExitCode (NewEnvironmentReport 0 platformInfo "./tools.yaml" results)
    = 0 /\
    Forall (fun tool => tool_passes c tool \/ tool_absent c tool) [go; jq].
Proof.
  intros c go jq platformInfo.
  assert (Hrun : exists results,
             CheckMultipleTools c [go; jq] platformInfo = Some results /\
             map cr_Status results = [StatusOK; StatusNotFound] /\
             GetExitCode
               (NewEnvironmentReport 0 platformInfo "./tools.yaml" results)
             = 0).
  { eexists. split; [vm_compute; reflexivity|].
    split; [reflexivity|vm_compute; reflexivity]. }
  destruct Hrun as (results & Hrun & Hst & Hcode).
  exists results. split; [exact Hrun|]. split; [exact Hst|].
  split; [exact Hcode|].
  assert (Hlen : Z.of_nat (length [go; jq]) <= maxInt)
    by (vm_compute; discriminate).
  destruct (CheckMultipleTools_run c [go; jq] platformInfo) as [_ Hsome].
  destruct (Hsome results Hrun) as [_ Hrep].
  pose proof (Hrep 0 "./tools.yaml"%string Hlen) as Hr. cbv zeta in Hr.
  destruct Hr as (_ & _ & _ & Hexit).
  apply Hexit. exact Hcode.
Defined.
